(** * Concentric ticker: alert evaluation, DCA scheduling, request retry and
      trade dispatch

    A shallow embedding of the client-side engine of the ticker:

    - [Alerts]: [useAlertChecker] (hooks/useAlertChecker.ts) over the alert
      store of lib/localStore.ts;
    - [Schedule]: [computeNextExecution] (lib/trading/dcaStore.ts);
    - [Dispatch]: [executeAlertTrade] and [executeDCATrade];
    - [Dca]: [useDCAScheduler] (hooks/useDCAScheduler.ts);
    - [Transport]: [fetchJsonWithRetry] (lib/binance.ts);
    - [AlertStore], [OrderStore], [DcaCrud]: the rest of the stores that
      the engine writes (lib/localStore.ts, lib/trading/orderStore.ts,
      keyStore.ts, dcaStore.ts);
    - [Alarm]: the alarm of the alert checker;
    - [TrailingManager]: the evaluator of the trailing-alert component
      (components/alerts/TrailingAlertManager.tsx);
    - [ClockSync]: the clock of the trading client
      (lib/trading/binanceTrading.ts);
    - [AppStore]: the error store that the data hooks report to
      (state/appStore.ts).

    Prices and amounts are JavaScript numbers, i.e. IEEE-754 binary64
    values: they are embedded as primitive floats, so the comparisons and
    the products of the alert engine compute bit for bit what the
    TypeScript computes.  Timestamps are integers of milliseconds.  The
    retry delays of the transport are small integers scaled by a
    percentage; they are embedded over exact rationals, [Math.round] being
    the only rounding. *)

From Stdlib Require Import Ascii String ZArith QArith Qround Qpower Floats Lia Lqa.
From stdpp Require Import gmap strings list pretty.

Open Scope string_scope.
Open Scope list_scope.

(** ** JavaScript numbers *)

Module Js.

(** [x !== x], the only way a number differs from itself. *)
Definition isNaN (x : float) : bool := negb (PrimFloat.eqb x x).

(** ToBoolean on a number: false for [+0], [-0] and [NaN]. *)
Definition truthy (x : float) : bool :=
  negb (PrimFloat.eqb x 0) && negb (isNaN x).

(** ToBoolean on an optional numeric field ([undefined] is falsy). *)
Definition optTruthy (o : option float) : bool :=
  match o with
  | Some x => truthy x
  | None => false
  end.

(** [o || d] on an optional numeric field. *)
Definition orElse (o : option float) (d : float) : float :=
  match o with
  | Some x => if truthy x then x else d
  | None => d
  end.

(** [a > b], [a >= b], [a < b], [a <= b]; each is false when an operand
    is [NaN]. *)
Definition gt (a b : float) : bool := PrimFloat.ltb b a.
Definition ge (a b : float) : bool := PrimFloat.leb b a.
Definition lt (a b : float) : bool := PrimFloat.ltb a b.
Definition le (a b : float) : bool := PrimFloat.leb a b.

End Js.

(** ** Types shared by the trading modules (lib/trading/types.ts) *)

Inductive OrderSide := BUY | SELL.
Inductive AccountType := SPOT | MARGIN.
Inductive SideEffectType := MARGIN_BUY | AUTO_REPAY.

(** ** The alert store and the alert evaluation engine *)

Module Alerts.

Inductive Direction := above | below.
Inductive AlertType := price_cross | percentage_change | volume_spike | trailing_stop.
Inductive Status := active | triggered | cancelled.

(** [LocalAlert] of lib/localStore.ts.  [triggered_at] holds the instant
    that the ISO string denotes; a missing optional field is [None]. *)
Record LocalAlert := mkAlert {
  alert_id : string;
  symbol : string;
  target_price : float;
  direction : Direction;
  alert_type : AlertType;
  trailing_percent : option float;
  trailing_high : option float;
  status : Status;
  triggered_at : option Z;
  trade_enabled : option bool;
  trade_side : option OrderSide;
  trade_quantity : option string;
  trade_account_type : option AccountType
}.

(** The fields of [Partial<LocalAlert>] that the engine ever writes. *)
Record AlertPatch := mkPatch {
  p_status : option Status;
  p_triggered_at : option Z;
  p_trailing_high : option float;
  p_target_price : option float
}.

(** [{ ...a, ...updates }] *)
Definition applyPatch (a : LocalAlert) (u : AlertPatch) : LocalAlert :=
  {| alert_id := alert_id a;
     symbol := symbol a;
     target_price := default (target_price a) (p_target_price u);
     direction := direction a;
     alert_type := alert_type a;
     trailing_percent := trailing_percent a;
     trailing_high :=
       match p_trailing_high u with
       | Some h => Some h
       | None => trailing_high a
       end;
     status := default (status a) (p_status u);
     triggered_at :=
       match p_triggered_at u with
       | Some t => Some t
       | None => triggered_at a
       end;
     trade_enabled := trade_enabled a;
     trade_side := trade_side a;
     trade_quantity := trade_quantity a;
     trade_account_type := trade_account_type a |}.

(** [updateAlert(id, updates)]: every stored alert with that id is patched. *)
Definition updateAlert (store : list LocalAlert) (i : string) (u : AlertPatch)
  : list LocalAlert :=
  map (fun a => if String.eqb (alert_id a) i then applyPatch a u else a) store.

Definition isActive (a : LocalAlert) : bool :=
  match status a with
  | active => true
  | _ => false
  end.

Record PriceData := mkPrice { price : float; change : float }.

(** What a trigger does.  [EStatusWrite] is the call that persists
    [status: 'triggered']; [ESound] is the looping alarm when the audio
    preference is persistent and the one-shot pattern otherwise (silent
    when sound is disabled); [EToast] is the notification, whose text is
    not modelled; [ETradeDispatch] is the call of [executeAlertTrade]. *)
Inductive Effect :=
| EStatusWrite (i : string)
| ESound (i : string)
| EToast (i : string)
| ETradeDispatch (i : string).

(** The engine: the persisted alerts, the session's [triggeredIds] ref and
    the effects emitted so far. *)
Record Engine := mkEngine {
  store : list LocalAlert;
  triggeredIds : gset string;
  log : list Effect
}.

(** [triggerAlert(alert, currentPrice)] up to its first [await]. *)
Definition triggerAlert (now : Z) (a : LocalAlert) (currentPrice : float)
    (st : Engine) : Engine :=
  if decide (alert_id a ∈ triggeredIds st) then st
  else
    {| store :=
         updateAlert (store st) (alert_id a)
           {| p_status := Some triggered;
              p_triggered_at := Some now;
              p_trailing_high := None;
              p_target_price := None |};
       triggeredIds := {[ alert_id a ]} ∪ triggeredIds st;
       log :=
         log st
           ++ [EStatusWrite (alert_id a); ESound (alert_id a); EToast (alert_id a)]
           ++ (if default false (trade_enabled a)
               then [ETradeDispatch (alert_id a)] else []) |}.

(** The body of the [for (const alert of activeAlerts)] loop. *)
Definition checkAlert (now : Z) (priceData : gmap string PriceData)
    (st : Engine) (a : LocalAlert) : Engine :=
  match priceData !! symbol a with
  | None => st
  | Some data =>
    let currentPrice := price data in
    if decide (alert_id a ∈ triggeredIds st) then st
    else
      match alert_type a with
      | price_cross =>
        let shouldTrigger :=
          match direction a with
          | above => Js.ge currentPrice (target_price a)
          | below => Js.le currentPrice (target_price a)
          end in
        if shouldTrigger then triggerAlert now a currentPrice st else st
      | percentage_change =>
        match trailing_percent a with
        | Some tp =>
          if Js.truthy tp then
            let changePercent :=
              ((currentPrice - target_price a) / target_price a * 100)%float in
            let shouldTrigger :=
              match direction a with
              | above => Js.ge changePercent tp
              | below => Js.le changePercent (- tp)%float
              end in
            if shouldTrigger then triggerAlert now a currentPrice st else st
          else st
        | None => st
        end
      | trailing_stop =>
        match trailing_percent a with
        | Some tp =>
          if Js.truthy tp then
            let highWatermark := Js.orElse (trailing_high a) currentPrice in
            match direction a with
            | above =>
              if Js.gt currentPrice highWatermark then
                let newTrigger := (currentPrice * (1 - tp / 100))%float in
                {| store :=
                     updateAlert (store st) (alert_id a)
                       {| p_status := None;
                          p_triggered_at := None;
                          p_trailing_high := Some currentPrice;
                          p_target_price := Some newTrigger |};
                   triggeredIds := triggeredIds st;
                   log := log st |}
              else if Js.le currentPrice (target_price a) then
                triggerAlert now a currentPrice st
              else st
            | below =>
              let lowWatermark := highWatermark in
              if Js.lt currentPrice lowWatermark then
                let newTrigger := (currentPrice * (1 + tp / 100))%float in
                {| store :=
                     updateAlert (store st) (alert_id a)
                       {| p_status := None;
                          p_triggered_at := None;
                          p_trailing_high := Some currentPrice;
                          p_target_price := Some newTrigger |};
                   triggeredIds := triggeredIds st;
                   log := log st |}
              else if Js.ge currentPrice (target_price a) then
                triggerAlert now a currentPrice st
              else st
            end
          else st
        | None => st
        end
      | volume_spike => st
      end
  end.

(** The effect that runs on every change of [priceData]. *)
Definition evalPass (now : Z) (priceData : gmap string PriceData)
    (st : Engine) : Engine :=
  if Nat.eqb (size priceData) 0 then st
  else
    let activeAlerts := List.filter isActive (store st) in
    if Nat.eqb (length activeAlerts) 0 then st
    else fold_left (checkAlert now priceData) activeAlerts st.

(** What happens during a session: the price feed publishes a new
    [priceData] (the effect runs), or the user interface rewrites the
    persisted alerts ([saveAlerts]). *)
Inductive SessionEvent :=
| PriceUpdate (now : Z) (priceData : gmap string PriceData)
| StoreWrite (alerts : list LocalAlert).

Definition sessionStep (st : Engine) (ev : SessionEvent) : Engine :=
  match ev with
  | PriceUpdate now priceData => evalPass now priceData st
  | StoreWrite alerts =>
    {| store := alerts; triggeredIds := triggeredIds st; log := log st |}
  end.

Definition runSession (evs : list SessionEvent) (st : Engine) : Engine :=
  fold_left sessionStep evs st.

(** The hook is mounted with an empty [triggeredIds]. *)
Definition mount (alerts : list LocalAlert) : Engine :=
  {| store := alerts; triggeredIds := ∅; log := [] |}.

(** [addTrailingAlert] of components/alerts/TrailingAlertManager.tsx: the
    argument it hands to [createAlert], completed by [createAlert] with
    the generated id and [status: 'active']. *)
Inductive TrailDirection := up | down.

Definition addTrailingAlert (newId sym : string) (trailDirection : TrailDirection)
    (percentage currentPrice : float) (autoTrigger : bool)
    (manualTriggerPrice : float) : LocalAlert :=
  let triggerPrice :=
    if autoTrigger then
      match trailDirection with
      | up => (currentPrice * (1 - percentage / 100))%float
      | down => (currentPrice * (1 + percentage / 100))%float
      end
    else manualTriggerPrice in
  {| alert_id := newId;
     symbol := sym;
     target_price := triggerPrice;
     direction := match trailDirection with up => above | down => below end;
     alert_type := trailing_stop;
     trailing_percent := Some percentage;
     trailing_high := match trailDirection with up => Some currentPrice | down => None end;
     status := active;
     triggered_at := None;
     trade_enabled := None;
     trade_side := None;
     trade_quantity := None;
     trade_account_type := None |}.

(** *** Reading a pass for one alert *)

Definition effectId (e : Effect) : string :=
  match e with
  | EStatusWrite i => i
  | ESound i => i
  | EToast i => i
  | ETradeDispatch i => i
  end.

(** The effects of the log that concern alert [i], in order. *)
Definition effectsOf (i : string) (l : list Effect) : list Effect :=
  List.filter (fun e => String.eqb (effectId e) i) l.

(** The persisted alerts whose id is [i]. *)
Definition stored (i : string) (st : Engine) : list LocalAlert :=
  List.filter (fun a => String.eqb (alert_id a) i) (store st).

(** What one trigger of [a] emits. *)
Definition triggerEffects (a : LocalAlert) : list Effect :=
  [EStatusWrite (alert_id a); ESound (alert_id a); EToast (alert_id a)]
    ++ (if default false (trade_enabled a) then [ETradeDispatch (alert_id a)] else []).

Definition triggerPatch (now : Z) : AlertPatch :=
  {| p_status := Some triggered; p_triggered_at := Some now;
     p_trailing_high := None; p_target_price := None |}.

Definition ratchetPatch (high target : float) : AlertPatch :=
  {| p_status := None; p_triggered_at := None;
     p_trailing_high := Some high; p_target_price := Some target |}.

(** Between [st] and [st'], alert [a] triggered: its id entered the
    trigger guard, its persisted record became [triggered] at [now], and
    the trigger's effects were emitted once. *)
Definition Fired (now : Z) (a : LocalAlert) (st st' : Engine) : Prop :=
  alert_id a ∈ triggeredIds st'
  ∧ stored (alert_id a) st' = [applyPatch a (triggerPatch now)]
  ∧ effectsOf (alert_id a) (log st')
    = effectsOf (alert_id a) (log st) ++ triggerEffects a.

(** Between [st] and [st'], the watermark of [a] moved to [high] and its
    trigger price to [target], and nothing else happened to it. *)
Definition Ratcheted (high target : float) (a : LocalAlert) (st st' : Engine) : Prop :=
  (alert_id a ∉ triggeredIds st')
  ∧ stored (alert_id a) st' = [applyPatch a (ratchetPatch high target)]
  ∧ effectsOf (alert_id a) (log st') = effectsOf (alert_id a) (log st).

(** Between [st] and [st'], nothing happened to [a]. *)
Definition Untouched (a : LocalAlert) (st st' : Engine) : Prop :=
  (alert_id a ∉ triggeredIds st')
  ∧ stored (alert_id a) st' = [a]
  ∧ effectsOf (alert_id a) (log st') = effectsOf (alert_id a) (log st).

(** The engine meets alert [a] in a pass: it is persisted and active, its
    id is its own, its symbol has a price, and it has not triggered in
    this session. *)
Definition Evaluated (priceData : gmap string PriceData) (st : Engine)
    (a : LocalAlert) (current : float) : Prop :=
  NoDup (map alert_id (store st))
  ∧ a ∈ store st
  ∧ status a = active
  ∧ price <$> (priceData !! symbol a) = Some current
  ∧ alert_id a ∉ triggeredIds st.

(** At most one trigger of alert [i] is in the log. *)
Definition AtMostOnce (i : string) (l : list Effect) : Prop :=
  effectsOf i l = []
  ∨ effectsOf i l = [EStatusWrite i; ESound i; EToast i]
  ∨ effectsOf i l = [EStatusWrite i; ESound i; EToast i; ETradeDispatch i].

(** *** The decision of the loop body, apart from its effect

    What the body of the loop decides for an alert that passed the guard:
    nothing, a trigger, or a new watermark with its trigger price. *)
Inductive Action := Skip | Fire | Ratchet (high target : float).

(** The branch of [checkAlert] that the alert and the prices select. *)
Definition decideAction (priceData : gmap string PriceData) (a : LocalAlert) : Action :=
  match priceData !! symbol a with
  | None => Skip
  | Some data =>
    let p := price data in
    match alert_type a with
    | price_cross =>
      if match direction a with
         | above => Js.ge p (target_price a)
         | below => Js.le p (target_price a)
         end
      then Fire else Skip
    | percentage_change =>
      match trailing_percent a with
      | Some tp =>
        if Js.truthy tp then
          let c := ((p - target_price a) / target_price a * 100)%float in
          if match direction a with
             | above => Js.ge c tp
             | below => Js.le c (- tp)%float
             end
          then Fire else Skip
        else Skip
      | None => Skip
      end
    | trailing_stop =>
      match trailing_percent a with
      | Some tp =>
        if Js.truthy tp then
          let w := Js.orElse (trailing_high a) p in
          match direction a with
          | above =>
            if Js.gt p w then Ratchet p (p * (1 - tp / 100))%float
            else if Js.le p (target_price a) then Fire else Skip
          | below =>
            if Js.lt p w then Ratchet p (p * (1 + tp / 100))%float
            else if Js.ge p (target_price a) then Fire else Skip
          end
        else Skip
      | None => Skip
      end
    | volume_spike => Skip
    end
  end.

(** What the selected branch does to the engine, for an alert that is
    not yet in [triggeredIds]. *)
Definition perform (now : Z) (a : LocalAlert) (act : Action) (st : Engine) : Engine :=
  match act with
  | Skip => st
  | Fire =>
    {| store := updateAlert (store st) (alert_id a) (triggerPatch now);
       triggeredIds := {[ alert_id a ]} ∪ triggeredIds st;
       log := log st ++ triggerEffects a |}
  | Ratchet h t =>
    {| store := updateAlert (store st) (alert_id a) (ratchetPatch h t);
       triggeredIds := triggeredIds st;
       log := log st |}
  end.

(** The part of an engine state that concerns alert [i]. *)
Definition view (i : string) (st : Engine) : list LocalAlert * bool * list Effect :=
  (stored i st, bool_decide (i ∈ triggeredIds st), effectsOf i (log st)).

(** The view of [alert_id a] after the step on [a], from the view before. *)
Definition viewStep (now : Z) (pd : gmap string PriceData) (a : LocalAlert)
    (v : list LocalAlert * bool * list Effect) : list LocalAlert * bool * list Effect :=
  let '(s, g, l) := v in
  if g then v
  else
    match decideAction pd a with
    | Skip => v
    | Fire => (map (fun b => applyPatch b (triggerPatch now)) s, true, l ++ triggerEffects a)
    | Ratchet h t => (map (fun b => applyPatch b (ratchetPatch h t)) s, false, l)
    end.

(** The conditions of the three alert types, as the specification
    words them. *)
Definition crossed (a : LocalAlert) (p : float) : bool :=
  match direction a with
  | above => Js.ge p (target_price a)
  | below => Js.le p (target_price a)
  end.

Definition changePercent (p target : float) : float :=
  ((p - target) / target * 100)%float.

Definition moved (a : LocalAlert) (tp p : float) : bool :=
  match direction a with
  | above => Js.ge (changePercent p (target_price a)) tp
  | below => Js.le (changePercent p (target_price a)) (- tp)%float
  end.

Definition stopped (a : LocalAlert) (p : float) : bool :=
  match direction a with
  | above => Js.le p (target_price a)
  | below => Js.ge p (target_price a)
  end.

(** A run of passes, one per price update, with nothing else writing the
    store. *)
Definition runPasses (ticks : list (Z * gmap string PriceData)) (st : Engine) : Engine :=
  fold_left (fun s t => evalPass (fst t) (snd t) s) ticks st.

(** *** Invariants of a session

    [a'] is [a] up to its status and trigger time. *)
Definition frozen (a a' : LocalAlert) : Prop :=
  alert_id a' = alert_id a /\ symbol a' = symbol a /\ direction a' = direction a
  /\ alert_type a' = alert_type a /\ trailing_percent a' = trailing_percent a
  /\ trailing_high a' = trailing_high a /\ target_price a' = target_price a.

(** The persisted record of [a] keeps its watermark and trigger price,
    and is out of the trigger guard while it is active. *)
Definition Dormant (a : LocalAlert) (st : Engine) : Prop :=
  NoDup (map alert_id (store st))
  /\ exists a', stored (alert_id a) st = [a'] /\ frozen a a'
      /\ (status a' = active -> alert_id a ∉ triggeredIds st).

(** Every id has no effect in the log, or is in the trigger guard with
    the effects of exactly one trigger. *)
Definition Once (st : Engine) : Prop :=
  forall i, effectsOf i (log st) = []
    \/ (i ∈ triggeredIds st
        /\ (effectsOf i (log st) = [EStatusWrite i; ESound i; EToast i]
            \/ effectsOf i (log st) = [EStatusWrite i; ESound i; EToast i; ETradeDispatch i])).

(** The guard and the effects of [i], the part of the view that a store
    write leaves alone. *)
Definition guardView (i : string) (st : Engine) : bool * list Effect :=
  (bool_decide (i ∈ triggeredIds st), effectsOf i (log st)).

(** *** Sample data *)

Definition tick (sym : string) (p : float) : gmap string PriceData :=
  {[ sym := {| price := p; change := 0 |} ]}.

Definition exampleAlert (i : string) (ty : AlertType) (dir : Direction)
    (target : float) (tp high : option float) : LocalAlert :=
  {| alert_id := i; symbol := "BTCUSDT"; target_price := target; direction := dir;
     alert_type := ty; trailing_percent := tp; trailing_high := high;
     status := active; triggered_at := None; trade_enabled := None;
     trade_side := None; trade_quantity := None; trade_account_type := None |}.

Definition samplePercent : LocalAlert :=
  exampleAlert "p1" percentage_change above 100 (Some 10%float) None.

(** A trailing alert as the dialog creates it for the downward direction:
    5 percent above the current price 100. *)
Definition sampleDown : LocalAlert :=
  addTrailingAlert "t2" "BTCUSDT" down 5 100 true 0.

Definition samplePriceCross : LocalAlert :=
  exampleAlert "a1" price_cross above 100 None None.

Definition sampleTrailing : LocalAlert :=
  exampleAlert "t1" trailing_stop above 95 (Some 5%float) (Some 100%float).

Definition sampleBtc : LocalAlert :=
  exampleAlert "b1" price_cross above 50000 None None.

End Alerts.

(** ** The DCA store and its schedule (lib/trading/dcaStore.ts) *)

Module DcaStore.

Local Open Scope Z_scope.

Inductive Frequency := hourly | daily | weekly.

Definition msPerMinute : Z := 60000.
Definition msPerHour : Z := 3600000.
Definition msPerDay : Z := 86400000.

(** [s.split(':')] *)
Fixpoint splitColon (s : string) : list string :=
  match s with
  | EmptyString => [EmptyString]
  | String c rest =>
    if Ascii.eqb c ":"%char then EmptyString :: splitColon rest
    else
      match splitColon rest with
      | [] => [String c EmptyString]
      | p :: ps => String c p :: ps
      end
  end.

Definition digitValue (c : ascii) : option Z :=
  let n := Z.of_nat (nat_of_ascii c) in
  if (48 <=? n)%Z && (n <=? 57)%Z then Some (n - 48)%Z else None.

Fixpoint decimalFrom (acc : Z) (s : string) : option Z :=
  match s with
  | EmptyString => Some acc
  | String c rest =>
    match digitValue c with
    | Some d => decimalFrom (10 * acc + d) rest
    | None => None
    end
  end.

(** [Number(s)] on the texts a time input writes: a run of decimal digits
    is its value, the empty string is 0. *)
Definition decimalNumber (s : string) : option Z := decimalFrom 0 s.

Section LocalTime.

(** The host's time zone, as local time minus UTC in milliseconds, taken
    constant (no daylight-saving change inside the computation). *)
Variable tz : Z.

(** [Number] on a piece of [scheduledTime], truncated to an integer as
    [setHours] does; [None] when the result is [NaN] or infinite. *)
Variable toNumber : string -> option Z.

(** A [Date] is its time value, in milliseconds since the epoch. *)
Definition localTime (t : Z) : Z := t + tz.

Definition getHours (t : Z) : Z := (localTime t / msPerHour) mod 24.
Definition getMinutes (t : Z) : Z := (localTime t / msPerMinute) mod 60.
Definition getSeconds (t : Z) : Z := (localTime t / 1000) mod 60.

(** 1 January 1970 was a Thursday. *)
Definition getDay (t : Z) : Z := (localTime t / msPerDay + 4) mod 7.

(** [d.setMinutes(m, 0, 0)] *)
Definition setMinutes (m : Z) (t : Z) : Z :=
  t - localTime t mod msPerHour + m * msPerMinute.

(** [d.setHours(h)], minutes and below kept; an hour outside 0..23
    carries into the date. *)
Definition setHours (h : Z) (t : Z) : Z :=
  t + (h - getHours t) * msPerHour.

(** [d.setHours(h, m, 0, 0)] *)
Definition setHoursMinutes (h m : Z) (t : Z) : Z :=
  t - localTime t mod msPerDay + h * msPerHour + m * msPerMinute.

(** [d.setDate(d.getDate() + k)]: [k] calendar days later. *)
Definition addDate (k : Z) (t : Z) : Z := t + k * msPerDay.

(** [scheduledTime.split(':').map(Number)] read as [[hours, minutes]];
    [None] when either is not a finite number (a missing second piece is
    [undefined]). *)
Definition parseHoursMinutes (scheduledTime : string) : option (Z * Z) :=
  match splitColon scheduledTime with
  | h :: m :: _ =>
    match toNumber h, toNumber m with
    | Some hours, Some minutes => Some (hours, minutes)
    | _, _ => None
    end
  | _ => None
  end.

(** [computeNextExecution(frequency, scheduledTime, dayOfWeek, from)].
    The result is the instant of the ISO string returned; [None] is the
    [RangeError] that [toISOString] raises on an invalid date. *)
Definition computeNextExecution (frequency : Frequency) (scheduledTime : string)
    (dayOfWeek : option Z) (now : Z) : option Z :=
  match frequency with
  | hourly =>
    if String.eqb scheduledTime "end" then
      let next := setMinutes 55 now in
      Some (if next <=? now then setHours (getHours next + 1) next else next)
    else
      let next := setMinutes 0 now in
      let next := setHours (getHours next + 1) next in
      Some (if String.eqb scheduledTime "start"
               && (getMinutes now =? 0) && (getSeconds now <? 30)
            then setHours (getHours next - 1) next
            else next)
  | daily =>
    match parseHoursMinutes scheduledTime with
    | Some (hours, minutes) =>
      let next := setHoursMinutes hours minutes now in
      Some (if next <=? now then addDate 1 next else next)
    | None => None
    end
  | weekly =>
    match dayOfWeek with
    | Some dow =>
      match parseHoursMinutes scheduledTime with
      | Some (hours, minutes) =>
        let next := setHoursMinutes hours minutes now in
        let currentDay := getDay next in
        let daysUntil := dow - currentDay in
        let daysUntil := if daysUntil <? 0 then daysUntil + 7 else daysUntil in
        let daysUntil :=
          if (daysUntil =? 0) && (next <=? now) then 7 else daysUntil in
        Some (addDate daysUntil next)
      | None => None
      end
    | None => Some (now + 3600000)
    end
  end.

End LocalTime.

(** *** Reading the schedule *)



(** A schedule as the strategy dialog writes it: any text for an hourly
    strategy; for a daily or weekly one a time of day [HH:MM], and for a
    weekly one with a day, a day of the week from 0 (Sunday) to 6. *)
Definition WellFormed (toNumber : string -> option Z) (frequency : Frequency)
    (scheduledTime : string) (dayOfWeek : option Z) : Prop :=
  match frequency with
  | hourly => True
  | daily =>
    exists h m, parseHoursMinutes toNumber scheduledTime = Some (h, m)
                /\ 0 <= h < 24 /\ 0 <= m < 60
  | weekly =>
    match dayOfWeek with
    | None => True
    | Some d =>
      0 <= d <= 6
      /\ exists h m, parseHoursMinutes toNumber scheduledTime = Some (h, m)
                     /\ 0 <= h < 24 /\ 0 <= m < 60
    end
  end.

(** [DCAStrategy].  The three amounts are kept in the store as decimal
    texts and read back with [parseFloat]; a field holds the number its
    text denotes ([String] and [parseFloat] are inverse on doubles).
    [nextExecuteAt] and [lastExecutedAt] hold the instants their ISO
    strings denote. *)
Record DCAStrategy := mkStrategy {
  strategy_id : string;
  symbol : string;
  side : OrderSide;
  quoteAmount : float;
  totalBudget : float;
  totalSpent : float;
  executionCount : Z;
  accountType : AccountType;
  frequency : Frequency;
  scheduledTime : string;
  dayOfWeek : option Z;
  enabled : bool;
  nextExecuteAt : Z;
  lastExecutedAt : option Z
}.

(** The fields of [Partial<DCAStrategy>] that the scheduler writes. *)
Record StrategyPatch := mkStrategyPatch {
  p_totalSpent : option float;
  p_executionCount : option Z;
  p_lastExecutedAt : option Z;
  p_nextExecuteAt : option Z;
  p_enabled : option bool
}.

(** [{ ...s, ...updates }] *)
Definition applyStrategyPatch (s : DCAStrategy) (u : StrategyPatch) : DCAStrategy :=
  {| strategy_id := strategy_id s;
     symbol := symbol s;
     side := side s;
     quoteAmount := quoteAmount s;
     totalBudget := totalBudget s;
     totalSpent := default (totalSpent s) (p_totalSpent u);
     executionCount := default (executionCount s) (p_executionCount u);
     accountType := accountType s;
     frequency := frequency s;
     scheduledTime := scheduledTime s;
     dayOfWeek := dayOfWeek s;
     enabled := default (enabled s) (p_enabled u);
     nextExecuteAt := default (nextExecuteAt s) (p_nextExecuteAt u);
     lastExecutedAt :=
       match p_lastExecutedAt u with
       | Some t => Some t
       | None => lastExecutedAt s
       end |}.

(** [updateDCAStrategy(id, updates)] *)
Definition updateDCAStrategy (strategies : list DCAStrategy) (i : string)
    (u : StrategyPatch) : list DCAStrategy :=
  map (fun s => if String.eqb (strategy_id s) i then applyStrategyPatch s u else s)
      strategies.

End DcaStore.

(** ** The trade dispatcher (lib/trading/executeAlertTrade.ts,
       executeDCATrade.ts, orderStore.ts, keyStore.ts) *)

Module Dispatch.

(** An [Error] object; every [throw] of the trading client and of the
    platform calls under it raises one. *)
Record JsError := mkError { err_name : string; err_message : string }.

Inductive Exc (A : Type) :=
| Returns (a : A)
| Throws (e : JsError).
Arguments Returns {A} a.
Arguments Throws {A} e.

Inductive OrderStatus :=
| NEW | PARTIALLY_FILLED | FILLED | CANCELED | PENDING_CANCEL | REJECTED | EXPIRED.

Record OrderResponse := mkOrderResponse {
  orderId : Z;
  or_symbol : string;
  or_side : OrderSide;
  or_price : string;
  origQty : string;
  or_status : OrderStatus
}.

Record StoredOrder := mkStoredOrder {
  so_id : string;
  so_orderId : Z;
  so_symbol : string;
  so_side : OrderSide;
  so_price : string;
  so_quantity : string;
  so_status : OrderStatus;
  so_accountType : AccountType;
  so_alertId : option string;
  so_createdAt : Z
}.

(** The argument of [placeLimitOrder]; [lo_price] is the number whose
    text [String(alert.target_price)] is sent. *)
Record LimitOrderRequest := mkLimitOrder {
  lo_symbol : string;
  lo_side : OrderSide;
  lo_quantity : string;
  lo_price : float;
  lo_accountType : AccountType;
  lo_sideEffectType : option SideEffectType
}.

Record MarketOrderRequest := mkMarketOrder {
  mo_symbol : string;
  mo_side : OrderSide;
  mo_quoteOrderQty : option float;
  mo_quantity : option float;
  mo_accountType : AccountType;
  mo_sideEffectType : option SideEffectType
}.

(** The operations of the trading client that the dispatcher awaits; each
    may reject. *)
Record TradingClient := mkClient {
  syncTime : Exc unit;
  placeLimitOrder : LimitOrderRequest -> Exc OrderResponse;
  placeMarketOrder : MarketOrderRequest -> Exc OrderResponse
}.

Record StoredKeys := mkKeys { apiKey : string; apiSecret : string }.

(** What local storage holds under the keys entry: nothing, a text that
    is not JSON, or an object with its two fields as found. *)
Inductive KeysItem :=
| KeysAbsent
| KeysUnparsable
| KeysObject (key secret : option string).

Inductive Signer :=
| WebCryptoSigner (secret : string)
| CustomSigner (name : string).

(** What the dispatcher meets outside itself. *)
Record World := mkWorld {
  keysItem : KeysItem;
  createTradingClient : string -> Signer -> TradingClient;
  storageWritable : bool;
  newOrderId : string;
  clock : Z
}.

Definition nonEmpty (s : string) : bool := negb (String.eqb s "").

(** [getStoredKeys()] *)
Definition getStoredKeys (item : KeysItem) : option StoredKeys :=
  match item with
  | KeysAbsent => None
  | KeysUnparsable => None
  | KeysObject (Some k) (Some s) =>
    if nonEmpty k && nonEmpty s then Some {| apiKey := k; apiSecret := s |} else None
  | KeysObject _ _ => None
  end.

(** Computations over the order history that may throw. *)
Definition M (A : Type) : Type := list StoredOrder -> Exc A * list StoredOrder.

Definition ret {A} (a : A) : M A := fun h => (Returns a, h).

Definition bind {A B} (c : M A) (k : A -> M B) : M B :=
  fun h =>
    match c h with
    | (Returns a, h') => k a h'
    | (Throws e, h') => (Throws e, h')
    end.

Definition await {A} (r : Exc A) : M A := fun h => (r, h).

Definition tryCatch {A} (body : M A) (handler : JsError -> M A) : M A :=
  fun h =>
    match body h with
    | (Returns a, h') => (Returns a, h')
    | (Throws e, h') => handler e h'
    end.

Notation "x <- c ;; k" := (bind c (fun x => k))
  (at level 100, c at next level, right associativity).

Definition MAX_ORDERS : nat := 100.

(** [addOrderToHistory(response, accountType, alertId)]; writing local
    storage throws when the quota is exceeded. *)
Definition addOrderToHistory (w : World) (response : OrderResponse)
    (acct : AccountType) (alertId : option string) : M StoredOrder :=
  fun history =>
    let order :=
      {| so_id := newOrderId w;
         so_orderId := orderId response;
         so_symbol := or_symbol response;
         so_side := or_side response;
         so_price := or_price response;
         so_quantity := origQty response;
         so_status := or_status response;
         so_accountType := acct;
         so_alertId := alertId;
         so_createdAt := clock w |} in
    if storageWritable w then (Returns order, take MAX_ORDERS (order :: history))
    else (Throws {| err_name := "QuotaExceededError";
                    err_message := "The quota has been exceeded." |}, history).

Record TradeResult := mkResult {
  success : bool;
  order : option OrderResponse;
  error : option string
}.

Definition noKeys : TradeResult :=
  {| success := false; order := None; error := Some "No API keys configured" |}.

(** [executeAlertTrade(alert, customSigner)]; [None] is [null]. *)
Definition executeAlertTrade (w : World) (alert : Alerts.LocalAlert)
    (customSigner : option Signer) : M (option TradeResult) :=
  if negb (default false (Alerts.trade_enabled alert)) then ret None
  else
    match getStoredKeys (keysItem w) with
    | None => ret (Some noKeys)
    | Some keys =>
      let signer := default (WebCryptoSigner (apiSecret keys)) customSigner in
      let client := createTradingClient w (apiKey keys) signer in
      tryCatch
        (_ <- await (syncTime client) ;;
         let acct := default SPOT (Alerts.trade_account_type alert) in
         order <- await (placeLimitOrder client
           {| lo_symbol := Alerts.symbol alert;
              lo_side := default BUY (Alerts.trade_side alert);
              lo_quantity := default "0" (Alerts.trade_quantity alert);
              lo_price := Alerts.target_price alert;
              lo_accountType := acct;
              lo_sideEffectType :=
                match acct with MARGIN => Some MARGIN_BUY | SPOT => None end |}) ;;
         _ <- addOrderToHistory w order acct (Some (Alerts.alert_id alert)) ;;
         ret (Some {| success := true; order := Some order; error := None |}))
        (fun err =>
           ret (Some {| success := false; order := None;
                        error := Some (err_message err) |}))
    end.

(** [executeDCATrade(strategy, customSigner)] *)
Definition executeDCATrade (w : World) (strategy : DcaStore.DCAStrategy)
    (customSigner : option Signer) : M TradeResult :=
  match getStoredKeys (keysItem w) with
  | None => ret noKeys
  | Some keys =>
    let signer := default (WebCryptoSigner (apiSecret keys)) customSigner in
    let client := createTradingClient w (apiKey keys) signer in
    tryCatch
      (_ <- await (syncTime client) ;;
       let isMargin :=
         match DcaStore.accountType strategy with MARGIN => true | SPOT => false end in
       order <- await (placeMarketOrder client
         {| mo_symbol := DcaStore.symbol strategy;
            mo_side := DcaStore.side strategy;
            mo_quoteOrderQty :=
              match DcaStore.side strategy with
              | BUY => Some (DcaStore.quoteAmount strategy)
              | SELL => None
              end;
            mo_quantity :=
              match DcaStore.side strategy with
              | SELL => Some (DcaStore.quoteAmount strategy)
              | BUY => None
              end;
            mo_accountType := DcaStore.accountType strategy;
            mo_sideEffectType :=
              if isMargin then
                match DcaStore.side strategy with
                | BUY => Some MARGIN_BUY
                | SELL => Some AUTO_REPAY
                end
              else None |}) ;;
       _ <- addOrderToHistory w order (DcaStore.accountType strategy)
              (Some ("dca-" ++ DcaStore.strategy_id strategy)%string) ;;
       ret {| success := true; order := Some order; error := None |})
      (fun err =>
         ret {| success := false; order := None; error := Some (err_message err) |})
  end.

(** *** Reading a dispatch *)



(** *** Sample data *)

(** A client whose calls all succeed. *)
Definition sampleClient : TradingClient :=
  {| syncTime := Returns tt;
     placeLimitOrder := fun req =>
       Returns (mkOrderResponse 1 (lo_symbol req) (lo_side req) "0" (lo_quantity req) NEW);
     placeMarketOrder := fun req =>
       Returns (mkOrderResponse 2 (mo_symbol req) (mo_side req) "0" "0" FILLED) |}.

Definition sampleWorld : World :=
  {| keysItem := KeysObject (Some "key") (Some "secret");
     createTradingClient := fun _ _ => sampleClient;
     storageWritable := true;
     newOrderId := "o1";
     clock := 0 |}.

Definition noKeysWorld : World :=
  {| keysItem := KeysAbsent;
     createTradingClient := fun _ _ => sampleClient;
     storageWritable := true;
     newOrderId := "o1";
     clock := 0 |}.

End Dispatch.

(** ** The DCA scheduler (hooks/useDCAScheduler.ts) *)

Module Dca.

Import DcaStore.

Local Open Scope Z_scope.

(** The calls the scheduler makes besides writing the store. *)
Inductive Effect :=
| ETrade (i : string) (due : Z)
| EToastExecuted (i : string) (budgetReached : bool)
| EToastFailed (i : string).

(** The scheduler: the persisted strategies, the session's [executedKeys]
    and [executingRef], the order history and the effects so far.  A key
    [`${id}-${nextExecuteAt}`] is kept as the pair it is built from (the
    ISO text of an instant has a fixed width, so the text determines the
    pair). *)
Record Scheduler := mkScheduler {
  strategies : list DCAStrategy;
  executedKeys : gset (string * Z);
  executing : bool;
  history : list Dispatch.StoredOrder;
  log : list Effect
}.

(** How an [async] call ends. *)
Inductive Settled :=
| Fulfilled (st : Scheduler)
| Rejected (st : Scheduler).

Section Host.

Variable tz : Z.
Variable toNumber : string -> option Z.

(** [executeStrategy(strategy)]: [w] is what the trade meets and [now] the
    clock read after it. *)
Definition executeStrategy (w : Dispatch.World) (now : Z)
    (strategy : DCAStrategy) (st : Scheduler) : Settled :=
  let key := (strategy_id strategy, nextExecuteAt strategy) in
  if decide (key ∈ executedKeys st) then Fulfilled st
  else
    let '(result, history') :=
      Dispatch.executeDCATrade w strategy None (history st) in
    let st1 :=
      {| strategies := strategies st;
         executedKeys := {[ key ]} ∪ executedKeys st;
         executing := executing st;
         history := history';
         log := log st ++ [ETrade (strategy_id strategy) (nextExecuteAt strategy)] |} in
    match result with
    | Dispatch.Throws _ => Rejected st1
    | Dispatch.Returns result =>
      let newTotalSpent := (totalSpent strategy + quoteAmount strategy)%float in
      let budgetExhausted := Js.ge newTotalSpent (totalBudget strategy) in
      match computeNextExecution tz toNumber (frequency strategy)
              (scheduledTime strategy) (dayOfWeek strategy) now with
      | None => Rejected st1
      | Some next =>
        let updates :=
          {| p_totalSpent := Some newTotalSpent;
             p_executionCount := Some (executionCount strategy + 1);
             p_lastExecutedAt := Some now;
             p_nextExecuteAt := Some next;
             p_enabled := if budgetExhausted then Some false else None |} in
        Fulfilled
          {| strategies := updateDCAStrategy (strategies st1) (strategy_id strategy) updates;
             executedKeys := executedKeys st1;
             executing := executing st1;
             history := history st1;
             log :=
               log st1
                 ++ [if Dispatch.success result
                     then EToastExecuted (strategy_id strategy) budgetExhausted
                     else EToastFailed (strategy_id strategy)] |}
      end
    end.

(** The [for (const strategy of allStrategies)] loop of [check]; [env]
    gives, for the strategy being executed, what its trade meets and the
    clock read after it.  A rejection leaves the loop. *)
Fixpoint checkLoop (now : Z) (env : DCAStrategy -> Dispatch.World * Z)
    (allStrategies : list DCAStrategy) (st : Scheduler) : Settled :=
  match allStrategies with
  | [] => Fulfilled st
  | strategy :: rest =>
    if negb (enabled strategy) then checkLoop now env rest st
    else if now >=? nextExecuteAt strategy then
      match executeStrategy (fst (env strategy)) (snd (env strategy)) strategy st with
      | Fulfilled st' => checkLoop now env rest st'
      | Rejected st' => Rejected st'
      end
    else checkLoop now env rest st
  end.

Definition setExecuting (b : bool) (st : Scheduler) : Scheduler :=
  {| strategies := strategies st;
     executedKeys := executedKeys st;
     executing := b;
     history := history st;
     log := log st |}.

(** [check()], with its single-flight latch and its [finally]. *)
Definition check (now : Z) (env : DCAStrategy -> Dispatch.World * Z)
    (st : Scheduler) : Scheduler :=
  if executing st then st
  else
    let st1 := setExecuting true st in
    match checkLoop now env (strategies st1) st1 with
    | Fulfilled st' => setExecuting false st'
    | Rejected st' => setExecuting false st'
    end.

(** A session: the timer fires, or the user interface rewrites the
    persisted strategies. *)
Inductive SessionEvent :=
| Tick (now : Z) (env : DCAStrategy -> Dispatch.World * Z)
| StoreWrite (saved : list DCAStrategy).

Definition sessionStep (st : Scheduler) (ev : SessionEvent) : Scheduler :=
  match ev with
  | Tick now env => check now env st
  | StoreWrite saved =>
    {| strategies := saved;
       executedKeys := executedKeys st;
       executing := executing st;
       history := history st;
       log := log st |}
  end.

Definition runSession (evs : list SessionEvent) (st : Scheduler) : Scheduler :=
  fold_left sessionStep evs st.

End Host.

(** The hook is mounted with an empty [executedKeys]. *)
Definition mount (saved : list DCAStrategy) : Scheduler :=
  {| strategies := saved; executedKeys := ∅; executing := false;
     history := []; log := [] |}.

(** How many times the trade of strategy [i] due at [due] was dispatched. *)
Definition isTrade (i : string) (due : Z) (e : Effect) : bool :=
  match e with
  | ETrade j d => String.eqb j i && (d =? due)
  | _ => false
  end.

Definition tradeCount (i : string) (due : Z) (l : list Effect) : nat :=
  length (List.filter (isTrade i due) l).

(** *** Reading an execution *)

(** The bookkeeping that follows an execution attempt of [strategy] that
    ends at [now], when the schedule gives [next]. *)
Definition bookkeeping (strategy : DCAStrategy) (now next : Z) : StrategyPatch :=
  let newTotalSpent := (totalSpent strategy + quoteAmount strategy)%float in
  {| p_totalSpent := Some newTotalSpent;
     p_executionCount := Some (executionCount strategy + 1);
     p_lastExecutedAt := Some now;
     p_nextExecuteAt := Some next;
     p_enabled :=
       if Js.ge newTotalSpent (totalBudget strategy) then Some false else None |}.

(** Every key has no trade in the log, or is in [executedKeys] with
    exactly one. *)
Definition OncePerKey (st : Scheduler) : Prop :=
  forall i due, tradeCount i due (log st) = 0%nat
    \/ ((i, due) ∈ executedKeys st /\ tradeCount i due (log st) = 1%nat).

Definition isAnyTrade (e : Effect) : bool :=
  match e with
  | ETrade _ _ => true
  | _ => false
  end.

(** *** Sample data *)

(** 100 to spend, 50 at a time, at minute 55 of every hour; first due at
    00:55 UTC on 1 January 1970. *)
Definition sampleStrategy : DCAStrategy :=
  {| strategy_id := "s1"; symbol := "BTCUSDT"; side := BUY;
     quoteAmount := 50; totalBudget := 100; totalSpent := 0;
     executionCount := 0; accountType := SPOT; frequency := hourly;
     scheduledTime := "end"; dayOfWeek := None; enabled := true;
     nextExecuteAt := 3300000; lastExecutedAt := None |}.

(** Four timer ticks: due, not due, due again, and after the budget is
    spent. *)
Definition sampleTicks (w : Dispatch.World) : list SessionEvent :=
  [Tick 3310000 (fun _ => (w, 3311000));
   Tick 3340000 (fun _ => (w, 3341000));
   Tick 6910000 (fun _ => (w, 6911000));
   Tick 10510000 (fun _ => (w, 10511000))].

End Dca.

(** ** The request transport (lib/binance.ts) *)

Module Transport.

Local Open Scope Z_scope.

Inductive ErrorCode :=
| RATE_LIMITED | HTTP_ERROR | ABORT_TIMEOUT | NETWORK_ERROR | RETRY_EXHAUSTED.

(** [class ApiError extends Error] *)
Record ApiError := mkApiError {
  message : string;
  code : ErrorCode;
  url : string;
  attempt : Z;
  status : option Z;
  retryAfterSec : option Z
}.

(** Delays are milliseconds; they and the jitter percentage are exact
    rationals. *)
Record RetryConfig := mkConfig {
  maxAttempts : Z;
  baseDelay : Q;
  timeout : Q;
  jitterPercent : Q
}.

Definition DEFAULT_CONFIG : RetryConfig :=
  {| maxAttempts := 3; baseDelay := 300%Q; timeout := 6000%Q; jitterPercent := 30%Q |}.

(** [Math.round]: the nearest integer, a tie going up. *)
Definition Math_round (x : Q) : Z := Qfloor (x + (1 # 2))%Q.

(** [addJitter(delay, jitterPercent)]; [random] is what [Math.random()]
    returns. *)
Definition addJitter (delay jitterPercent random : Q) : Z :=
  let jitter := (delay * (jitterPercent / 100))%Q in
  let randomFactor := (random * 2 - 1)%Q in
  Math_round (delay + jitter * randomFactor)%Q.

(** What a [catch] receives: an [ApiError], another [Error] with its name
    and message, or a value that is not an [Error]. *)
Inductive Thrown :=
| ThrownApi (e : ApiError)
| ThrownError (name msg : string)
| ThrownValue.

(** [isRetryableError(error, status)] *)
Definition isRetryableError (error : Thrown) (status : option Z) : bool :=
  let byStatus :=
    match status with
    | Some s =>
      if s =? 429 then true
      else if (500 <=? s) && (s <? 600) then true
      else false
    | None => false
    end in
  match error with
  | ThrownError name _ =>
    if String.eqb name "AbortError" then true
    else if String.eqb name "TypeError" then true
    else byStatus
  | _ => byStatus
  end.

(** The parts of a [Response] that are read; [json] is [None] when
    [response.json()] rejects. *)
Record Response := mkResponse {
  resp_status : Z;
  statusText : string;
  retryAfterHeader : option string;
  json : option string
}.

(** [response.ok] *)
Definition ok (r : Response) : bool :=
  (200 <=? resp_status r) && (resp_status r <=? 299).

Inductive FetchOutcome :=
| Resolved (r : Response)
| Failed (e : Thrown).

Definition isWhiteSpace (c : ascii) : bool :=
  let n := Z.of_nat (nat_of_ascii c) in
  (n =? 9) || (n =? 10) || (n =? 11) || (n =? 12) || (n =? 13) || (n =? 32) || (n =? 160).

Fixpoint skipWhiteSpace (s : string) : string :=
  match s with
  | String c rest => if isWhiteSpace c then skipWhiteSpace rest else s
  | EmptyString => s
  end.

(** The value of the longest run of decimal digits at the head of [s],
    [None] when there is none. *)
Fixpoint digitsPrefix (acc : option Z) (s : string) : option Z :=
  match s with
  | String c rest =>
    match DcaStore.digitValue c with
    | Some d => digitsPrefix (Some (10 * default 0 acc + d)) rest
    | None => acc
    end
  | EmptyString => acc
  end.

(** [parseInt(s, 10)]; [None] is [NaN]. *)
Definition parseInt (s : string) : option Z :=
  match skipWhiteSpace s with
  | String "-"%char rest => Z.opp <$> digitsPrefix None rest
  | String "+"%char rest => digitsPrefix None rest
  | s' => digitsPrefix None s'
  end.

(** How one turn of the loop ends: the function returns, it throws, or
    the loop goes on with [lastError] set. *)
Inductive Turn :=
| Return (data : string)
| ThrowOut (e : ApiError)
| Continue (lastError : ApiError).

(** The [catch (error)] block of the loop. *)
Definition catchBlock (input : string) (attempt : Z) (error : Thrown) : Turn :=
  let lastError :=
    match error with
    | ThrownApi e => e
    | ThrownError name msg =>
      if String.eqb name "AbortError"
      then mkApiError "Request timeout" ABORT_TIMEOUT input attempt None None
      else mkApiError msg NETWORK_ERROR input attempt None None
    | ThrownValue => mkApiError "Unknown error" NETWORK_ERROR input attempt None None
    end in
  if negb (isRetryableError error None) then ThrowOut lastError
  else Continue lastError.

(** The [try] block of the loop followed by its [catch]. *)
Definition attemptOnce (input : string) (attempt : Z) (o : FetchOutcome) : Turn :=
  match o with
  | Failed e => catchBlock input attempt e
  | Resolved response =>
    if negb (ok response) then
      if resp_status response =? 429 then
        let retryAfterSec :=
          match retryAfterHeader response with
          | Some header =>
            if Dispatch.nonEmpty header then parseInt header else None
          | None => None
          end in
        let error :=
          mkApiError
            (match retryAfterSec with
             | Some n =>
               if n =? 0 then "Rate limit: cooling down. Please try again shortly."
               else ("Rate limit: cooling down for ~" ++ pretty n ++ "s")%string
             | None => "Rate limit: cooling down. Please try again shortly."
             end)
            RATE_LIMITED input attempt (Some (resp_status response)) retryAfterSec in
        catchBlock input attempt (ThrownApi error)
      else
        let error :=
          mkApiError
            ("HTTP " ++ pretty (resp_status response) ++ ": " ++ statusText response)%string
            HTTP_ERROR input attempt (Some (resp_status response)) None in
        if negb (isRetryableError (ThrownApi error) (Some (resp_status response)))
        then catchBlock input attempt (ThrownApi error)
        else Continue error
    else
      match json response with
      | Some data => Return data
      | None =>
        catchBlock input attempt
          (ThrownError "SyntaxError" "Unexpected end of JSON input")
      end
  end.

(** What the caller and the network observe. *)
Inductive Event :=
| Fetch (attempt : Z)
| Sleep (ms : Z).

Inductive Outcome :=
| Resolves (data : string)
| Rejects (e : ApiError).

(** The un-jittered delay after the given attempt. *)
Definition backoffDelay (config : RetryConfig) (attempt : Z) : Q :=
  (baseDelay config * 2 ^ (attempt - 1))%Q.

Definition exhausted (config : RetryConfig) (input : string)
    (lastError : option ApiError) : ApiError :=
  let cause :=
    match lastError with
    | Some e => if Dispatch.nonEmpty (message e) then message e else "Unknown error"
    | None => "Unknown error"
    end in
  mkApiError
    ("Max retries (" ++ pretty (maxAttempts config) ++ ") exhausted: " ++ cause)%string
    RETRY_EXHAUSTED input (maxAttempts config) None None.

(** The [for] loop of [fetchJsonWithRetry] from the given attempt on;
    [fetch] is the network's answer to each attempt and [random] the
    value [Math.random()] gives after it.  [turns] bounds the number of
    turns left. *)
Fixpoint retryLoop (config : RetryConfig) (input : string)
    (fetch : Z -> FetchOutcome) (random : Z -> Q)
    (turns : nat) (attempt : Z) (lastError : option ApiError)
    (trace : list Event) : Outcome * list Event :=
  match turns with
  | O => (Rejects (exhausted config input lastError), trace)
  | S turns' =>
    if attempt <=? maxAttempts config then
      let trace := trace ++ [Fetch attempt] in
      match attemptOnce input attempt (fetch attempt) with
      | Return data => (Resolves data, trace)
      | ThrowOut e => (Rejects e, trace)
      | Continue e =>
        let trace :=
          if attempt <? maxAttempts config then
            let delay := backoffDelay config attempt in
            let jitteredDelay := addJitter delay (jitterPercent config) (random attempt) in
            trace ++ [Sleep jitteredDelay]
          else trace in
        retryLoop config input fetch random turns' (attempt + 1) (Some e) trace
      end
    else (Rejects (exhausted config input lastError), trace)
  end.

(** [fetchJsonWithRetry(input, init, config)] *)
Definition fetchJsonWithRetry (config : RetryConfig) (input : string)
    (fetch : Z -> FetchOutcome) (random : Z -> Q) : Outcome * list Event :=
  retryLoop config input fetch random (S (Z.to_nat (maxAttempts config))) 1 None [].

(** The trace of a run whose attempts [first .. first + n - 1] are made
    and all but the last are followed by a wait. *)
Fixpoint schedule (config : RetryConfig) (random : Z -> Q) (n : nat) (first : Z)
  : list Event :=
  match n with
  | O => []
  | S O => [Fetch first]
  | S n' =>
    Fetch first
      :: Sleep (addJitter (backoffDelay config first) (jitterPercent config) (random first))
      :: schedule config random n' (first + 1)
  end.


(** *** Reading a run *)

(** The error a 429 response is turned into. *)
Definition rateLimited (input : string) (attempt : Z) (r : Response) : ApiError :=
  let retryAfterSec :=
    match retryAfterHeader r with
    | Some header => if Dispatch.nonEmpty header then parseInt header else None
    | None => None
    end in
  mkApiError
    (match retryAfterSec with
     | Some n =>
       if n =? 0 then "Rate limit: cooling down. Please try again shortly."
       else ("Rate limit: cooling down for ~" ++ pretty n ++ "s")%string
     | None => "Rate limit: cooling down. Please try again shortly."
     end)
    RATE_LIMITED input attempt (Some (resp_status r)) retryAfterSec.

(** The error any other response that is not ok is turned into. *)
Definition httpError (input : string) (attempt : Z) (r : Response) : ApiError :=
  mkApiError ("HTTP " ++ pretty (resp_status r) ++ ": " ++ statusText r)%string
    HTTP_ERROR input attempt (Some (resp_status r)) None.

Definition serverError (s : Z) : bool := (500 <=? s) && (s <? 600).

(** The wait after attempt [k], if any. *)
Definition sleepAfter (config : RetryConfig) (random : Z -> Q) (k : Z) : list Event :=
  if k <? maxAttempts config
  then [Sleep (addJitter (backoffDelay config k) (jitterPercent config) (random k))]
  else [].

(** *** Sample data *)

Definition always (o : FetchOutcome) : Z -> FetchOutcome := fun _ => o.

Definition unavailable : Response :=
  {| resp_status := 503; statusText := "Service Unavailable";
     retryAfterHeader := None; json := None |}.

Definition tooManyRequests : Response :=
  {| resp_status := 429; statusText := "Too Many Requests";
     retryAfterHeader := Some "7"; json := None |}.

Definition notFound : Response :=
  {| resp_status := 404; statusText := "Not Found";
     retryAfterHeader := None; json := None |}.

End Transport.

(** ** The rest of the alert store (lib/localStore.ts) *)

Module AlertStore.

Import Alerts.

(** [createAlert(alert)]: the record is completed with the generated id
    ([newId] is what [generateId()] returns) and [status: 'active'], and
    pushed at the end of the persisted list.  The result is the new alert
    and the list written back.  The creation time, which nothing reads
    back, is not part of the embedded record. *)
Definition createAlert (store : list LocalAlert) (newId : string) (alert : LocalAlert)
  : LocalAlert * list LocalAlert :=
  let newAlert :=
    {| alert_id := newId;
       symbol := symbol alert;
       target_price := target_price alert;
       direction := direction alert;
       alert_type := alert_type alert;
       trailing_percent := trailing_percent alert;
       trailing_high := trailing_high alert;
       status := active;
       triggered_at := triggered_at alert;
       trade_enabled := trade_enabled alert;
       trade_side := trade_side alert;
       trade_quantity := trade_quantity alert;
       trade_account_type := trade_account_type alert |} in
  (newAlert, store ++ [newAlert]).

(** [deleteAlert(id)] *)
Definition deleteAlert (store : list LocalAlert) (i : string) : list LocalAlert :=
  List.filter (fun a => negb (String.eqb (alert_id a) i)) store.

(** [deleteAlerts(ids)] *)
Definition deleteAlerts (store : list LocalAlert) (ids : list string) : list LocalAlert :=
  let idSet : gset string := list_to_set ids in
  List.filter (fun a => negb (bool_decide (alert_id a ∈ idSet))) store.

(** The engine after the user interface has rewritten the persisted
    alerts. *)
Definition withStore (alerts : list LocalAlert) (st : Engine) : Engine :=
  {| store := alerts; triggeredIds := triggeredIds st; log := log st |}.

(** The alerts that a session has seen persisted: those present at the
    mount and those of every later write. *)
Fixpoint written (evs : list SessionEvent) : list LocalAlert :=
  match evs with
  | [] => []
  | PriceUpdate _ _ :: evs' => written evs'
  | StoreWrite alerts :: evs' => alerts ++ written evs'
  end.

(** [b] carries the id and the trade switch of an alert of [seen]. *)
Definition Src (seen : list LocalAlert) (b : LocalAlert) : Prop :=
  exists a, a ∈ seen /\ alert_id a = alert_id b /\ trade_enabled a = trade_enabled b.

Definition OptIn (seen : list LocalAlert) (st : Engine) : Prop :=
  (forall b, b ∈ store st -> Src seen b)
  /\ (forall i, ETradeDispatch i ∈ log st ->
        exists a, a ∈ seen /\ alert_id a = i /\ trade_enabled a = Some true).

(** Every id of the trigger guard is persisted once, with the status
    triggered and the trigger time one of [times], and the log holds for
    it the effects of its one trigger. *)
Definition Recorded (times : list Z) (st : Engine) : Prop :=
  forall i, i ∈ triggeredIds st ->
    exists b tm, tm ∈ times /\ stored i st = [b] /\ status b = triggered
      /\ triggered_at b = Some tm /\ effectsOf i (log st) = triggerEffects b.

(** *** Sample data *)

(** An alert above 100 with a trade of one unit attached. *)
Definition sampleTrade : LocalAlert :=
  {| alert_id := "x1"; symbol := "BTCUSDT"; target_price := 100; direction := above;
     alert_type := price_cross; trailing_percent := None; trailing_high := None;
     status := active; triggered_at := None; trade_enabled := Some true;
     trade_side := Some BUY; trade_quantity := Some "1";
     trade_account_type := Some SPOT |}.

Definition cancelledAlert : LocalAlert :=
  {| alert_id := "c1"; symbol := "BTCUSDT"; target_price := 100; direction := above;
     alert_type := price_cross; trailing_percent := None; trailing_high := None;
     status := cancelled; triggered_at := None; trade_enabled := Some true;
     trade_side := Some BUY; trade_quantity := Some "1";
     trade_account_type := Some SPOT |}.

End AlertStore.

(** ** The alarm of the alert checker (hooks/useAlertChecker.ts) *)

Module Alarm.

(** [AudioPreferences] of lib/localStore.ts *)
Record AudioPreferences := mkPrefs {
  sound_enabled : bool;
  sound_type : string;
  volume : float;
  persistent : bool
}.

Record ActiveAlarm := mkAlarm { alarm_alertId : string; alarm_description : string }.

(** The sound side of the hook and what it holds of the host: the refs
    [loopInterval] and [audioCtxRef], the state [activeAlarm]; the
    handles of the intervals that are set and not cleared, the audio
    contexts that are created and not closed, the next handle of each
    kind (handles are never 0), and the number of patterns played.  The
    hook drops a context from [audioCtxRef] when it closes it, so a
    context that the ref holds is never in the state closed. *)
Record Sound := mkSound {
  loopInterval : option nat;
  audioCtxRef : option nat;
  activeAlarm : option ActiveAlarm;
  liveIntervals : list nat;
  openContexts : list nat;
  nextInterval : nat;
  nextContext : nat;
  played : nat
}.

Definition initial : Sound :=
  {| loopInterval := None; audioCtxRef := None; activeAlarm := None;
     liveIntervals := []; openContexts := [];
     nextInterval := 1; nextContext := 1; played := 0 |}.

Definition remove (h : nat) (l : list nat) : list nat :=
  List.filter (fun x => negb (Nat.eqb x h)) l.

(** [silence()] *)
Definition silence (s : Sound) : Sound :=
  let s1 :=
    match loopInterval s with
    | Some h =>
      {| loopInterval := None; audioCtxRef := audioCtxRef s; activeAlarm := activeAlarm s;
         liveIntervals := remove h (liveIntervals s); openContexts := openContexts s;
         nextInterval := nextInterval s; nextContext := nextContext s; played := played s |}
    | None => s
    end in
  let s2 :=
    match audioCtxRef s1 with
    | Some c =>
      {| loopInterval := loopInterval s1; audioCtxRef := None; activeAlarm := activeAlarm s1;
         liveIntervals := liveIntervals s1; openContexts := remove c (openContexts s1);
         nextInterval := nextInterval s1; nextContext := nextContext s1; played := played s1 |}
    | None => s1
    end in
  {| loopInterval := loopInterval s2; audioCtxRef := audioCtxRef s2; activeAlarm := None;
     liveIntervals := liveIntervals s2; openContexts := openContexts s2;
     nextInterval := nextInterval s2; nextContext := nextContext s2; played := played s2 |}.

(** [playAlarmPattern()]; [prefs] is what [getAudioPreferences()] returns
    and [audioAvailable] tells whether the window has an [AudioContext]
    class.  The three beeps of a pattern are counted as one pattern
    played. *)
Definition playAlarmPattern (prefs : AudioPreferences) (audioAvailable : bool)
    (s : Sound) : Sound :=
  if negb (sound_enabled prefs) then s
  else if negb audioAvailable then s
  else
    let s1 :=
      match audioCtxRef s with
      | Some _ => s
      | None =>
        {| loopInterval := loopInterval s; audioCtxRef := Some (nextContext s);
           activeAlarm := activeAlarm s; liveIntervals := liveIntervals s;
           openContexts := nextContext s :: openContexts s;
           nextInterval := nextInterval s; nextContext := S (nextContext s);
           played := played s |}
      end in
    {| loopInterval := loopInterval s1; audioCtxRef := audioCtxRef s1;
       activeAlarm := activeAlarm s1; liveIntervals := liveIntervals s1;
       openContexts := openContexts s1; nextInterval := nextInterval s1;
       nextContext := nextContext s1; played := S (played s1) |}.

(** [startPersistentAlarm(description, alertId)] *)
Definition startPersistentAlarm (prefs : AudioPreferences) (audioAvailable : bool)
    (description alertId : string) (s : Sound) : Sound :=
  let s1 :=
    match loopInterval s with
    | Some h =>
      {| loopInterval := loopInterval s; audioCtxRef := audioCtxRef s;
         activeAlarm := activeAlarm s;
         liveIntervals := remove h (liveIntervals s); openContexts := openContexts s;
         nextInterval := nextInterval s; nextContext := nextContext s; played := played s |}
    | None => s
    end in
  let s2 :=
    {| loopInterval := loopInterval s1; audioCtxRef := audioCtxRef s1;
       activeAlarm := Some {| alarm_alertId := alertId; alarm_description := description |};
       liveIntervals := liveIntervals s1; openContexts := openContexts s1;
       nextInterval := nextInterval s1; nextContext := nextContext s1; played := played s1 |} in
  let s3 := playAlarmPattern prefs audioAvailable s2 in
  {| loopInterval := Some (nextInterval s3); audioCtxRef := audioCtxRef s3;
     activeAlarm := activeAlarm s3;
     liveIntervals := nextInterval s3 :: liveIntervals s3; openContexts := openContexts s3;
     nextInterval := S (nextInterval s3); nextContext := nextContext s3;
     played := played s3 |}.

(** The sound of [triggerAlert]: persistent or one-shot. *)
Definition soundOnTrigger (prefs : AudioPreferences) (audioAvailable : bool)
    (description alertId : string) (s : Sound) : Sound :=
  if persistent prefs then startPersistentAlarm prefs audioAvailable description alertId s
  else playAlarmPattern prefs audioAvailable s.

(** What happens to the sound during a session: an alert triggers, the
    user silences the alarm, or the host runs the callback of the
    interval with handle [h] (if that interval is still set). *)
Inductive SoundEvent :=
| Trigger (prefs : AudioPreferences) (audioAvailable : bool) (description alertId : string)
| Silence
| IntervalFires (prefs : AudioPreferences) (audioAvailable : bool) (h : nat).

Definition soundStep (s : Sound) (ev : SoundEvent) : Sound :=
  match ev with
  | Trigger prefs audioAvailable description alertId =>
    soundOnTrigger prefs audioAvailable description alertId s
  | Silence => silence s
  | IntervalFires prefs audioAvailable h =>
    if bool_decide (h ∈ liveIntervals s) then playAlarmPattern prefs audioAvailable s else s
  end.

Definition runSound (evs : list SoundEvent) (s : Sound) : Sound :=
  fold_left soundStep evs s.

(** *** Reading the sound state *)

(** The hook can reach everything it has started: the only interval
    that is set is the one in [loopInterval], the only context that is
    open is the one in [audioCtxRef], and the alarm is shown exactly when
    an interval is set. *)
Definition Tidy (s : Sound) : Prop :=
  liveIntervals s = match loopInterval s with Some h => [h] | None => [] end
  /\ openContexts s = match audioCtxRef s with Some c => [c] | None => [] end
  /\ (activeAlarm s = None <-> loopInterval s = None).

Definition loudPersistent : AudioPreferences :=
  {| sound_enabled := true; sound_type := "alert"; volume := 1; persistent := true |}.

End Alarm.

(** ** The trailing-alert manager (components/alerts/TrailingAlertManager.tsx)

    The component of one symbol keeps its own list of trailing alerts,
    loaded from the store when it is mounted, and evaluates it on every
    change of the current price, beside the alert checker. *)

Module TrailingManager.

Import Alerts.

(** [TrailingAlert]; the creation time is not kept. *)
Record TrailingAlert := mkTrailing {
  ta_id : string;
  ta_symbol : string;
  ta_target_price : float;
  trail_percentage : float;
  trail_direction : TrailDirection;
  trail_trigger_price : float;
  trail_high_watermark : option float;
  trail_low_watermark : option float;
  auto_trigger : bool;
  ta_triggered : bool
}.

(** [mapToTrailingAlert(a)] *)
Definition mapToTrailingAlert (a : LocalAlert) : TrailingAlert :=
  {| ta_id := alert_id a;
     ta_symbol := symbol a;
     ta_target_price := target_price a;
     trail_percentage := Js.orElse (trailing_percent a) 0;
     trail_direction := match direction a with above => up | below => down end;
     trail_trigger_price := target_price a;
     trail_high_watermark := trailing_high a;
     trail_low_watermark := None;
     auto_trigger := true;
     ta_triggered := match status a with triggered => true | _ => false end |}.

(** The filter of [loadTrailingAlerts]. *)
Definition isTrailingOf (sym : string) (a : LocalAlert) : bool :=
  isActive a && String.eqb (symbol a) sym
  && match alert_type a with trailing_stop => true | _ => false end.

(** [loadTrailingAlerts()]: the list that [setAlerts] receives. *)
Definition loadTrailingAlerts (sym : string) (store : list LocalAlert)
  : list TrailingAlert :=
  map mapToTrailingAlert (List.filter (isTrailingOf sym) store).

(** What the manager does besides writing the store and its list:
    [MSound] is the call of [playAudioAlert], [MToast] the notification
    and [MTradeDispatch] the call of [executeAlertTrade]. *)
Inductive ManagerEffect :=
| MSound
| MToast (i : string)
| MTradeDispatch (i : string).

(** The persisted alerts, the list of the component (with the updates
    that [setAlerts] has queued applied to it, in order) and the effects
    emitted so far. *)
Record Manager := mkManager {
  persisted : list LocalAlert;
  alerts : list TrailingAlert;
  emitted : list ManagerEffect
}.

(** [triggerTrailingAlert(alert)] up to its first [await]. *)
Definition triggerTrailingAlert (now : Z) (alert : TrailingAlert) (m : Manager)
  : Manager :=
  let persisted' := updateAlert (persisted m) (ta_id alert) (triggerPatch now) in
  let trade :=
    match List.find (fun a => String.eqb (alert_id a) (ta_id alert)) persisted' with
    | Some localAlert => default false (trade_enabled localAlert)
    | None => false
    end in
  {| persisted := persisted';
     alerts := List.filter (fun a => negb (String.eqb (ta_id a) (ta_id alert))) (alerts m);
     emitted :=
       emitted m ++ [MSound; MToast (ta_id alert)]
         ++ (if trade then [MTradeDispatch (ta_id alert)] else []) |}.

(** The [if (needsUpdate)] block of the loop. *)
Definition writeTrail (alert : TrailingAlert)
    (newTriggerPrice newHighWatermark newLowWatermark : float) (m : Manager) : Manager :=
  {| persisted :=
       updateAlert (persisted m) (ta_id alert)
         (ratchetPatch newHighWatermark newTriggerPrice);
     alerts :=
       map (fun a =>
              if String.eqb (ta_id a) (ta_id alert) then
                {| ta_id := ta_id a; ta_symbol := ta_symbol a;
                   ta_target_price := ta_target_price a;
                   trail_percentage := trail_percentage a;
                   trail_direction := trail_direction a;
                   trail_trigger_price := newTriggerPrice;
                   trail_high_watermark := Some newHighWatermark;
                   trail_low_watermark := Some newLowWatermark;
                   auto_trigger := auto_trigger a;
                   ta_triggered := ta_triggered a |}
              else a)
           (alerts m);
     emitted := emitted m |}.

(** The body of the [for (const alert of alerts)] loop of
    [updateTrailingAlerts]. *)
Definition manageAlert (now : Z) (currentPrice : float) (m : Manager)
    (alert : TrailingAlert) : Manager :=
  if ta_triggered alert then m
  else
    let highWatermark := Js.orElse (trail_high_watermark alert) currentPrice in
    let lowWatermark := Js.orElse (trail_low_watermark alert) currentPrice in
    match trail_direction alert with
    | up =>
      let needsUpdate := Js.gt currentPrice highWatermark in
      if Js.le currentPrice (trail_trigger_price alert) then
        triggerTrailingAlert now alert m
      else if needsUpdate then
        writeTrail alert (currentPrice * (1 - trail_percentage alert / 100))%float
          currentPrice lowWatermark m
      else m
    | down =>
      let needsUpdate := Js.lt currentPrice lowWatermark in
      if Js.ge currentPrice (trail_trigger_price alert) then
        triggerTrailingAlert now alert m
      else if needsUpdate then
        writeTrail alert (currentPrice * (1 + trail_percentage alert / 100))%float
          highWatermark currentPrice m
      else m
    end.

(** [updateTrailingAlerts()], which the effect runs on every change of
    the current price or of the list; the loop goes over the list as it
    was when the effect started. *)
Definition updateTrailingAlerts (now : Z) (currentPrice : option float) (m : Manager)
  : Manager :=
  match currentPrice with
  | Some p => if Js.truthy p then fold_left (manageAlert now p) (alerts m) m else m
  | None => m
  end.

(** The component as mounted for [sym] over the persisted alerts. *)
Definition mountManager (sym : string) (store : list LocalAlert) : Manager :=
  {| persisted := store; alerts := loadTrailingAlerts sym store; emitted := [] |}.

(** A run of price changes, with nothing else writing the store. *)
Definition runManager (ticks : list (Z * option float)) (m : Manager) : Manager :=
  fold_left (fun s t => updateTrailingAlerts (fst t) (snd t) s) ticks m.

(** *** Reading the manager *)

(** The first persisted alert with id [i] has its trade switched on. *)
Definition Armed (i : string) (store : list LocalAlert) : Prop :=
  exists b, List.find (fun a => String.eqb (alert_id a) i) store = Some b
            /\ trade_enabled b = Some true.

(** Every persisted alert with id [i] has the status triggered. *)
Definition Settled (i : string) (store : list LocalAlert) : Prop :=
  forall b, b ∈ store -> alert_id b = i -> status b = triggered.

(** The persisted alerts with the id of [a] have the trigger price and
    the watermark of [a], and the entries of the component's list with
    that id trail downwards with no low watermark. *)
Definition Still (a : LocalAlert) (m : Manager) : Prop :=
  (forall b, b ∈ persisted m -> alert_id b = alert_id a ->
     target_price b = target_price a /\ trailing_high b = trailing_high a)
  /\ (forall t, t ∈ alerts m -> ta_id t = alert_id a ->
        trail_direction t = down /\ trail_low_watermark t = None).

(** *** Sample data *)

(** A trailing stop five percent under the high of 100, with a trade
    attached. *)
Definition sampleStop : LocalAlert :=
  {| alert_id := "t9"; symbol := "BTCUSDT"; target_price := 95; direction := above;
     alert_type := trailing_stop; trailing_percent := Some 5%float;
     trailing_high := Some 100%float; status := active; triggered_at := None;
     trade_enabled := Some true; trade_side := Some SELL; trade_quantity := Some "1";
     trade_account_type := Some SPOT |}.

End TrailingManager.

(** ** The rest of the DCA store (lib/trading/dcaStore.ts) *)

Module DcaCrud.

Import DcaStore.
Local Open Scope Z_scope.

(** [createDCAStrategy(data)] at the instant [now]; [newId] is what
    [generateId()] returns.  The next execution is computed while the
    record is built, before the store is read: [None] is the exception of
    [computeNextExecution], and then nothing is written. *)
Definition createDCAStrategy (tz : Z) (toNumber : string -> option Z)
    (strategies : list DCAStrategy) (newId : string) (data : DCAStrategy) (now : Z)
  : option (DCAStrategy * list DCAStrategy) :=
  match computeNextExecution tz toNumber (frequency data) (scheduledTime data)
          (dayOfWeek data) now with
  | None => None
  | Some next =>
    let strategy :=
      {| strategy_id := newId;
         symbol := symbol data;
         side := side data;
         quoteAmount := quoteAmount data;
         totalBudget := totalBudget data;
         totalSpent := 0;
         executionCount := 0;
         accountType := accountType data;
         frequency := frequency data;
         scheduledTime := scheduledTime data;
         dayOfWeek := dayOfWeek data;
         enabled := enabled data;
         nextExecuteAt := next;
         lastExecutedAt := lastExecutedAt data |} in
    Some (strategy, strategies ++ [strategy])
  end.

(** [deleteDCAStrategy(id)] *)
Definition deleteDCAStrategy (strategies : list DCAStrategy) (i : string)
  : list DCAStrategy :=
  List.filter (fun s => negb (String.eqb (strategy_id s) i)) strategies.

(** *** Reading the schedule *)

Fixpoint hasColon (s : string) : bool :=
  match s with
  | EmptyString => false
  | String c rest => Ascii.eqb c ":"%char || hasColon rest
  end.


End DcaCrud.

(** ** Sessions of the DCA scheduler *)

Module DcaSession.

Import DcaStore Dca.
Local Open Scope Z_scope.

Section Host.

Variable tz : Z.
Variable toNumber : string -> option Z.

(** A run of timer ticks, with nothing else writing the store. *)
Definition runTicks (ticks : list (Z * (DCAStrategy -> Dispatch.World * Z)))
    (st : Scheduler) : Scheduler :=
  fold_left (fun s t => check tz toNumber (fst t) (snd t) s) ticks st.

End Host.

(** The persisted strategies whose id is [i]. *)
Definition storedStrategy (i : string) (st : Scheduler) : list DCAStrategy :=
  List.filter (fun s => String.eqb (strategy_id s) i) (strategies st).

(** The trades of strategy [i] in the log, in order. *)
Definition tradesOf (i : string) (l : list Effect) : list Effect :=
  List.filter (fun e => match e with ETrade j _ => String.eqb j i | _ => false end) l.

(** The scheduler passes over [s]: it is paused, or its key has been
    executed in this session. *)
Definition Idle (st : Scheduler) (s : DCAStrategy) : Prop :=
  enabled s = false \/ (strategy_id s, nextExecuteAt s) ∈ executedKeys st.

(** What the scheduler keeps of strategy [i]. *)
Definition viewOf (i : string) (st : Scheduler) : list DCAStrategy * list Effect :=
  (storedStrategy i st, tradesOf i (log st)).

(** The state in which an [async] call ends, fulfilled or rejected. *)
Definition stateOf (r : Settled) : Scheduler :=
  match r with
  | Fulfilled st => st
  | Rejected st => st
  end.

(** *** Sample data *)


(** A daily strategy whose time of day is not a time: due, and its next
    execution cannot be computed. *)
Definition sampleBroken : DCAStrategy :=
  {| strategy_id := "s4"; symbol := "ETHUSDT"; side := BUY;
     quoteAmount := 10; totalBudget := 1000; totalSpent := 0;
     executionCount := 0; accountType := SPOT; frequency := daily;
     scheduledTime := "start"; dayOfWeek := None; enabled := true;
     nextExecuteAt := 0; lastExecutedAt := None |}.

(** A paused strategy that is long overdue. *)
Definition samplePaused : DCAStrategy :=
  {| strategy_id := "s3"; symbol := "ETHUSDT"; side := BUY;
     quoteAmount := 10; totalBudget := 1000; totalSpent := 0;
     executionCount := 0; accountType := SPOT; frequency := hourly;
     scheduledTime := "end"; dayOfWeek := None; enabled := false;
     nextExecuteAt := 0; lastExecutedAt := None |}.

End DcaSession.

(** ** The rest of the order store and of the key store
       (lib/trading/orderStore.ts, keyStore.ts) *)

Module OrderStore.

Import Dispatch.
Local Open Scope Z_scope.

Definition withStatus (o : StoredOrder) (s : OrderStatus) : StoredOrder :=
  {| so_id := so_id o; so_orderId := so_orderId o; so_symbol := so_symbol o;
     so_side := so_side o; so_price := so_price o; so_quantity := so_quantity o;
     so_status := s; so_accountType := so_accountType o; so_alertId := so_alertId o;
     so_createdAt := so_createdAt o |}.

(** [history.find(o => o.orderId === orderId)] followed by the assignment
    to the order found: the history with the status of its first order
    of that number replaced, [None] when there is none. *)
Fixpoint markFirst (orderId : Z) (s : OrderStatus) (history : list StoredOrder)
  : option (list StoredOrder) :=
  match history with
  | [] => None
  | o :: rest =>
    if so_orderId o =? orderId then Some (withStatus o s :: rest)
    else cons o <$> markFirst orderId s rest
  end.

(** [updateOrderStatus(orderId, status)]; local storage is written only
    when an order was found. *)
Definition updateOrderStatus (w : World) (orderId : Z) (s : OrderStatus) : M unit :=
  fun history =>
    match markFirst orderId s history with
    | Some history' =>
      if storageWritable w then (Returns tt, history')
      else (Throws {| err_name := "QuotaExceededError";
                      err_message := "The quota has been exceeded." |}, history)
    | None => (Returns tt, history)
    end.

(** [saveKeys(keys)]: what local storage holds afterwards. *)
Definition saveKeys (keys : StoredKeys) : KeysItem :=
  KeysObject (Some (apiKey keys)) (Some (apiSecret keys)).

(** [clearKeys()] *)
Definition clearKeys : KeysItem := KeysAbsent.

Definition withKeys (item : KeysItem) (w : World) : World :=
  {| keysItem := item; createTradingClient := createTradingClient w;
     storageWritable := storageWritable w; newOrderId := newOrderId w;
     clock := clock w |}.

(** *** Sample data *)

Definition sampleOrder (n : Z) (i : string) : StoredOrder :=
  {| so_id := i; so_orderId := n; so_symbol := "BTCUSDT"; so_side := BUY;
     so_price := "100"; so_quantity := "1"; so_status := NEW; so_accountType := SPOT;
     so_alertId := None; so_createdAt := 0 |}.


End OrderStore.

(** ** The clock of the trading client (lib/trading/binanceTrading.ts) *)

Module ClockSync.

Local Open Scope Z_scope.

(** The offset that [syncTime()] stores: [before] and [after] are the
    local clock around the request and [serverTime] is the answer. *)
Definition timeOffset (before after serverTime : Z) : Z :=
  let roundTrip := after - before in
  serverTime - before - roundTrip / 2.

(** [getServerTime()] at the local instant [now]. *)
Definition getServerTime (now offset : Z) : Z := now + offset.

(** The [recvWindow] of every signed request. *)
Definition recvWindow : Z := 10000.

End ClockSync.

(** ** Reading a run of the transport *)

Module Run.

Local Open Scope Z_scope.

Definition isFetch (e : Transport.Event) : bool :=
  match e with
  | Transport.Fetch _ => true
  | Transport.Sleep _ => false
  end.

(** A network whose every request times out. *)
Definition timesOut : Z -> Transport.FetchOutcome :=
  Transport.always
    (Transport.Failed (Transport.ThrownError "AbortError" "The operation was aborted.")).

End Run.

(** ** The error store of the application (state/appStore.ts)

    The store that the data hooks report to when a request of the
    transport fails, and that the error banner reads. *)

Module AppStore.

Local Open Scope Z_scope.

Inductive AppStatus := status_ok | status_error.

(** [string | number] *)
Inductive Code := CodeText (s : string) | CodeNumber (n : Z).

Record ErrorInfo := mkErrorInfo {
  ei_message : string;
  ei_code : option Code;
  ei_retryAfterSec : option Z
}.

Record AppState := mkAppState {
  app_status : AppStatus;
  app_message : option string;
  app_code : option Code;
  app_retryAfterSec : option Z;
  retryToken : Z;
  inFlight : bool;
  errorCount : option Z
}.

(** The module's state and the number of times the subscribers were
    notified. *)
Record Store := mkStore { state : AppState; notified : nat }.

Section Build.

(** [import.meta.env.DEV] *)
Variable dev : bool.

Definition initial : Store :=
  {| state :=
       {| app_status := status_ok; app_message := None; app_code := None;
          app_retryAfterSec := None; retryToken := 0; inFlight := false;
          errorCount := if dev then Some 0 else None |};
     notified := 0 |}.

(** [setError(errorInfo)] *)
Definition setError (errorInfo : ErrorInfo) (s : Store) : Store :=
  {| state :=
       {| app_status := status_error;
          app_message := Some (ei_message errorInfo);
          app_code := ei_code errorInfo;
          app_retryAfterSec := ei_retryAfterSec errorInfo;
          retryToken := retryToken (state s);
          inFlight := false;
          errorCount :=
            if dev then Some (default 0 (errorCount (state s)) + 1) else None |};
     notified := S (notified s) |}.

(** [clearError()] *)
Definition clearError (s : Store) : Store :=
  {| state :=
       {| app_status := status_ok; app_message := None; app_code := None;
          app_retryAfterSec := None;
          retryToken := retryToken (state s);
          inFlight := false;
          errorCount := if dev then errorCount (state s) else None |};
     notified := S (notified s) |}.

(** [requestRetry()] *)
Definition requestRetry (s : Store) : Store :=
  if inFlight (state s) then s
  else
    {| state :=
         {| app_status := app_status (state s);
            app_message := app_message (state s);
            app_code := app_code (state s);
            app_retryAfterSec := app_retryAfterSec (state s);
            retryToken := retryToken (state s) + 1;
            inFlight := true;
            errorCount := errorCount (state s) |};
       notified := S (notified s) |}.

(** [setInFlight(inFlight)] *)
Definition setInFlight (b : bool) (s : Store) : Store :=
  {| state :=
       {| app_status := app_status (state s);
          app_message := app_message (state s);
          app_code := app_code (state s);
          app_retryAfterSec := app_retryAfterSec (state s);
          retryToken := retryToken (state s);
          inFlight := b;
          errorCount := errorCount (state s) |};
     notified := S (notified s) |}.

Inductive Action :=
| SetError (errorInfo : ErrorInfo)
| ClearError
| RequestRetry
| SetInFlight (b : bool).

Definition act (s : Store) (a : Action) : Store :=
  match a with
  | SetError errorInfo => setError errorInfo s
  | ClearError => clearError s
  | RequestRetry => requestRetry s
  | SetInFlight b => setInFlight b s
  end.

Definition run (actions : list Action) (s : Store) : Store := fold_left act actions s.

End Build.

(** *** Reading a run of actions *)

Definition isRequestRetry (a : Action) : bool :=
  match a with RequestRetry => true | _ => false end.

End AppStore.

(** * Properties *)

(** ** The alert evaluation engine *)

Module AlertsFacts.
Import Alerts.

Lemma triggerAlert_fresh now a p st :
  alert_id a ∉ triggeredIds st -> triggerAlert now a p st = perform now a Fire st.
Proof.
  intros H. unfold triggerAlert. destruct (decide _) as [Hin|_]; [done|reflexivity].
Qed.

Lemma triggerAlert_guarded now a p st :
  alert_id a ∈ triggeredIds st -> triggerAlert now a p st = st.
Proof.
  intros H. unfold triggerAlert. destruct (decide _); [reflexivity|done].
Qed.

Lemma checkAlert_guarded now pd st a :
  alert_id a ∈ triggeredIds st -> checkAlert now pd st a = st.
Proof.
  intros H. unfold checkAlert. destruct (pd !! symbol a); [|reflexivity].
  destruct (decide _); [reflexivity|done].
Qed.

Lemma checkAlert_perform now pd st a :
  alert_id a ∉ triggeredIds st ->
  checkAlert now pd st a = perform now a (decideAction pd a) st.
Proof.
  intros H. unfold checkAlert, decideAction.
  destruct (pd !! symbol a) as [data|]; [|reflexivity].
  destruct (decide _) as [|_]; [done|].
  destruct (alert_type a); cbn zeta;
    repeat match goal with
    | |- context [match trailing_percent a with _ => _ end] => destruct (trailing_percent a)
    | |- context [if Js.truthy ?x then _ else _] => destruct (Js.truthy x)
    | |- context [match direction a with _ => _ end] => destruct (direction a)
    | |- context [if Js.gt ?x ?y then _ else _] => destruct (Js.gt x y)
    | |- context [if Js.lt ?x ?y then _ else _] => destruct (Js.lt x y)
    | |- context [if Js.ge ?x ?y then _ else _] => destruct (Js.ge x y)
    | |- context [if Js.le ?x ?y then _ else _] => destruct (Js.le x y)
    end;
    try reflexivity; try (apply triggerAlert_fresh; assumption).
Qed.

Lemma applyPatch_id a u : alert_id (applyPatch a u) = alert_id a.
Proof. reflexivity. Qed.

Lemma updateAlert_ids s i u : map alert_id (updateAlert s i u) = map alert_id s.
Proof.
  unfold updateAlert. rewrite map_map. apply map_ext. intros a.
  destruct (String.eqb _ _); reflexivity.
Qed.

Lemma filter_updateAlert_ne s i j u :
  i <> j ->
  List.filter (fun a => String.eqb (alert_id a) i) (updateAlert s j u)
  = List.filter (fun a => String.eqb (alert_id a) i) s.
Proof.
  intros Hne. induction s as [|a s IH]; [reflexivity|]. cbn.
  destruct (String.eqb_spec (alert_id a) j) as [Hj|Hj].
  - rewrite applyPatch_id.
    destruct (String.eqb_spec (alert_id a) i) as [Hi|Hi]; [congruence|]. exact IH.
  - destruct (String.eqb (alert_id a) i); [f_equal|]; exact IH.
Qed.

Lemma filter_updateAlert_eq s i u :
  List.filter (fun a => String.eqb (alert_id a) i) (updateAlert s i u)
  = map (fun a => applyPatch a u) (List.filter (fun a => String.eqb (alert_id a) i) s).
Proof.
  induction s as [|a s IH]; [reflexivity|]. cbn.
  destruct (String.eqb_spec (alert_id a) i) as [Hi|Hi].
  - rewrite applyPatch_id. destruct (String.eqb_spec (alert_id a) i); [|done].
    cbn. f_equal. exact IH.
  - destruct (String.eqb_spec (alert_id a) i); [done|]. exact IH.
Qed.

Lemma effectsOf_app i l1 l2 : effectsOf i (l1 ++ l2) = effectsOf i l1 ++ effectsOf i l2.
Proof. unfold effectsOf. apply List.filter_app. Qed.

Lemma effectsOf_trigger_eq a : effectsOf (alert_id a) (triggerEffects a) = triggerEffects a.
Proof.
  unfold triggerEffects, effectsOf. destruct (default false (trade_enabled a)); cbn;
    rewrite !String.eqb_refl; reflexivity.
Qed.

Lemma effectsOf_trigger_ne i a : alert_id a <> i -> effectsOf i (triggerEffects a) = [].
Proof.
  intros H. unfold triggerEffects, effectsOf.
  destruct (default false (trade_enabled a)); cbn;
    destruct (String.eqb_spec (alert_id a) i); done.
Qed.

Lemma view_perform_ne now a act st i :
  alert_id a <> i -> view i (perform now a act st) = view i st.
Proof.
  intros Hne. unfold view, stored. destruct act as [| |h t];
    cbn [perform store triggeredIds log]; [reflexivity| |].
  - rewrite filter_updateAlert_ne by congruence.
    rewrite effectsOf_app, effectsOf_trigger_ne, app_nil_r by assumption.
    f_equal. f_equal. apply bool_decide_ext.
    rewrite elem_of_union, elem_of_singleton. split; [intros [Hi|Hi]|auto]; congruence.
  - rewrite filter_updateAlert_ne by congruence. reflexivity.
Qed.

Lemma view_checkAlert_ne now pd st a i :
  alert_id a <> i -> view i (checkAlert now pd st a) = view i st.
Proof.
  intros Hne. destruct (decide (alert_id a ∈ triggeredIds st)).
  - rewrite checkAlert_guarded by assumption. reflexivity.
  - rewrite checkAlert_perform by assumption. apply view_perform_ne, Hne.
Qed.

Lemma view_checkAlert_eq now pd st a :
  view (alert_id a) (checkAlert now pd st a) = viewStep now pd a (view (alert_id a) st).
Proof.
  unfold viewStep, view at 2. destruct (decide (alert_id a ∈ triggeredIds st)) as [Hin|Hout].
  - rewrite checkAlert_guarded by assumption. rewrite bool_decide_true by assumption.
    reflexivity.
  - rewrite checkAlert_perform by assumption. rewrite bool_decide_false by assumption.
    destruct (decideAction pd a) as [| |h t]; unfold view, stored;
      cbn [perform store triggeredIds log].
    + rewrite bool_decide_false by assumption. reflexivity.
    + rewrite filter_updateAlert_eq, effectsOf_app, effectsOf_trigger_eq.
      rewrite bool_decide_true
        by (apply elem_of_union; left; apply elem_of_singleton; reflexivity).
      reflexivity.
    + rewrite filter_updateAlert_eq. rewrite bool_decide_false by assumption. reflexivity.
Qed.

Lemma view_fold_other now pd l : forall st i,
  (forall b, b ∈ l -> alert_id b <> i) ->
  view i (fold_left (checkAlert now pd) l st) = view i st.
Proof.
  induction l as [|b l IH]; intros st i H; [reflexivity|]. cbn.
  rewrite IH by (intros c Hc; apply H, elem_of_cons; right; exact Hc).
  apply view_checkAlert_ne, H, elem_of_cons. left. reflexivity.
Qed.

Lemma view_fold_unique now pd l : forall st a,
  NoDup (map alert_id l) -> a ∈ l ->
  view (alert_id a) (fold_left (checkAlert now pd) l st)
  = viewStep now pd a (view (alert_id a) st).
Proof.
  induction l as [|b l IH]; intros st a Hnd Hin; [apply elem_of_nil in Hin as []|].
  cbn in Hnd. apply NoDup_cons in Hnd as [Hb Hnd]. cbn.
  apply elem_of_cons in Hin as [->|Hin].
  - rewrite view_fold_other; [apply view_checkAlert_eq|].
    intros c Hc Heq. apply Hb. rewrite <- Heq.
    apply list_elem_of_In, in_map, list_elem_of_In, Hc.
  - rewrite IH by assumption.
    rewrite view_checkAlert_ne; [reflexivity|].
    intros Heq. apply Hb. rewrite Heq.
    apply list_elem_of_In, in_map, list_elem_of_In, Hin.
Qed.

Lemma stored_unique (l : list LocalAlert) a :
  NoDup (map alert_id l) -> a ∈ l ->
  List.filter (fun b => String.eqb (alert_id b) (alert_id a)) l = [a].
Proof.
  induction l as [|b l IH]; intros Hnd Hin; [apply elem_of_nil in Hin as []|].
  cbn in Hnd. apply NoDup_cons in Hnd as [Hb Hnd]. cbn.
  assert (Hnone : forall c, alert_id c ∉ map alert_id l ->
            List.filter (fun b => String.eqb (alert_id b) (alert_id c)) l = []).
  { intros c Hc. clear -Hc. induction l as [|d l IHl]; [reflexivity|]. cbn in *.
    apply not_elem_of_cons in Hc as [Hd Hc].
    destruct (String.eqb_spec (alert_id d) (alert_id c)); [congruence|]. auto. }
  apply elem_of_cons in Hin as [->|Hin].
  - rewrite String.eqb_refl. f_equal. apply Hnone, Hb.
  - destruct (String.eqb_spec (alert_id b) (alert_id a)) as [Heq|Hne]; [|auto].
    exfalso. apply Hb. rewrite Heq. apply list_elem_of_In, in_map, list_elem_of_In, Hin.
Qed.

Lemma checkAlert_ids now pd st a :
  map alert_id (store (checkAlert now pd st a)) = map alert_id (store st).
Proof.
  destruct (decide (alert_id a ∈ triggeredIds st)).
  - rewrite checkAlert_guarded by assumption. reflexivity.
  - rewrite checkAlert_perform by assumption.
    destruct (decideAction pd a); cbn [perform store]; auto using updateAlert_ids.
Qed.

Lemma fold_checkAlert_ids now pd l : forall st,
  map alert_id (store (fold_left (checkAlert now pd) l st)) = map alert_id (store st).
Proof.
  induction l as [|b l IH]; intros st; [reflexivity|]. cbn.
  rewrite IH. apply checkAlert_ids.
Qed.

Lemma evalPass_ids now pd st :
  map alert_id (store (evalPass now pd st)) = map alert_id (store st).
Proof.
  unfold evalPass. destruct (size pd =? 0)%nat; [reflexivity|].
  destruct (length _ =? 0)%nat; [reflexivity|]. apply fold_checkAlert_ids.
Qed.

Lemma NoDup_filter_ids (l : list LocalAlert) f :
  NoDup (map alert_id l) -> NoDup (map alert_id (List.filter f l)).
Proof.
  induction l as [|b l IH]; intros Hnd; [constructor|].
  cbn in Hnd. apply NoDup_cons in Hnd as [Hb Hnd]. cbn.
  destruct (f b); [|auto]. cbn. apply NoDup_cons. split; [|auto].
  intros Hin. apply Hb.
  apply list_elem_of_In, in_map_iff in Hin as (c & Hc & Hin).
  apply filter_In in Hin as [Hin _].
  rewrite <- Hc. apply list_elem_of_In, in_map, Hin.
Qed.

Lemma decideAction_no_price pd a : pd !! symbol a = None -> decideAction pd a = Skip.
Proof. intros H. unfold decideAction. rewrite H. reflexivity. Qed.

(** What a pass does to a persisted, active alert that has not triggered
    in the session, whose id no other persisted alert carries. *)
Lemma evalPass_view now pd st a :
  NoDup (map alert_id (store st)) -> a ∈ store st -> status a = active ->
  view (alert_id a) (evalPass now pd st)
  = viewStep now pd a (view (alert_id a) st).
Proof.
  intros Hnd Hin Hact. unfold evalPass.
  destruct (Nat.eqb_spec (size pd) 0) as [Hsz|Hsz].
  { apply map_size_empty_iff in Hsz. subst pd.
    unfold viewStep, view. rewrite decideAction_no_price by apply lookup_empty.
    destruct (bool_decide _); reflexivity. }
  assert (Hin' : a ∈ List.filter isActive (store st)).
  { apply list_elem_of_In, filter_In. split; [apply list_elem_of_In, Hin|].
    unfold isActive. rewrite Hact. reflexivity. }
  destruct (Nat.eqb_spec (length (List.filter isActive (store st))) 0) as [Hlen|_].
  { destruct (List.filter isActive (store st)); [apply elem_of_nil in Hin' as []|discriminate]. }
  apply view_fold_unique; [apply NoDup_filter_ids, Hnd|exact Hin'].
Qed.

(** What a pass does to an id that no active persisted alert carries. *)
Lemma evalPass_view_inactive now pd st i :
  (forall b, b ∈ store st -> alert_id b = i -> status b <> active) ->
  view i (evalPass now pd st) = view i st.
Proof.
  intros H. unfold evalPass.
  destruct (size pd =? 0)%nat; [reflexivity|].
  destruct (length _ =? 0)%nat; [reflexivity|].
  apply view_fold_other. intros b Hb Heq.
  apply list_elem_of_In, filter_In in Hb as [Hb Hact].
  apply (H b); [apply list_elem_of_In, Hb|exact Heq|].
  unfold isActive in Hact. destruct (status b); done.
Qed.

Lemma pass_outcome now pd st a :
  NoDup (map alert_id (store st)) -> a ∈ store st -> status a = active ->
  alert_id a ∉ triggeredIds st ->
  match decideAction pd a with
  | Skip => Untouched a st (evalPass now pd st)
  | Fire => Fired now a st (evalPass now pd st)
  | Ratchet h t => Ratcheted h t a st (evalPass now pd st)
  end.
Proof.
  intros Hnd Hin Hact Hfresh.
  pose proof (evalPass_view now pd st a Hnd Hin Hact) as Hv.
  unfold viewStep, view in Hv.
  rewrite (bool_decide_false _ Hfresh) in Hv.
  assert (Hst : stored (alert_id a) st = [a]) by apply (stored_unique _ _ Hnd Hin).
  rewrite Hst in Hv.
  destruct (decideAction pd a) as [| |h t]; cbn [map] in Hv;
    injection Hv as Hs Hg He.
  - split; [|split]; [|exact Hs|exact He].
    intros Hc. apply bool_decide_eq_false in Hg. done.
  - split; [|split]; [|exact Hs|exact He].
    apply bool_decide_eq_true in Hg. exact Hg.
  - split; [|split]; [|exact Hs|exact He].
    intros Hc. apply bool_decide_eq_false in Hg. done.
Qed.

(** *** Doubles: no number is below itself *)

Lemma SFcompare_refl_not_Lt x : SFcompare x x <> Some Lt.
Proof.
  destruct x as [s|s| |s m e]; cbn; try destruct s; try discriminate.
  - rewrite Z.compare_refl.
    change (Pos.compare_cont Eq m m) with (Pos.compare m m).
    rewrite Pos.compare_refl. discriminate.
  - rewrite Z.compare_refl.
    change (Pos.compare_cont Eq m m) with (Pos.compare m m).
    rewrite Pos.compare_refl. discriminate.
Qed.

Lemma ltb_irrefl x : PrimFloat.ltb x x = false.
Proof.
  rewrite ltb_spec. unfold SFltb.
  pose proof (SFcompare_refl_not_Lt (Prim2SF x)) as H.
  destruct (SFcompare (Prim2SF x) (Prim2SF x)) as [[]|]; congruence.
Qed.

Lemma Evaluated_outcome now pd st a p :
  Evaluated pd st a p ->
  match decideAction pd a with
  | Skip => Untouched a st (evalPass now pd st)
  | Fire => Fired now a st (evalPass now pd st)
  | Ratchet h t => Ratcheted h t a st (evalPass now pd st)
  end.
Proof. intros (Hnd & Hin & Hact & _ & Hfresh). apply pass_outcome; assumption. Qed.

Lemma Fired_not_Ratcheted now h t a st st' :
  Fired now a st st' -> Ratcheted h t a st st' -> False.
Proof. intros [H _] [H' _]. done. Qed.

Lemma decideAction_price_cross pd a data :
  pd !! symbol a = Some data -> alert_type a = price_cross ->
  decideAction pd a = if crossed a (price data) then Fire else Skip.
Proof. intros Hp Ht. unfold decideAction, crossed. rewrite Hp, Ht. reflexivity. Qed.

Lemma decideAction_percentage pd a data tp :
  pd !! symbol a = Some data -> alert_type a = percentage_change ->
  trailing_percent a = Some tp -> Js.truthy tp = true ->
  decideAction pd a = if moved a tp (price data) then Fire else Skip.
Proof.
  intros Hp Ht Htp Htr. unfold decideAction, moved, changePercent.
  rewrite Hp, Ht, Htp, Htr. reflexivity.
Qed.

Lemma decideAction_trailing pd a data tp :
  pd !! symbol a = Some data -> alert_type a = trailing_stop ->
  trailing_percent a = Some tp -> Js.truthy tp = true ->
  decideAction pd a =
    let p := price data in
    let w := Js.orElse (trailing_high a) p in
    match direction a with
    | above =>
      if Js.gt p w then Ratchet p (p * (1 - tp / 100))%float
      else if Js.le p (target_price a) then Fire else Skip
    | below =>
      if Js.lt p w then Ratchet p (p * (1 + tp / 100))%float
      else if Js.ge p (target_price a) then Fire else Skip
    end.
Proof.
  intros Hp Ht Htp Htr. unfold decideAction. rewrite Hp, Ht, Htp, Htr. reflexivity.
Qed.

Lemma decideAction_unguarded pd a :
  alert_type a <> price_cross -> Js.optTruthy (trailing_percent a) = false ->
  decideAction pd a = Skip.
Proof.
  intros Ht Htp. unfold decideAction. destruct (pd !! symbol a); [|reflexivity].
  destruct (alert_type a); try done; destruct (trailing_percent a) as [tp|];
    try reflexivity; cbn in Htp; rewrite Htp; reflexivity.
Qed.

Lemma orElse_unset o p : Js.optTruthy o = false -> Js.orElse o p = p.
Proof. destruct o as [x|]; cbn; [intros ->|]; reflexivity. Qed.

Lemma decideAction_unset_watermark pd a data :
  pd !! symbol a = Some data -> alert_type a = trailing_stop ->
  Js.optTruthy (trailing_high a) = false ->
  decideAction pd a =
    if Js.optTruthy (trailing_percent a) && stopped a (price data) then Fire else Skip.
Proof.
  intros Hp Ht Hh. destruct (Js.optTruthy (trailing_percent a)) eqn:Htp.
  - destruct (trailing_percent a) as [tp|] eqn:E; [|discriminate]. cbn in Htp.
    rewrite (decideAction_trailing pd a data tp Hp Ht E Htp). cbn zeta.
    rewrite orElse_unset by assumption. unfold Js.gt, Js.lt, stopped.
    rewrite ltb_irrefl. destruct (direction a); cbn;
      match goal with |- context [if ?b then _ else _] => destruct b end; reflexivity.
  - apply decideAction_unguarded; [rewrite Ht; discriminate|assumption].
Qed.

Lemma Evaluated_price pd st a p :
  Evaluated pd st a p -> exists data, pd !! symbol a = Some data /\ price data = p.
Proof.
  intros (_ & _ & _ & Hp & _). destruct (pd !! symbol a) as [data|]; [|discriminate].
  exists data. split; [reflexivity|]. cbn in Hp. congruence.
Qed.

Lemma fire_or_skip now a st st' (c : bool) :
  match (if c then Fire else Skip) with
  | Skip => Untouched a st st'
  | Fire => Fired now a st st'
  | Ratchet h t => Ratcheted h t a st st'
  end ->
  (c = true -> Fired now a st st')
  /\ (c = false -> Untouched a st st')
  /\ (alert_id a ∈ triggeredIds st' <-> c = true).
Proof.
  destruct c; intros Hout.
  - split; [auto|]. split; [discriminate|]. split; [reflexivity|]. intros _. apply Hout.
  - split; [discriminate|]. split; [auto|].
    split; [|discriminate]. intros Hin. destruct Hout as [Hout _]. done.
Qed.

(** C6.  For an active price_cross alert whose symbol has a current price
    (and which has not yet triggered in the session), a pass triggers it
    exactly when the direction is above and price >= target_price, or the
    direction is below and price <= target_price.  Only the current price
    is compared: nothing of an earlier tick enters the condition, so an
    alert whose target is already met triggers on the next pass.  With
    target 50000 and direction above, the feed 49000, 49500, 50000
    triggers once, at the third tick. *)
Theorem price_cross_current_value now pd st a p :
  Evaluated pd st a p -> alert_type a = price_cross ->
  ((crossed a p = true -> Fired now a st (evalPass now pd st))
   /\ (crossed a p = false -> Untouched a st (evalPass now pd st))
   /\ (alert_id a ∈ triggeredIds (evalPass now pd st) <-> crossed a p = true))
  /\ (let st2 :=
         runPasses [(1%Z, tick "BTCUSDT" 49000); (2%Z, tick "BTCUSDT" 49500)]
           (mount [sampleBtc]) in
       let st3 := evalPass 3 (tick "BTCUSDT" 50000) st2 in
       log st2 = [] /\ map status (store st2) = [active]
       /\ log st3 = [EStatusWrite "b1"; ESound "b1"; EToast "b1"]
       /\ map status (store st3) = [triggered]).
Proof.
  intros Hev Hty. split; [|vm_compute; repeat split; reflexivity].
  destruct (Evaluated_price _ _ _ _ Hev) as (data & Hp & <-).
  pose proof (Evaluated_outcome now pd st a _ Hev) as Hout.
  rewrite (decideAction_price_cross pd a data Hp Hty) in Hout.
  apply fire_or_skip, Hout.
Qed.

Lemma Evaluated_mounted (a : LocalAlert) (p : float) :
  status a = active ->
  Evaluated (tick (symbol a) p) (mount [a]) a p.
Proof.
  intros Hact. split; [|split; [|split; [|split]]].
  - apply NoDup_singleton.
  - apply list_elem_of_singleton. reflexivity.
  - exact Hact.
  - unfold tick. rewrite lookup_singleton_eq. reflexivity.
  - apply not_elem_of_empty.
Qed.

Lemma price_cross_current_value_witness :
  Fired 3 sampleBtc (mount [sampleBtc])
    (evalPass 3 (tick "BTCUSDT" 50000) (mount [sampleBtc])).
Proof.
  apply (price_cross_current_value 3 (tick "BTCUSDT" 50000) (mount [sampleBtc])
           sampleBtc 50000 (Evaluated_mounted sampleBtc 50000 eq_refl) eq_refl).
  reflexivity.
Defined.

(** C7, amended.  For an active percentage_change alert whose
    trailing_percent is a non-zero number, a pass computes
    changePct = (price - target_price) / target_price * 100 and triggers
    exactly when the direction is above and changePct >= trailing_percent,
    or the direction is below and changePct <= -trailing_percent; an alert
    whose trailing_percent is zero or missing is not evaluated.  With
    target 100, threshold 10 and direction above, 109 does not trigger and
    110 does. *)
Theorem percentage_change_threshold now pd st a p tp :
  Evaluated pd st a p -> alert_type a = percentage_change ->
  trailing_percent a = Some tp -> Js.truthy tp = true ->
  ((moved a tp p = true -> Fired now a st (evalPass now pd st))
   /\ (moved a tp p = false -> Untouched a st (evalPass now pd st))
   /\ (alert_id a ∈ triggeredIds (evalPass now pd st) <-> moved a tp p = true))
  /\ (forall b, alert_type b = percentage_change ->
        Js.optTruthy (trailing_percent b) = false -> decideAction pd b = Skip)
  /\ moved samplePercent 10 109 = false
  /\ moved samplePercent 10 110 = true.
Proof.
  intros Hev Hty Htp Htr. destruct (Evaluated_price _ _ _ _ Hev) as (data & Hp & <-).
  pose proof (Evaluated_outcome now pd st a _ Hev) as Hout.
  rewrite (decideAction_percentage pd a data tp Hp Hty Htp Htr) in Hout.
  split; [apply fire_or_skip, Hout|]. split; [|split; vm_compute; reflexivity].
  intros b Hb Hz. apply decideAction_unguarded; [rewrite Hb; discriminate|exact Hz].
Qed.

Lemma percentage_change_threshold_witness :
  Fired 1 samplePercent (mount [samplePercent])
    (evalPass 1 (tick "BTCUSDT" 110) (mount [samplePercent])).
Proof.
  apply (percentage_change_threshold 1 (tick "BTCUSDT" 110) (mount [samplePercent])
           samplePercent 110 10 (Evaluated_mounted samplePercent 110 eq_refl)
           eq_refl eq_refl eq_refl).
  reflexivity.
Defined.

(** An alert with target 100 and a zero threshold, at price 100: the change
    is 0 >= 0, and the pass leaves the alert alone. *)
Lemma percentage_zero_threshold_is_skipped :
  let a := exampleAlert "p0" percentage_change above 100 (Some 0%float) None in
  let st' := evalPass 1 (tick "BTCUSDT" 100) (mount [a]) in
  Js.truthy (target_price a) = true
  /\ moved a 0 100 = true /\ log st' = [] /\ store st' = [a].
Proof. vm_compute. repeat split; reflexivity. Qed.

(** C1.  For an active trailing_stop alert with a non-zero
    trailing_percent and watermark w (trailing_high, or the current price
    when that is unset), one pass does the following.  Direction above: if
    price > w it writes trailing_high = price and
    target_price = price * (1 - trailing_percent / 100) and does not
    trigger; otherwise, if price <= target_price, it triggers.  Direction
    below: if price < w it writes trailing_high = price and
    target_price = price * (1 + trailing_percent / 100); otherwise, if
    price >= target_price, it triggers.  A watermark update and a trigger
    never both happen to the alert in one pass.  With 5 percent, watermark
    100 and trigger price 95, the price 110 moves the watermark to 110 and
    the trigger price to 104.5 without triggering, and 104 then triggers. *)
Theorem trailing_stop_ratchet now pd st a p tp :
  Evaluated pd st a p -> alert_type a = trailing_stop ->
  trailing_percent a = Some tp -> Js.truthy tp = true ->
  let w := Js.orElse (trailing_high a) p in
  let st' := evalPass now pd st in
  match direction a with
  | above =>
    if Js.gt p w then Ratcheted p (p * (1 - tp / 100))%float a st st'
    else if Js.le p (target_price a) then Fired now a st st'
    else Untouched a st st'
  | below =>
    if Js.lt p w then Ratcheted p (p * (1 + tp / 100))%float a st st'
    else if Js.ge p (target_price a) then Fired now a st st'
    else Untouched a st st'
  end
  /\ (forall high target, Ratcheted high target a st st' -> ~ Fired now a st st')
  /\ (let st1 := evalPass 1 (tick "BTCUSDT" 110) (mount [sampleTrailing]) in
      let st2 := evalPass 2 (tick "BTCUSDT" 104) st1 in
      store st1
      = [exampleAlert "t1" trailing_stop above 104.5 (Some 5%float) (Some 110%float)]
      /\ log st1 = []
      /\ log st2 = [EStatusWrite "t1"; ESound "t1"; EToast "t1"]
      /\ map status (store st2) = [triggered]).
Proof.
  intros Hev Hty Htp Htr w st'. split; [|split].
  - destruct (Evaluated_price _ _ _ _ Hev) as (data & Hp & <-).
    pose proof (Evaluated_outcome now pd st a _ Hev) as Hout.
    rewrite (decideAction_trailing pd a data tp Hp Hty Htp Htr) in Hout.
    subst w st'. cbn zeta in Hout. destruct (direction a);
      repeat match goal with |- context [if ?b then _ else _] => destruct b end; exact Hout.
  - intros high target Hr Hf. exact (Fired_not_Ratcheted _ _ _ _ _ _ Hf Hr).
  - vm_compute. repeat split; reflexivity.
Qed.

Lemma trailing_stop_ratchet_witness :
  Ratcheted 110 104.5 sampleTrailing (mount [sampleTrailing])
    (evalPass 1 (tick "BTCUSDT" 110) (mount [sampleTrailing])).
Proof.
  exact (proj1 (trailing_stop_ratchet 1 (tick "BTCUSDT" 110) (mount [sampleTrailing])
                  sampleTrailing 110 5 (Evaluated_mounted sampleTrailing 110 eq_refl)
                  eq_refl eq_refl eq_refl)).
Defined.

Lemma stored_singleton_In i st a' : stored i st = [a'] -> a' ∈ store st.
Proof.
  intros H. assert (Hin : In a' (stored i st)) by (rewrite H; left; reflexivity).
  apply filter_In in Hin as [Hin _]. apply list_elem_of_In, Hin.
Qed.

Lemma stored_singleton_only i st a' b :
  stored i st = [a'] -> b ∈ store st -> alert_id b = i -> b = a'.
Proof.
  intros H Hb Hi. assert (Hin : In b (stored i st)).
  { apply filter_In. split; [apply list_elem_of_In, Hb|]. apply String.eqb_eq, Hi. }
  rewrite H in Hin. destruct Hin as [->|[]]. reflexivity.
Qed.

Lemma Dormant_evalPass now pd a st :
  alert_type a = trailing_stop -> Js.optTruthy (trailing_high a) = false ->
  Dormant a st -> Dormant a (evalPass now pd st).
Proof.
  intros Hty Hh (Hnd & a' & Hst & Hfz & Hg).
  split; [rewrite evalPass_ids; exact Hnd|].
  pose proof Hfz as (Hid & Hsym & Hdir & Hty' & Htp & Hh' & Htg).
  destruct (status a') eqn:Hact.
  - assert (Hin : a' ∈ store st) by apply (stored_singleton_In _ _ _ Hst).
    assert (Hfresh : alert_id a' ∉ triggeredIds st) by (rewrite Hid; auto).
    pose proof (pass_outcome now pd st a' Hnd Hin Hact Hfresh) as Hout.
    assert (Hcase : decideAction pd a' = Skip \/ decideAction pd a' = Fire).
    { destruct (pd !! symbol a') as [data|] eqn:Hp.
      - rewrite (decideAction_unset_watermark pd a' data Hp) by congruence.
        destruct (_ && _); auto.
      - left. apply decideAction_no_price, Hp. }
    destruct Hcase as [Hc|Hc]; rewrite Hc in Hout;
      unfold Untouched, Fired in Hout; rewrite Hid in Hout.
    + destruct Hout as (Hg' & Hs' & _). exists a'. auto.
    + destruct Hout as (_ & Hs' & _). exists (applyPatch a' (triggerPatch now)).
      split; [exact Hs'|]. split; [exact Hfz|]. cbn. discriminate.
  - exists a'. split; [|split; [exact Hfz|intros H; congruence]].
    assert (Hv : view (alert_id a) (evalPass now pd st) = view (alert_id a) st).
    { apply evalPass_view_inactive. intros b Hb Hi.
      rewrite (stored_singleton_only _ _ _ _ Hst Hb Hi), Hact. discriminate. }
    injection Hv as Hs _ _. rewrite Hs. exact Hst.
  - exists a'. split; [|split; [exact Hfz|intros H; congruence]].
    assert (Hv : view (alert_id a) (evalPass now pd st) = view (alert_id a) st).
    { apply evalPass_view_inactive. intros b Hb Hi.
      rewrite (stored_singleton_only _ _ _ _ Hst Hb Hi), Hact. discriminate. }
    injection Hv as Hs _ _. rewrite Hs. exact Hst.
Qed.

Lemma Dormant_runPasses a ticks : forall st,
  alert_type a = trailing_stop -> Js.optTruthy (trailing_high a) = false ->
  Dormant a st -> Dormant a (runPasses ticks st).
Proof.
  induction ticks as [|t ticks IH]; intros st Hty Hh Hd; [exact Hd|].
  cbn. apply IH; [assumption..|]. apply Dormant_evalPass; assumption.
Qed.

(** C10, amended.  A trailing_stop alert whose trailing_high is unset (or
    0) never engages the ratchet: in every pass the watermark is that
    tick's price, the watermark-update branch is not taken, and
    trailing_high and target_price are never rewritten.  When its
    trailing_percent is a non-zero number the alert acts as a fixed
    threshold at its stored target_price (it triggers when
    price <= target_price for direction above, price >= target_price for
    direction below); when trailing_percent is zero or missing it is not
    evaluated.  Every direction-below alert that the trailing-alert dialog
    creates is in this state, the dialog setting trailing_high for the
    upward direction only. *)
Theorem unset_watermark_never_ratchets st a :
  NoDup (map alert_id (store st)) -> a ∈ store st -> status a = active ->
  alert_id a ∉ triggeredIds st ->
  alert_type a = trailing_stop -> Js.optTruthy (trailing_high a) = false ->
  (forall ticks, exists a',
      stored (alert_id a) (runPasses ticks st) = [a']
      /\ trailing_high a' = trailing_high a /\ target_price a' = target_price a)
  /\ (forall pd high target, decideAction pd a <> Ratchet high target)
  /\ (forall now pd data, pd !! symbol a = Some data ->
        Js.orElse (trailing_high a) (price data) = price data
        /\ if Js.optTruthy (trailing_percent a) && stopped a (price data)
           then Fired now a st (evalPass now pd st)
           else Untouched a st (evalPass now pd st))
  /\ (forall newId sym percentage currentPrice autoTrigger manual,
        let created :=
          addTrailingAlert newId sym down percentage currentPrice autoTrigger manual in
        direction created = below /\ alert_type created = trailing_stop
        /\ trailing_high created = None).
Proof.
  intros Hnd Hin Hact Hfresh Hty Hh. split; [|split; [|split]].
  - intros ticks.
    assert (Hd : Dormant a st).
    { split; [exact Hnd|]. exists a. split; [apply stored_unique; assumption|].
      split; [repeat split|auto]. }
    destruct (Dormant_runPasses a ticks st Hty Hh Hd) as (_ & a' & Hs & Hfz & _).
    exists a'. destruct Hfz as (_ & _ & _ & _ & _ & H1 & H2). auto.
  - intros pd high target. destruct (pd !! symbol a) as [data|] eqn:Hp.
    + rewrite (decideAction_unset_watermark pd a data Hp Hty Hh).
      destruct (_ && _); discriminate.
    + rewrite (decideAction_no_price pd a Hp). discriminate.
  - intros now pd data Hp. split; [apply orElse_unset, Hh|].
    pose proof (pass_outcome now pd st a Hnd Hin Hact Hfresh) as Hout.
    rewrite (decideAction_unset_watermark pd a data Hp Hty Hh) in Hout.
    destruct (_ && _); exact Hout.
  - intros. repeat split.
Qed.

Lemma unset_watermark_never_ratchets_witness :
  Fired 1 sampleDown (mount [sampleDown])
    (evalPass 1 (tick "BTCUSDT" 106) (mount [sampleDown])).
Proof.
  destruct (unset_watermark_never_ratchets (mount [sampleDown]) sampleDown)
    as (_ & _ & H & _).
  - apply NoDup_singleton.
  - apply list_elem_of_singleton. reflexivity.
  - reflexivity.
  - apply not_elem_of_empty.
  - reflexivity.
  - reflexivity.
  - destruct (H 1%Z (tick "BTCUSDT" 106) {| price := 106; change := 0 |}) as [_ Hf].
    + unfold tick. apply lookup_singleton_eq.
    + exact Hf.
Defined.

(** A downward trailing alert created by the dialog with 0 percent at
    price 100: its trigger price is 100, and at 120 >= 100 the pass leaves
    it alone. *)
Lemma zero_percent_trailing_alert_is_skipped :
  let a := addTrailingAlert "t0" "BTCUSDT" down 0 100 true 0 in
  let st' := evalPass 1 (tick "BTCUSDT" 120) (mount [a]) in
  trailing_high a = None /\ direction a = below /\ target_price a = 100%float
  /\ stopped a 120 = true
  /\ log st' = [] /\ store st' = [a].
Proof. vm_compute. repeat split; reflexivity. Qed.

(** *** One trigger per session *)

Lemma Once_perform now a act st :
  alert_id a ∉ triggeredIds st -> Once st -> Once (perform now a act st).
Proof.
  intros Hfresh Hon i. destruct act as [| |h t]; [apply Hon| |apply Hon].
  cbn [perform log triggeredIds]. rewrite effectsOf_app.
  destruct (String.eqb_spec (alert_id a) i) as [<-|Hne].
  - destruct (Hon (alert_id a)) as [He|[Hin _]]; [|done].
    rewrite He, effectsOf_trigger_eq. right.
    split; [apply elem_of_union; left; apply elem_of_singleton; reflexivity|].
    unfold triggerEffects. destruct (default false (trade_enabled a)); auto.
  - rewrite effectsOf_trigger_ne, app_nil_r by assumption.
    destruct (Hon i) as [He|[Hin He]]; [left; exact He|right].
    split; [apply elem_of_union; right; exact Hin|exact He].
Qed.

Lemma Once_checkAlert now pd st a : Once st -> Once (checkAlert now pd st a).
Proof.
  intros Hon. destruct (decide (alert_id a ∈ triggeredIds st)).
  - rewrite checkAlert_guarded by assumption. exact Hon.
  - rewrite checkAlert_perform by assumption. apply Once_perform; assumption.
Qed.

Lemma Once_fold now pd l : forall st, Once st -> Once (fold_left (checkAlert now pd) l st).
Proof.
  induction l as [|b l IH]; intros st Hon; [exact Hon|].
  cbn. apply IH, Once_checkAlert, Hon.
Qed.

Lemma Once_evalPass now pd st : Once st -> Once (evalPass now pd st).
Proof.
  intros Hon. unfold evalPass. destruct (size pd =? 0)%nat; [exact Hon|].
  destruct (length _ =? 0)%nat; [exact Hon|]. apply Once_fold, Hon.
Qed.

Lemma Once_runSession evs : forall st, Once st -> Once (runSession evs st).
Proof.
  induction evs as [|ev evs IH]; intros st Hon; [exact Hon|].
  cbn. apply IH. destruct ev as [now pd|alerts]; [apply Once_evalPass, Hon|exact Hon].
Qed.

Lemma guardView_checkAlert now pd st b i :
  i ∈ triggeredIds st -> guardView i (checkAlert now pd st b) = guardView i st.
Proof.
  intros Hin. destruct (String.eqb_spec (alert_id b) i) as [Heq|Hne].
  - rewrite checkAlert_guarded by (rewrite Heq; exact Hin). reflexivity.
  - pose proof (view_checkAlert_ne now pd st b i Hne) as Hv.
    unfold view in Hv. injection Hv as _ Hg He. unfold guardView. congruence.
Qed.

Lemma guardView_guarded i st st' :
  i ∈ triggeredIds st -> guardView i st' = guardView i st -> i ∈ triggeredIds st'.
Proof.
  intros Hin Hv. injection Hv as Hg _. rewrite (bool_decide_true _ Hin) in Hg.
  apply bool_decide_eq_true in Hg. exact Hg.
Qed.

Lemma guardView_fold now pd l i : forall st,
  i ∈ triggeredIds st ->
  guardView i (fold_left (checkAlert now pd) l st) = guardView i st.
Proof.
  induction l as [|b l IH]; intros st Hin; [reflexivity|]. cbn.
  pose proof (guardView_checkAlert now pd st b i Hin) as Hstep.
  rewrite IH; [exact Hstep|]. apply (guardView_guarded i st); assumption.
Qed.

Lemma guardView_evalPass now pd st i :
  i ∈ triggeredIds st -> guardView i (evalPass now pd st) = guardView i st.
Proof.
  intros Hin. unfold evalPass. destruct (size pd =? 0)%nat; [reflexivity|].
  destruct (length _ =? 0)%nat; [reflexivity|]. apply guardView_fold, Hin.
Qed.

Lemma guardView_runSession evs i : forall st,
  i ∈ triggeredIds st -> guardView i (runSession evs st) = guardView i st.
Proof.
  induction evs as [|ev evs IH]; intros st Hin; [reflexivity|]. cbn.
  assert (Hstep : guardView i (sessionStep st ev) = guardView i st).
  { destruct ev as [now pd|alerts]; [apply guardView_evalPass, Hin|reflexivity]. }
  rewrite IH; [exact Hstep|]. apply (guardView_guarded i st); assumption.
Qed.

(** A pass keeps every alert that is still active out of the trigger
    guard. *)
Lemma evalPass_keeps_active_unguarded now pd st :
  NoDup (map alert_id (store st)) ->
  (forall a, a ∈ store st -> status a = active -> alert_id a ∉ triggeredIds st) ->
  forall a', a' ∈ store (evalPass now pd st) -> status a' = active ->
    alert_id a' ∉ triggeredIds (evalPass now pd st).
Proof.
  intros Hnd Hinv a' Hin' Hact'.
  assert (Hsrc : exists a, a ∈ store st /\ alert_id a = alert_id a').
  { apply list_elem_of_In, (in_map alert_id) in Hin'. rewrite evalPass_ids in Hin'.
    apply in_map_iff in Hin' as (a & Ha & Hin). exists a.
    split; [apply list_elem_of_In, Hin|exact Ha]. }
  destruct Hsrc as (a & Hin & Hid). rewrite <- Hid.
  assert (Hmine : In a' (stored (alert_id a) (evalPass now pd st))).
  { apply filter_In. split; [apply list_elem_of_In, Hin'|].
    apply String.eqb_eq. congruence. }
  assert (Hdec : status a = active \/ status a <> active)
    by (destruct (status a); auto; right; discriminate).
  destruct Hdec as [Hact|Hact].
  - pose proof (pass_outcome now pd st a Hnd Hin Hact (Hinv a Hin Hact)) as Hout.
    destruct (decideAction pd a) as [| |h t]; destruct Hout as (Hg & Hs & _);
      [exact Hg| |exact Hg].
    rewrite Hs in Hmine. destruct Hmine as [<-|[]]. discriminate.
  - assert (Hv : view (alert_id a) (evalPass now pd st) = view (alert_id a) st).
    { apply evalPass_view_inactive. intros b Hb Hi.
      rewrite (stored_singleton_only _ _ _ _ (stored_unique _ _ Hnd Hin) Hb Hi).
      exact Hact. }
    injection Hv as Hs _ _. rewrite Hs in Hmine.
    unfold stored in Hmine. rewrite (stored_unique _ _ Hnd Hin) in Hmine.
    destruct Hmine as [<-|[]]. done.
Qed.

(** In every state that passes reach from a store with distinct ids, an
    alert that is still active has not triggered in the session. *)
Lemma active_alerts_are_unguarded ticks : forall st,
  NoDup (map alert_id (store st)) ->
  (forall a, a ∈ store st -> status a = active -> alert_id a ∉ triggeredIds st) ->
  NoDup (map alert_id (store (runPasses ticks st)))
  /\ forall a, a ∈ store (runPasses ticks st) -> status a = active ->
       alert_id a ∉ triggeredIds (runPasses ticks st).
Proof.
  induction ticks as [|[now pd] ticks IH]; intros st Hnd Hinv; [auto|].
  cbn. apply IH; [rewrite evalPass_ids; exact Hnd|].
  apply evalPass_keeps_active_unguarded; assumption.
Qed.

(** C2.  Every alert triggers at most once per session: from the mount
    on, whatever prices arrive and whatever is written to the store in
    between, the log holds for each id either nothing or the effects of
    exactly one trigger (status write, sound, toast and, when a trade is
    configured, one trade dispatch).  Once triggerAlert has run for an
    alert, its id is in the trigger guard and its persisted status is
    triggered, and every later evaluation of it, at the same price or any
    other, does nothing.  An alert above 100 evaluated twice at 100
    triggers exactly once, even when the store still shows it active. *)
Theorem trigger_at_most_once :
  (forall alerts evs i, AtMostOnce i (log (runSession evs (mount alerts))))
  /\ (forall now a p st,
        alert_id a ∈ triggeredIds (triggerAlert now a p st)
        /\ (alert_id a ∉ triggeredIds st ->
            forall b, b ∈ stored (alert_id a) (triggerAlert now a p st) ->
                      status b = triggered))
  /\ (forall st a, alert_id a ∈ triggeredIds st ->
        (forall now p, triggerAlert now a p st = st)
        /\ (forall now pd, checkAlert now pd st a = st)
        /\ (forall evs,
              effectsOf (alert_id a) (log (runSession evs st))
              = effectsOf (alert_id a) (log st)))
  /\ (let twice := [PriceUpdate 1 (tick "BTCUSDT" 100); PriceUpdate 2 (tick "BTCUSDT" 100)] in
      let stale := [PriceUpdate 1 (tick "BTCUSDT" 100); StoreWrite [samplePriceCross];
                    PriceUpdate 2 (tick "BTCUSDT" 100)] in
      log (runSession twice (mount [samplePriceCross]))
      = [EStatusWrite "a1"; ESound "a1"; EToast "a1"]
      /\ map status (store (runSession twice (mount [samplePriceCross]))) = [triggered]
      /\ log (runSession stale (mount [samplePriceCross]))
        = [EStatusWrite "a1"; ESound "a1"; EToast "a1"]).
Proof.
  split; [|split; [|split]].
  - intros alerts evs i.
    assert (Hon : Once (mount alerts)) by (intros j; left; reflexivity).
    destruct (Once_runSession evs _ Hon i) as [He|[_ [He|He]]];
      unfold AtMostOnce; auto.
  - intros now a p st. destruct (decide (alert_id a ∈ triggeredIds st)) as [Hin|Hout].
    + rewrite triggerAlert_guarded by assumption. split; [exact Hin|done].
    + rewrite triggerAlert_fresh by assumption.
      split; [apply elem_of_union; left; apply elem_of_singleton; reflexivity|].
      intros _ b Hb. unfold stored in Hb. cbn [perform store] in Hb.
      rewrite filter_updateAlert_eq in Hb.
      apply list_elem_of_In, in_map_iff in Hb as (c & <- & _). reflexivity.
  - intros st a Hin. split; [|split].
    + intros now p. apply triggerAlert_guarded, Hin.
    + intros now pd. apply checkAlert_guarded, Hin.
    + intros evs. pose proof (guardView_runSession evs _ st Hin) as Hv.
      injection Hv as _ He. exact He.
  - vm_compute. repeat split; reflexivity.
Qed.

End AlertsFacts.

(** ** The DCA schedule *)

Module ScheduleFacts.
Import DcaStore.
Local Open Scope Z_scope.





Section Facts.

Variable tz : Z.
Variable toNumber : string -> option Z.

Lemma hourly_returns s dow now :
  exists t, computeNextExecution tz toNumber hourly s dow now = Some t.
Proof.
  unfold computeNextExecution. destruct (String.eqb s "end"); eauto.
Qed.

Lemma wellFormed_returns freq s dow now :
  WellFormed toNumber freq s dow ->
  exists t, computeNextExecution tz toNumber freq s dow now = Some t.
Proof.
  destruct freq; cbn [WellFormed].
  - intros _. apply hourly_returns.
  - intros (h & m & Hp & _). unfold computeNextExecution. rewrite Hp. eauto.
  - destruct dow as [d|]; [|unfold computeNextExecution; eauto].
    intros (_ & h & m & Hp & _). unfold computeNextExecution. rewrite Hp. eauto.
Qed.



End Facts.




End ScheduleFacts.

(** ** The trade dispatcher *)

Module DispatchFacts.
Import Dispatch.

Lemma tryCatch_returns {A} (body : M A) (handler : JsError -> M A) h :
  (forall e h', exists a, fst (handler e h') = Returns a) ->
  exists a, fst (tryCatch body handler h) = Returns a.
Proof.
  intros Hh. unfold tryCatch. destruct (body h) as [[a|e] h']; [eauto|apply Hh].
Qed.

Lemma executeAlertTrade_returns w alert signer h :
  exists r, fst (executeAlertTrade w alert signer h) = Returns r.
Proof.
  unfold executeAlertTrade. destruct (negb _); [eexists; reflexivity|].
  destruct (getStoredKeys (keysItem w)) as [keys|]; [|eexists; reflexivity].
  apply tryCatch_returns. intros e h'. eexists. reflexivity.
Qed.

Lemma executeDCATrade_returns w strategy signer h :
  exists r, fst (executeDCATrade w strategy signer h) = Returns r.
Proof.
  unfold executeDCATrade.
  destruct (getStoredKeys (keysItem w)) as [keys|]; [|eexists; reflexivity].
  apply tryCatch_returns. intros e h'. eexists. reflexivity.
Qed.


End DispatchFacts.

(** ** The DCA scheduler *)

Module DcaFacts.
Import DcaStore Dca.
Local Open Scope Z_scope.

Lemma tradeCount_app i due l1 l2 :
  tradeCount i due (l1 ++ l2) = (tradeCount i due l1 + tradeCount i due l2)%nat.
Proof. unfold tradeCount. rewrite List.filter_app, length_app. reflexivity. Qed.

Section Facts.

Variable tz : Z.
Variable toNumber : string -> option Z.

Lemma executeStrategy_guarded w now strategy st :
  (strategy_id strategy, nextExecuteAt strategy) ∈ executedKeys st ->
  executeStrategy tz toNumber w now strategy st = Fulfilled st.
Proof.
  intros H. unfold executeStrategy. destruct (decide _); [reflexivity|done].
Qed.

(** A first execution for its key: the trade is dispatched once and,
    when the schedule gives a next instant, the books are written. *)
Lemma executeStrategy_fresh w now strategy st :
  (strategy_id strategy, nextExecuteAt strategy) ∉ executedKeys st ->
  exists result history',
    Dispatch.executeDCATrade w strategy None (history st) = (Dispatch.Returns result, history')
    /\ executeStrategy tz toNumber w now strategy st
       = match computeNextExecution tz toNumber (frequency strategy)
                 (scheduledTime strategy) (dayOfWeek strategy) now with
         | Some next =>
           Fulfilled
             {| strategies :=
                  updateDCAStrategy (strategies st) (strategy_id strategy)
                    (bookkeeping strategy now next);
                executedKeys :=
                  {[ (strategy_id strategy, nextExecuteAt strategy) ]} ∪ executedKeys st;
                executing := executing st;
                history := history';
                log :=
                  (log st ++ [ETrade (strategy_id strategy) (nextExecuteAt strategy)])
                    ++ [if Dispatch.success result
                        then EToastExecuted (strategy_id strategy)
                               (Js.ge (totalSpent strategy + quoteAmount strategy)%float
                                      (totalBudget strategy))
                        else EToastFailed (strategy_id strategy)] |}
         | None =>
           Rejected
             {| strategies := strategies st;
                executedKeys :=
                  {[ (strategy_id strategy, nextExecuteAt strategy) ]} ∪ executedKeys st;
                executing := executing st;
                history := history';
                log := log st ++ [ETrade (strategy_id strategy) (nextExecuteAt strategy)] |}
         end.
Proof.
  intros Hfresh.
  destruct (DispatchFacts.executeDCATrade_returns w strategy None (history st)) as [r Hr].
  destruct (Dispatch.executeDCATrade w strategy None (history st)) as [res h'] eqn:Hex.
  cbn in Hr. subst res. exists r, h'. split; [reflexivity|].
  unfold executeStrategy. destruct (decide _) as [|_]; [done|]. rewrite Hex.
  destruct (computeNextExecution _ _ _ _ _ _); reflexivity.
Qed.

Lemma tradeCount_snoc_trade i due l j d :
  tradeCount i due (l ++ [ETrade j d])
  = (tradeCount i due l + if String.eqb j i && (d =? due)%Z then 1 else 0)%nat.
Proof.
  rewrite tradeCount_app. f_equal. unfold tradeCount. cbn.
  destruct (String.eqb j i && (d =? due)%Z); reflexivity.
Qed.

Lemma tradeCount_snoc_toast i due l (b : bool) j c :
  tradeCount i due (l ++ [if b then EToastExecuted j c else EToastFailed j])
  = tradeCount i due l.
Proof.
  rewrite tradeCount_app. unfold tradeCount at 2. destruct b; cbn; lia.
Qed.

Lemma OncePerKey_executeStrategy w now strategy st :
  OncePerKey st ->
  match executeStrategy tz toNumber w now strategy st with
  | Fulfilled st' => OncePerKey st'
  | Rejected st' => OncePerKey st'
  end.
Proof.
  intros Hon.
  destruct (decide ((strategy_id strategy, nextExecuteAt strategy) ∈ executedKeys st))
    as [Hin|Hfresh].
  { rewrite executeStrategy_guarded by assumption. exact Hon. }
  destruct (executeStrategy_fresh w now strategy st Hfresh) as (r & h' & _ & ->).
  assert (Hadd : forall i due,
    tradeCount i due (log st ++ [ETrade (strategy_id strategy) (nextExecuteAt strategy)]) = 0%nat
    \/ ((i, due) ∈ {[ (strategy_id strategy, nextExecuteAt strategy) ]} ∪ executedKeys st
        /\ tradeCount i due (log st ++ [ETrade (strategy_id strategy) (nextExecuteAt strategy)]) = 1%nat)).
  { intros i due. rewrite tradeCount_snoc_trade.
    destruct (String.eqb_spec (strategy_id strategy) i) as [Hi|Hi];
      [destruct (Z.eqb_spec (nextExecuteAt strategy) due) as [Hd|Hd]|]; cbn [andb].
    - subst i due. destruct (Hon (strategy_id strategy) (nextExecuteAt strategy)) as [H0|[Hin _]];
        [|done].
      right. split; [apply elem_of_union; left; apply elem_of_singleton; reflexivity|].
      rewrite H0. reflexivity.
    - rewrite Nat.add_0_r. destruct (Hon i due) as [H0|[Hin H1]]; [left; exact H0|right].
      split; [apply elem_of_union; right; exact Hin|exact H1].
    - rewrite Nat.add_0_r. destruct (Hon i due) as [H0|[Hin H1]]; [left; exact H0|right].
      split; [apply elem_of_union; right; exact Hin|exact H1]. }
  destruct (computeNextExecution _ _ _ _ _ _); intros i due; cbn [log executedKeys].
  - rewrite tradeCount_snoc_toast. apply Hadd.
  - apply Hadd.
Qed.

Lemma OncePerKey_checkLoop now env l : forall st,
  OncePerKey st ->
  match checkLoop tz toNumber now env l st with
  | Fulfilled st' => OncePerKey st'
  | Rejected st' => OncePerKey st'
  end.
Proof.
  induction l as [|s l IH]; intros st Hon; [exact Hon|]. cbn [checkLoop].
  destruct (negb (enabled s)); [apply IH, Hon|].
  destruct (now >=? nextExecuteAt s); [|apply IH, Hon].
  pose proof (OncePerKey_executeStrategy (fst (env s)) (snd (env s)) s st Hon) as Hstep.
  destruct (executeStrategy _ _ _ _ _ _) as [st'|st']; [apply IH, Hstep|exact Hstep].
Qed.

Lemma OncePerKey_check now env st : OncePerKey st -> OncePerKey (check tz toNumber now env st).
Proof.
  intros Hon. unfold check. destruct (executing st); [exact Hon|].
  pose proof (OncePerKey_checkLoop now env (strategies (setExecuting true st))
                (setExecuting true st) Hon) as H.
  destruct (checkLoop _ _ _ _ _ _); exact H.
Qed.

Lemma OncePerKey_runSession evs : forall st,
  OncePerKey st -> OncePerKey (runSession tz toNumber evs st).
Proof.
  induction evs as [|ev evs IH]; intros st Hon; [exact Hon|]. cbn.
  apply IH. destruct ev as [now env|saved]; [apply OncePerKey_check, Hon|exact Hon].
Qed.

End Facts.

(** C5.  Within one scheduler session a strategy is executed at most
    once per (strategy id, nextExecuteAt) pair.  After an execution
    attempt, whether its trade succeeded or failed, the persisted strategy
    has totalSpent increased by quoteAmount, executionCount increased by 1,
    nextExecuteAt recomputed by the schedule from the clock after the
    trade, and enabled forced to false exactly when the new totalSpent is
    at least totalBudget (left as it was otherwise).  A strategy with
    budget 100 and amount 50 is disabled after exactly two executions,
    with totalSpent 100. *)
Theorem dca_execution_bookkeeping tz toNumber :
  (forall saved evs i due,
     (tradeCount i due (log (runSession tz toNumber evs (mount saved))) <= 1)%nat)
  /\ (forall w now strategy st,
        (strategy_id strategy, nextExecuteAt strategy) ∉ executedKeys st ->
        WellFormed toNumber (frequency strategy) (scheduledTime strategy)
          (dayOfWeek strategy) ->
        exists next st',
          computeNextExecution tz toNumber (frequency strategy) (scheduledTime strategy)
            (dayOfWeek strategy) now = Some next
          /\ executeStrategy tz toNumber w now strategy st = Fulfilled st'
          /\ tradeCount (strategy_id strategy) (nextExecuteAt strategy) (log st')
             = S (tradeCount (strategy_id strategy) (nextExecuteAt strategy) (log st))
          /\ strategies st'
             = updateDCAStrategy (strategies st) (strategy_id strategy)
                 (bookkeeping strategy now next)
          /\ (forall s,
                let s' := applyStrategyPatch s (bookkeeping strategy now next) in
                totalSpent s' = (totalSpent strategy + quoteAmount strategy)%float
                /\ executionCount s' = executionCount strategy + 1
                /\ nextExecuteAt s' = next
                /\ enabled s'
                   = if Js.ge (totalSpent strategy + quoteAmount strategy)%float
                              (totalBudget strategy)
                     then false else enabled s))
  /\ (forall w, w = Dispatch.sampleWorld \/ w = Dispatch.noKeysWorld ->
        let st1 := runSession 0 decimalNumber (take 2 (sampleTicks w)) (mount [sampleStrategy]) in
        let st2 := runSession 0 decimalNumber (take 3 (sampleTicks w)) (mount [sampleStrategy]) in
        let st3 := runSession 0 decimalNumber (sampleTicks w) (mount [sampleStrategy]) in
        map (fun s => (totalSpent s, executionCount s, enabled s)) (strategies st1)
        = [(50%float, 1, true)]
        /\ map (fun s => (totalSpent s, executionCount s, enabled s)) (strategies st2)
           = [(100%float, 2, false)]
        /\ strategies st3 = strategies st2
        /\ length (List.filter isAnyTrade (log st3)) = 2%nat).
Proof.
  split; [|split].
  - intros saved evs i due.
    assert (Hon : OncePerKey (mount saved)) by (intros j d; left; reflexivity).
    destruct (OncePerKey_runSession tz toNumber evs _ Hon i due) as [->|[_ ->]]; lia.
  - intros w now strategy st Hfresh Hwf.
    destruct (ScheduleFacts.wellFormed_returns tz toNumber _ _ _ now Hwf) as [next Hnext].
    destruct (executeStrategy_fresh tz toNumber w now strategy st Hfresh)
      as (r & h' & _ & Hex).
    rewrite Hnext in Hex. exists next. eexists. split; [exact Hnext|].
    split; [exact Hex|]. split; [|split; [reflexivity|]].
    + cbn [log]. rewrite tradeCount_snoc_toast, tradeCount_snoc_trade.
      rewrite String.eqb_refl, Z.eqb_refl. cbn [andb]. lia.
    + intros s. unfold bookkeeping, Js.ge. cbn. repeat split.
      destruct (PrimFloat.leb _ _); reflexivity.
  - intros w [->| ->]; vm_compute; repeat split; reflexivity.
Qed.

Lemma dca_execution_bookkeeping_witness :
  exists next st',
    computeNextExecution 0 decimalNumber hourly "end" None 3311000 = Some next
    /\ executeStrategy 0 decimalNumber Dispatch.sampleWorld 3311000 sampleStrategy
         (mount [sampleStrategy]) = Fulfilled st'
    /\ map (fun s => (totalSpent s, executionCount s, nextExecuteAt s, enabled s))
         (strategies st')
       = [(50%float, 1, 6900000, true)].
Proof.
  destruct (proj1 (proj2 (dca_execution_bookkeeping 0 decimalNumber))
              Dispatch.sampleWorld 3311000 sampleStrategy (mount [sampleStrategy]))
    as (next & st' & Hnext & Hex & _ & Hs & _).
  - apply not_elem_of_empty.
  - exact I.
  - exists next, st'. split; [exact Hnext|]. split; [exact Hex|].
    rewrite Hs. vm_compute in Hnext. injection Hnext as <-. vm_compute. reflexivity.
Defined.

End DcaFacts.

(** ** The request transport *)

Module TransportFacts.
Import Transport.
Local Open Scope Z_scope.

Lemma attemptOnce_429 input k r :
  resp_status r = 429 -> attemptOnce input k (Resolved r) = ThrowOut (rateLimited input k r).
Proof.
  intros H. unfold attemptOnce, ok, rateLimited. rewrite H. reflexivity.
Qed.

Lemma attemptOnce_5xx input k r :
  serverError (resp_status r) = true ->
  attemptOnce input k (Resolved r) = Continue (httpError input k r).
Proof.
  unfold serverError. intros H. apply andb_prop in H as [H1 H2].
  apply Z.leb_le in H1. apply Z.ltb_lt in H2.
  unfold attemptOnce, ok.
  replace (200 <=? resp_status r) with true by (symmetry; apply Z.leb_le; lia).
  replace (resp_status r <=? 299) with false by (symmetry; apply Z.leb_gt; lia).
  cbn [andb negb].
  replace (resp_status r =? 429) with false by (symmetry; apply Z.eqb_neq; lia).
  unfold isRetryableError.
  replace (resp_status r =? 429) with false by (symmetry; apply Z.eqb_neq; lia).
  replace (500 <=? resp_status r) with true by (symmetry; apply Z.leb_le; lia).
  replace (resp_status r <? 600) with true by (symmetry; apply Z.ltb_lt; lia).
  reflexivity.
Qed.

Lemma attemptOnce_client_error input k r :
  ok r = false -> resp_status r <> 429 -> serverError (resp_status r) = false ->
  attemptOnce input k (Resolved r) = ThrowOut (httpError input k r).
Proof.
  intros Hok H429 H5. unfold attemptOnce. rewrite Hok. cbn [negb].
  apply Z.eqb_neq in H429. rewrite H429.
  unfold isRetryableError. rewrite H429. unfold serverError in H5. rewrite H5.
  reflexivity.
Qed.

Section Run.

Variable config : RetryConfig.
Variable input : string.
Variable fetch : Z -> FetchOutcome.
Variable random : Z -> Q.

Lemma schedule_snoc n : forall first,
  first + Z.of_nat n < maxAttempts config ->
  schedule config random (S (S n)) first
  = schedule config random (S n) first
      ++ sleepAfter config random (first + Z.of_nat n) ++ [Fetch (first + Z.of_nat n + 1)].
Proof.
  induction n as [|n IH]; intros first Hlt.
  - cbn [schedule]. unfold sleepAfter. rewrite Z.add_0_r.
    replace (first <? maxAttempts config) with true by (symmetry; apply Z.ltb_lt; lia).
    reflexivity.
  - change (schedule config random (S (S (S n))) first)
      with (Fetch first
              :: Sleep (addJitter (backoffDelay config first) (jitterPercent config) (random first))
              :: schedule config random (S (S n)) (first + 1)).
    rewrite IH by lia.
    change (schedule config random (S (S n)) first)
      with (Fetch first
              :: Sleep (addJitter (backoffDelay config first) (jitterPercent config) (random first))
              :: schedule config random (S n) (first + 1)).
    replace (first + 1 + Z.of_nat n) with (first + Z.of_nat (S n)) by lia.
    reflexivity.
Qed.

(** The loop, once the attempts [first .. first + n - 1] have all asked
    for a retry, is at attempt [first + n] with the trace of the
    schedule. *)
Lemma retryLoop_until n : forall first turns lastError trace,
  (n < turns)%nat -> first + Z.of_nat n <= maxAttempts config ->
  (forall i, first <= i < first + Z.of_nat n ->
     exists e, attemptOnce input i (fetch i) = Continue e) ->
  let k := first + Z.of_nat n in
  retryLoop config input fetch random turns first lastError trace
  = match attemptOnce input k (fetch k) with
    | Return data => (Resolves data, trace ++ schedule config random (S n) first)
    | ThrowOut e => (Rejects e, trace ++ schedule config random (S n) first)
    | Continue e =>
      retryLoop config input fetch random (turns - S n) (k + 1) (Some e)
        (trace ++ schedule config random (S n) first ++ sleepAfter config random k)
    end.
Proof.
  induction n as [|n IH]; intros first turns lastError trace Hturns Hmax Hcont k.
  - subst k. rewrite Z.add_0_r in *. destruct turns as [|turns]; [lia|].
    cbn [retryLoop schedule].
    replace (first <=? maxAttempts config) with true by (symmetry; apply Z.leb_le; lia).
    destruct (attemptOnce input first (fetch first)); try reflexivity.
    rewrite Nat.sub_succ, Nat.sub_0_r. unfold sleepAfter.
    destruct (first <? maxAttempts config); rewrite <- ?app_assoc; reflexivity.
  - destruct turns as [|turns]; [lia|].
    destruct (Hcont first ltac:(lia)) as [e He].
    cbn [retryLoop].
    replace (first <=? maxAttempts config) with true by (symmetry; apply Z.leb_le; lia).
    rewrite He.
    replace (first <? maxAttempts config) with true by (symmetry; apply Z.ltb_lt; lia).
    rewrite (IH (first + 1) turns) by (try lia; intros i Hi; apply Hcont; lia).
    subst k. replace (first + 1 + Z.of_nat n) with (first + Z.of_nat (S n)) by lia.
    change (schedule config random (S (S n)) first)
      with (Fetch first
              :: Sleep (addJitter (backoffDelay config first) (jitterPercent config) (random first))
              :: schedule config random (S n) (first + 1)).
    rewrite Nat.sub_succ.
    destruct (attemptOnce input (first + Z.of_nat (S n)) (fetch (first + Z.of_nat (S n))));
      rewrite <- ?app_assoc; reflexivity.
Qed.

Lemma retryLoop_extends turns : forall attempt lastError trace,
  exists more,
    snd (retryLoop config input fetch random turns attempt lastError trace) = trace ++ more.
Proof.
  induction turns as [|turns IH]; intros attempt lastError trace.
  - exists []. cbn. rewrite app_nil_r. reflexivity.
  - cbn [retryLoop]. destruct (attempt <=? maxAttempts config).
    + destruct (attemptOnce input attempt (fetch attempt)).
      * eexists. reflexivity.
      * eexists. reflexivity.
      * destruct (IH (attempt + 1) (Some lastError0)
                    (if attempt <? maxAttempts config
                     then (trace ++ [Fetch attempt])
                            ++ [Sleep (addJitter (backoffDelay config attempt)
                                         (jitterPercent config) (random attempt))]
                     else trace ++ [Fetch attempt])) as [more Hmore].
        rewrite Hmore. destruct (attempt <? maxAttempts config);
          rewrite <- ?app_assoc; eexists; reflexivity.
    + exists []. cbn. rewrite app_nil_r. reflexivity.
Qed.

Lemma schedule_last n : forall first,
  last (schedule config random (S n) first) = Some (Fetch (first + Z.of_nat n)).
Proof.
  induction n as [|n IH]; intros first.
  - cbn. rewrite Z.add_0_r. reflexivity.
  - change (schedule config random (S (S n)) first)
      with (Fetch first
              :: Sleep (addJitter (backoffDelay config first) (jitterPercent config) (random first))
              :: schedule config random (S n) (first + 1)).
    rewrite !last_cons, IH. replace (first + 1 + Z.of_nat n) with (first + Z.of_nat (S n)) by lia.
    reflexivity.
Qed.


(** The run when the attempts before [k] all ask for a retry and attempt
    [k] is the last one made. *)
Lemma run_through k :
  1 <= k <= maxAttempts config ->
  (forall i, 1 <= i < k -> exists e, attemptOnce input i (fetch i) = Continue e) ->
  fetchJsonWithRetry config input fetch random
  = match attemptOnce input k (fetch k) with
    | Return data => (Resolves data, schedule config random (Z.to_nat k) 1)
    | ThrowOut e => (Rejects e, schedule config random (Z.to_nat k) 1)
    | Continue e =>
      retryLoop config input fetch random
        (S (Z.to_nat (maxAttempts config)) - Z.to_nat k) (k + 1) (Some e)
        (schedule config random (Z.to_nat k) 1 ++ sleepAfter config random k)
    end.
Proof.
  intros Hk Hcont. unfold fetchJsonWithRetry.
  rewrite (retryLoop_until (Z.to_nat (k - 1)) 1) by (try lia; intros i Hi; apply Hcont; lia).
  replace (1 + Z.of_nat (Z.to_nat (k - 1))) with k by lia.
  replace (S (Z.to_nat (k - 1))) with (Z.to_nat k) by lia.
  reflexivity.
Qed.

End Run.

Section Rationals.

Local Open Scope Q_scope.








End Rationals.



(** C3, amended.  In fetchJsonWithRetry a 5xx response is retryable: when
    attempts remain, a further attempt is made.  A 429 response and any
    other non-2xx response are thrown at once, with no further attempt;
    for a 429 the error thrown has the code RATE_LIMITED and carries as
    retryAfterSec the integer read from the Retry-After header, when the
    header is present and starts with a number. *)
Theorem retry_classification config input fetch random k r :
  1 <= k <= maxAttempts config ->
  (forall i, 1 <= i < k -> exists e, attemptOnce input i (fetch i) = Continue e) ->
  fetch k = Resolved r -> ok r = false ->
  let run := fetchJsonWithRetry config input fetch random in
  (serverError (resp_status r) = true -> k < maxAttempts config ->
     isRetryableError (ThrownApi (httpError input k r)) (Some (resp_status r)) = true
     /\ In (Fetch (k + 1)) (snd run))
  /\ (resp_status r = 429 ->
      run = (Rejects (rateLimited input k r), schedule config random (Z.to_nat k) 1)
      /\ code (rateLimited input k r) = RATE_LIMITED
      /\ retryAfterSec (rateLimited input k r)
         = match retryAfterHeader r with
           | Some header => if Dispatch.nonEmpty header then parseInt header else None
           | None => None
           end)
  /\ (resp_status r <> 429 -> serverError (resp_status r) = false ->
      run = (Rejects (httpError input k r), schedule config random (Z.to_nat k) 1))
  /\ last (schedule config random (Z.to_nat k) 1) = Some (Fetch k).
Proof.
  intros Hk Hcont Hf Hok run. subst run.
  rewrite (run_through config input fetch random k Hk Hcont), Hf.
  split; [|split; [|split]].
  - intros H5 Hlt. rewrite (attemptOnce_5xx input k r H5). split.
    + unfold isRetryableError, serverError in *. cbn.
      destruct (resp_status r =? 429); [reflexivity|]. rewrite H5. reflexivity.
    + replace (S (Z.to_nat (maxAttempts config)) - Z.to_nat k)%nat
        with (S (Z.to_nat (maxAttempts config) - Z.to_nat k)) by lia.
      cbn [retryLoop].
      replace (k + 1 <=? maxAttempts config) with true by (symmetry; apply Z.leb_le; lia).
      destruct (attemptOnce input (k + 1) (fetch (k + 1))) as [d|e|e]; cbn [snd].
      * apply in_or_app. right. left. reflexivity.
      * apply in_or_app. right. left. reflexivity.
      * match goal with |- In _ (snd (retryLoop _ _ _ _ ?t ?a ?l ?tr)) =>
          destruct (retryLoop_extends config input fetch random t a l tr) as [more ->]
        end.
        apply in_or_app. left.
        destruct (k + 1 <? maxAttempts config); rewrite ?in_app_iff; cbn; auto.
  - intros H429. rewrite (attemptOnce_429 input k r H429). repeat split.
  - intros H429 H5. rewrite (attemptOnce_client_error input k r Hok H429 H5). reflexivity.
  - replace (Z.to_nat k) with (S (Z.to_nat (k - 1))) by lia.
    rewrite schedule_last. f_equal. f_equal. lia.
Qed.

Lemma retry_classification_witness :
  fetchJsonWithRetry DEFAULT_CONFIG "u" (always (Resolved notFound)) (fun _ => 0%Q)
  = (Rejects (httpError "u" 1 notFound), [Fetch 1]).
Proof.
  destruct (retry_classification DEFAULT_CONFIG "u" (always (Resolved notFound))
              (fun _ => 0%Q) 1 notFound) as (_ & _ & H & _).
  - cbn. lia.
  - intros i Hi. lia.
  - reflexivity.
  - reflexivity.
  - apply H; [discriminate|reflexivity].
Defined.

(** With three attempts allowed, a 429 answer to the first attempt ends
    the run: the error is thrown after one fetch. *)
Lemma rate_limit_is_not_retried :
  resp_status tooManyRequests = 429
  /\ 1 < maxAttempts DEFAULT_CONFIG
  /\ fetchJsonWithRetry DEFAULT_CONFIG "u" (always (Resolved tooManyRequests))
       (fun _ => 0%Q)
     = (Rejects (mkApiError "Rate limit: cooling down for ~7s" RATE_LIMITED "u" 1
                   (Some 429) (Some 7)),
        [Fetch 1]).
Proof. repeat split; vm_compute; reflexivity. Qed.

End TransportFacts.

(** ** The alert store *)

Module AlertStoreFacts.
Import Alerts AlertStore AlertsFacts.

Lemma filter_filter_and {A} (f g : A -> bool) (l : list A) :
  List.filter f (List.filter g l) = List.filter (fun a => g a && f a) l.
Proof.
  induction l as [|a l IH]; [reflexivity|]. cbn.
  destruct (g a); cbn; [destruct (f a)|]; rewrite ?IH; reflexivity.
Qed.

Lemma filter_all {A} (f : A -> bool) (l : list A) :
  (forall a, In a l -> f a = true) -> List.filter f l = l.
Proof.
  induction l as [|a l IH]; intros H; [reflexivity|]. cbn.
  rewrite (H a) by (left; reflexivity). f_equal. apply IH.
  intros b Hb. apply H. right. exact Hb.
Qed.

Lemma filter_none {A} (f : A -> bool) (l : list A) :
  (forall a, In a l -> f a = false) -> List.filter f l = [].
Proof.
  induction l as [|a l IH]; intros H; [reflexivity|]. cbn.
  rewrite (H a) by (left; reflexivity). apply IH.
  intros b Hb. apply H. right. exact Hb.
Qed.

(** X1.  Deleting several alerts at once is deleting them one after the
    other. *)
Theorem deleteAlerts_is_iterated_deleteAlert ids : forall store,
  deleteAlerts store ids = fold_left deleteAlert ids store.
Proof.
  induction ids as [|i ids IH]; intros store.
  - cbn. unfold deleteAlerts. apply filter_all. intros a _.
    rewrite bool_decide_false; [reflexivity|]. cbn. apply not_elem_of_empty.
  - cbn [fold_left]. rewrite <- IH. unfold deleteAlerts, deleteAlert.
    rewrite filter_filter_and. apply List.filter_ext. intros a.
    cbn [list_to_set foldr].
    destruct (String.eqb_spec (alert_id a) i) as [Heq|Hne]; cbn [negb andb].
    + rewrite bool_decide_true; [reflexivity|].
      apply elem_of_union. left. apply elem_of_singleton. exact Heq.
    + f_equal. apply bool_decide_ext. rewrite elem_of_union, elem_of_singleton.
      split; [intros [H|H]; [done|exact H]|auto].
Qed.

Lemma deleteAlert_unknown store i :
  i ∉ map alert_id store -> deleteAlert store i = store.
Proof.
  intros H. apply filter_all. intros a Ha.
  destruct (String.eqb_spec (alert_id a) i) as [Heq|Hne]; [|reflexivity].
  exfalso. apply H. rewrite <- Heq. apply list_elem_of_In, in_map, Ha.
Qed.

(** X2.  A created alert is stored active under the generated id, and
    deleting it gives back the store as it was. *)
Theorem create_then_delete_round_trip store newId alert :
  newId ∉ map alert_id store ->
  let created := fst (createAlert store newId alert) in
  let store' := snd (createAlert store newId alert) in
  alert_id created = newId /\ status created = active
  /\ List.filter (fun a => String.eqb (alert_id a) newId) store' = [created]
  /\ deleteAlert store' newId = store.
Proof.
  intros Hfresh created store'. subst created store'. cbn [createAlert fst snd].
  split; [reflexivity|]. split; [reflexivity|]. split.
  - rewrite List.filter_app. cbn. rewrite String.eqb_refl.
    rewrite filter_none; [reflexivity|]. intros a Ha.
    destruct (String.eqb_spec (alert_id a) newId) as [Heq|Hne]; [|reflexivity].
    exfalso. apply Hfresh. rewrite <- Heq. apply list_elem_of_In, in_map, Ha.
  - unfold deleteAlert. rewrite List.filter_app. cbn. rewrite String.eqb_refl. cbn.
    rewrite app_nil_r. apply deleteAlert_unknown, Hfresh.
Qed.

Lemma create_then_delete_round_trip_witness :
  deleteAlert (snd (createAlert [samplePriceCross] "n1" sampleTrailing)) "n1"
  = [samplePriceCross].
Proof.
  apply (create_then_delete_round_trip [samplePriceCross] "n1" sampleTrailing).
  cbn. intros H. apply list_elem_of_singleton in H. discriminate.
Defined.

Lemma NoDup_deleteAlert store i :
  NoDup (map alert_id store) -> NoDup (map alert_id (deleteAlert store i)).
Proof. apply NoDup_filter_ids. Qed.

(** X3.  Every operation on the store, and every evaluation pass, keeps
    the ids distinct. *)
Theorem store_operations_keep_ids_distinct store :
  NoDup (map alert_id store) ->
  (forall newId alert, newId ∉ map alert_id store ->
     NoDup (map alert_id (snd (createAlert store newId alert))))
  /\ (forall i u, NoDup (map alert_id (updateAlert store i u)))
  /\ (forall i, NoDup (map alert_id (deleteAlert store i)))
  /\ (forall ids, NoDup (map alert_id (deleteAlerts store ids)))
  /\ (forall now pd guard effects,
        NoDup (map alert_id
                 (Alerts.store (evalPass now pd (mkEngine store guard effects))))).
Proof.
  intros Hnd. split; [|split; [|split; [|split]]].
  - intros newId alert Hfresh. cbn [createAlert snd]. rewrite map_app. cbn.
    apply NoDup_app. split; [exact Hnd|]. split.
    + intros x Hx Hx'. apply list_elem_of_singleton in Hx'. subst x. done.
    + apply NoDup_singleton.
  - intros i u. rewrite updateAlert_ids. exact Hnd.
  - intros i. apply NoDup_filter_ids, Hnd.
  - intros ids. apply NoDup_filter_ids, Hnd.
  - intros now pd guard effects. rewrite evalPass_ids. exact Hnd.
Qed.

Lemma store_operations_keep_ids_distinct_witness :
  NoDup (map alert_id (deleteAlerts [samplePriceCross; sampleTrailing] ["a1"])).
Proof.
  apply (store_operations_keep_ids_distinct [samplePriceCross; sampleTrailing]).
  cbn. apply NoDup_cons. split; [|apply NoDup_singleton].
  intros H. apply list_elem_of_singleton in H. discriminate.
Defined.

End AlertStoreFacts.

(** ** Invariants of the alert evaluation engine *)

Module EngineFacts.
Import Alerts AlertStore AlertsFacts.

Lemma status_active_dec (a : LocalAlert) : status a = active \/ status a <> active.
Proof. destruct (status a); auto; right; discriminate. Qed.

(** A pass leaves alone an alert that it does not evaluate, or for which
    the loop body decides nothing. *)
Lemma untouched_pass now pd st a :
  NoDup (map alert_id (store st)) -> a ∈ store st ->
  (status a = active -> decideAction pd a = Skip) ->
  view (alert_id a) (evalPass now pd st) = view (alert_id a) st.
Proof.
  intros Hnd Hin Hskip. destruct (status_active_dec a) as [Hact|Hact].
  - rewrite evalPass_view by assumption. unfold viewStep, view.
    destruct (bool_decide (alert_id a ∈ triggeredIds st)); [reflexivity|].
    rewrite (Hskip Hact). reflexivity.
  - apply evalPass_view_inactive. intros b Hb Hi.
    rewrite (stored_singleton_only _ _ _ _ (stored_unique _ _ Hnd Hin) Hb Hi).
    exact Hact.
Qed.

Lemma untouched_run a ticks : forall st,
  NoDup (map alert_id (store st)) -> a ∈ store st ->
  (forall t, t ∈ ticks -> status a = active -> decideAction (snd t) a = Skip) ->
  view (alert_id a) (runPasses ticks st) = view (alert_id a) st.
Proof.
  induction ticks as [|t ticks IH]; intros st Hnd Hin Hskip; [reflexivity|].
  cbn [runPasses fold_left].
  assert (Hstep : view (alert_id a) (evalPass (fst t) (snd t) st) = view (alert_id a) st).
  { apply untouched_pass; [assumption..|]. apply Hskip, elem_of_cons. left. reflexivity. }
  fold (runPasses ticks (evalPass (fst t) (snd t) st)).
  rewrite IH; [exact Hstep| | |].
  - rewrite evalPass_ids. exact Hnd.
  - apply (stored_singleton_In (alert_id a)).
    pose proof Hstep as Hs. unfold view in Hs. injection Hs as Hs _ _. rewrite Hs.
    apply stored_unique; assumption.
  - intros t' Ht'. apply Hskip, elem_of_cons. right. exact Ht'.
Qed.

Lemma view_parts i st st' :
  view i st' = view i st ->
  stored i st' = stored i st
  /\ (i ∈ triggeredIds st' <-> i ∈ triggeredIds st)
  /\ effectsOf i (log st') = effectsOf i (log st).
Proof.
  unfold view. intros H. injection H as Hs Hg He. split; [exact Hs|]. split; [|exact He].
  rewrite <- (bool_decide_eq_true (i ∈ triggeredIds st')).
  rewrite <- (bool_decide_eq_true (i ∈ triggeredIds st)).
  rewrite Hg. reflexivity.
Qed.

(** X4.  An alert that is cancelled or already triggered is never
    modified, never enters or leaves the trigger guard and never emits an
    effect, whatever prices arrive. *)
Theorem inactive_alert_is_never_touched st a ticks :
  NoDup (map alert_id (store st)) -> a ∈ store st -> status a <> active ->
  stored (alert_id a) (runPasses ticks st) = [a]
  /\ (alert_id a ∈ triggeredIds (runPasses ticks st) <-> alert_id a ∈ triggeredIds st)
  /\ effectsOf (alert_id a) (log (runPasses ticks st)) = effectsOf (alert_id a) (log st).
Proof.
  intros Hnd Hin Hact.
  destruct (view_parts _ _ _ (untouched_run a ticks st Hnd Hin ltac:(intros; done)))
    as (Hs & Hg & He).
  split; [|split]; [|exact Hg|exact He].
  rewrite Hs. apply stored_unique; assumption.
Qed.

Lemma inactive_alert_is_never_touched_witness :
  stored "c1" (runPasses [(1%Z, tick "BTCUSDT" 150)] (mount [cancelledAlert]))
  = [cancelledAlert].
Proof.
  apply (inactive_alert_is_never_touched (mount [cancelledAlert]) cancelledAlert
           [(1%Z, tick "BTCUSDT" 150)]).
  - apply NoDup_singleton.
  - apply list_elem_of_singleton. reflexivity.
  - discriminate.
Defined.

Lemma decideAction_volume_spike pd a :
  alert_type a = volume_spike -> decideAction pd a = Skip.
Proof.
  intros H. unfold decideAction. destruct (pd !! symbol a); [|reflexivity].
  rewrite H. reflexivity.
Qed.

(** X5.  A volume_spike alert is never evaluated, and neither is an alert
    whose symbol has no price in the feed: over any run of passes its
    stored record stays as it is and no effect is emitted for it. *)
Theorem unevaluated_alert_is_untouched st a ticks :
  NoDup (map alert_id (store st)) -> a ∈ store st ->
  alert_type a = volume_spike \/ (forall t, t ∈ ticks -> snd t !! symbol a = None) ->
  stored (alert_id a) (runPasses ticks st) = [a]
  /\ (alert_id a ∈ triggeredIds (runPasses ticks st) <-> alert_id a ∈ triggeredIds st)
  /\ effectsOf (alert_id a) (log (runPasses ticks st)) = effectsOf (alert_id a) (log st).
Proof.
  intros Hnd Hin Hcase.
  assert (Hskip : forall t, t ∈ ticks -> status a = active -> decideAction (snd t) a = Skip).
  { intros t Ht _. destruct Hcase as [Hty|Hno].
    - apply decideAction_volume_spike, Hty.
    - apply decideAction_no_price, Hno, Ht. }
  destruct (view_parts _ _ _ (untouched_run a ticks st Hnd Hin Hskip)) as (Hs & Hg & He).
  split; [|split]; [|exact Hg|exact He].
  rewrite Hs. apply stored_unique; assumption.
Qed.

Lemma unevaluated_alert_is_untouched_witness :
  let a := exampleAlert "v1" volume_spike above 100 None None in
  stored "v1" (runPasses [(1%Z, tick "BTCUSDT" 150)] (mount [a])) = [a].
Proof.
  intros a.
  apply (unevaluated_alert_is_untouched (mount [a]) a [(1%Z, tick "BTCUSDT" 150)]).
  - apply NoDup_singleton.
  - apply list_elem_of_singleton. reflexivity.
  - left. reflexivity.
Defined.

Lemma absent_run i ticks : forall st,
  i ∉ map alert_id (store st) -> view i (runPasses ticks st) = view i st.
Proof.
  induction ticks as [|t ticks IH]; intros st Hno; [reflexivity|].
  cbn [runPasses fold_left]. fold (runPasses ticks (evalPass (fst t) (snd t) st)).
  rewrite IH by (rewrite evalPass_ids; exact Hno).
  apply evalPass_view_inactive. intros b Hb Hi. exfalso. apply Hno.
  rewrite <- Hi. apply list_elem_of_In, in_map, list_elem_of_In, Hb.
Qed.

(** X6.  Once an alert is deleted, no pass emits an effect for its id any
    more, and no record with that id reappears. *)
Theorem deleted_alert_never_triggers st i ticks :
  let st' := withStore (deleteAlert (store st) i) st in
  stored i (runPasses ticks st') = []
  /\ effectsOf i (log (runPasses ticks st')) = effectsOf i (log st)
  /\ (i ∈ triggeredIds (runPasses ticks st') <-> i ∈ triggeredIds st).
Proof.
  intros st'.
  assert (Hno : i ∉ map alert_id (store st')).
  { subst st'. cbn [withStore store]. intros Hin.
    apply list_elem_of_In, in_map_iff in Hin as (b & Hb & Hin).
    apply filter_In in Hin as [_ Hf]. rewrite Hb, String.eqb_refl in Hf. discriminate. }
  destruct (view_parts _ _ _ (absent_run i ticks st' Hno)) as (Hs & Hg & He).
  split; [|split]; [|exact He|exact Hg].
  rewrite Hs. subst st'. unfold stored, deleteAlert. cbn [withStore store].
  rewrite AlertStoreFacts.filter_filter_and. apply AlertStoreFacts.filter_none.
  intros a _. destruct (String.eqb (alert_id a) i); reflexivity.
Qed.


(** *** No trade without the opt-in *)

Lemma updateAlert_elem s i u b :
  b ∈ updateAlert s i u -> exists c, c ∈ s /\ (b = c \/ b = applyPatch c u).
Proof.
  intros Hb. apply list_elem_of_In, in_map_iff in Hb as (c & Hc & Hin).
  exists c. split; [apply list_elem_of_In, Hin|].
  destruct (String.eqb (alert_id c) i); auto.
Qed.

Lemma Src_update seen s i u :
  (forall b, b ∈ s -> Src seen b) -> forall b, b ∈ updateAlert s i u -> Src seen b.
Proof.
  intros H b Hb. apply updateAlert_elem in Hb as (c & Hc & [->| ->]); [apply H, Hc|].
  destruct (H c Hc) as (a & Ha & Hid & Hte). exists a. auto.
Qed.

Lemma trade_in_triggerEffects i a :
  ETradeDispatch i ∈ triggerEffects a -> alert_id a = i /\ trade_enabled a = Some true.
Proof.
  unfold triggerEffects. intros H. apply elem_of_app in H as [H|H].
  - repeat (apply elem_of_cons in H as [H|H]; [discriminate|]).
    apply elem_of_nil in H as [].
  - destruct (trade_enabled a) as [[|]|]; cbn in H.
    + apply list_elem_of_singleton in H. injection H as ->. auto.
    + apply elem_of_nil in H as [].
    + apply elem_of_nil in H as [].
Qed.

Lemma OptIn_perform seen now a act st :
  Src seen a -> OptIn seen st -> OptIn seen (perform now a act st).
Proof.
  intros Ha [Hs Hl]. destruct act as [| |h t]; [split; assumption| |];
    cbn [perform]; split; cbn [store log].
  - apply Src_update, Hs.
  - intros i Hi. apply elem_of_app in Hi as [Hi|Hi]; [apply Hl, Hi|].
    apply trade_in_triggerEffects in Hi as [Hid Hte].
    destruct Ha as (a0 & Hin & Hid0 & Hte0). exists a0. split; [exact Hin|]. split; congruence.
  - apply Src_update, Hs.
  - exact Hl.
Qed.

Lemma OptIn_checkAlert seen now pd st a :
  Src seen a -> OptIn seen st -> OptIn seen (checkAlert now pd st a).
Proof.
  intros Ha Hinv. destruct (decide (alert_id a ∈ triggeredIds st)).
  - rewrite checkAlert_guarded by assumption. exact Hinv.
  - rewrite checkAlert_perform by assumption. apply OptIn_perform; assumption.
Qed.

Lemma OptIn_fold seen now pd l : forall st,
  (forall a, a ∈ l -> Src seen a) -> OptIn seen st ->
  OptIn seen (fold_left (checkAlert now pd) l st).
Proof.
  induction l as [|a l IH]; intros st Hl Hinv; [exact Hinv|]. cbn.
  apply IH; [intros b Hb; apply Hl, elem_of_cons; right; exact Hb|].
  apply OptIn_checkAlert; [|exact Hinv]. apply Hl, elem_of_cons. left. reflexivity.
Qed.

Lemma OptIn_evalPass seen now pd st : OptIn seen st -> OptIn seen (evalPass now pd st).
Proof.
  intros Hinv. unfold evalPass. destruct (size pd =? 0)%nat; [exact Hinv|].
  destruct (length _ =? 0)%nat; [exact Hinv|].
  apply OptIn_fold; [|exact Hinv]. intros a Ha.
  apply list_elem_of_In, filter_In in Ha as [Ha _]. apply (proj1 Hinv), list_elem_of_In, Ha.
Qed.

Lemma OptIn_mono seen more st : OptIn seen st -> OptIn (seen ++ more) st.
Proof.
  intros [Hs Hl]. split.
  - intros b Hb. destruct (Hs b Hb) as (a & Ha & H). exists a.
    split; [apply elem_of_app; left; exact Ha|exact H].
  - intros i Hi. destruct (Hl i Hi) as (a & Ha & H). exists a.
    split; [apply elem_of_app; left; exact Ha|exact H].
Qed.

Lemma OptIn_runSession evs : forall seen st,
  OptIn seen st -> OptIn (seen ++ written evs) (runSession evs st).
Proof.
  induction evs as [|ev evs IH]; intros seen st Hinv.
  - cbn. rewrite app_nil_r. exact Hinv.
  - destruct ev as [now pd|alerts]; cbn [runSession fold_left sessionStep written].
    + apply (IH seen), OptIn_evalPass, Hinv.
    + rewrite app_assoc. apply IH. split; cbn [store log].
      * intros b Hb. exists b. split; [apply elem_of_app; right; exact Hb|auto].
      * apply (OptIn_mono seen alerts st Hinv).
Qed.

(** X7.  A trade is dispatched only for an alert that was persisted with
    trade_enabled set to true: in any session, whatever the prices and
    the writes to the store, every trade dispatch in the log names an id
    under which such an alert was persisted, at the mount or by a later
    write. *)
Theorem no_trade_without_opt_in alerts evs i :
  ETradeDispatch i ∈ log (runSession evs (mount alerts)) ->
  exists a, a ∈ alerts ++ written evs /\ alert_id a = i /\ trade_enabled a = Some true.
Proof.
  intros Hi. apply (OptIn_runSession evs alerts (mount alerts)); [|exact Hi].
  split; cbn.
  - intros b Hb. exists b. auto.
  - intros j Hj. apply elem_of_nil in Hj as [].
Qed.

Lemma no_trade_without_opt_in_witness :
  exists a, a ∈ [sampleTrade] ++ written [PriceUpdate 1 (tick "BTCUSDT" 150)]
            /\ alert_id a = "x1" /\ trade_enabled a = Some true.
Proof.
  apply (no_trade_without_opt_in [sampleTrade] [PriceUpdate 1 (tick "BTCUSDT" 150)] "x1").
  vm_compute. apply list_elem_of_In. cbn. auto 10.
Defined.


(** *** The trigger guard and the store agree *)

Lemma stored_cases st i :
  NoDup (map alert_id (store st)) ->
  stored i st = [] \/ exists a, a ∈ store st /\ alert_id a = i /\ stored i st = [a].
Proof.
  intros Hnd. destruct (decide (i ∈ map alert_id (store st))) as [Hin|Hout].
  - right. apply list_elem_of_In, in_map_iff in Hin as (a & Ha & Hin).
    apply list_elem_of_In in Hin. exists a. split; [exact Hin|]. split; [exact Ha|].
    rewrite <- Ha. apply stored_unique; assumption.
  - left. apply AlertStoreFacts.filter_none. intros a Ha.
    destruct (String.eqb_spec (alert_id a) i) as [Heq|Hne]; [|reflexivity].
    exfalso. apply Hout. rewrite <- Heq. apply list_elem_of_In, in_map, Ha.
Qed.

Lemma Recorded_mono l l' st :
  (forall x, x ∈ l -> x ∈ l') -> Recorded l st -> Recorded l' st.
Proof.
  intros Hsub Hrec i Hi. destruct (Hrec i Hi) as (b & tm & Htm & H).
  exists b, tm. split; [apply Hsub, Htm|exact H].
Qed.

Lemma Recorded_evalPass times now pd st :
  NoDup (map alert_id (store st)) -> Once st -> Recorded times st ->
  Recorded (now :: times) (evalPass now pd st).
Proof.
  intros Hnd Hon Hrec i Hi.
  destruct (decide (i ∈ triggeredIds st)) as [Hold|Hnew].
  - destruct (Hrec i Hold) as (b & tm & Htm & Hs & Hst & Hat & He).
    assert (Hv : view i (evalPass now pd st) = view i st).
    { apply evalPass_view_inactive. intros c Hc Hci.
      rewrite (stored_singleton_only _ _ _ _ Hs Hc Hci), Hst. discriminate. }
    destruct (view_parts _ _ _ Hv) as (Hs' & _ & He'). exists b, tm.
    rewrite Hs', He'. split; [apply elem_of_cons; right; exact Htm|auto].
  - destruct (stored_cases st i Hnd) as [Hnone|(a & Hin & Hid & Hs)].
    + exfalso. apply Hnew.
      assert (Hv : view i (evalPass now pd st) = view i st).
      { apply evalPass_view_inactive. intros c Hc Hci. exfalso.
        assert (Hc' : In c (stored i st)).
        { apply filter_In. split; [apply list_elem_of_In, Hc|apply String.eqb_eq, Hci]. }
        rewrite Hnone in Hc'. destruct Hc'. }
      apply (view_parts _ _ _ Hv), Hi.
    + subst i. destruct (status_active_dec a) as [Hact|Hact].
      * pose proof (pass_outcome now pd st a Hnd Hin Hact Hnew) as Hout.
        destruct (decideAction pd a) as [| |h t].
        -- destruct Hout as (Hg & _). done.
        -- destruct Hout as (_ & Hs' & He').
           exists (applyPatch a (triggerPatch now)), now.
           split; [apply elem_of_cons; left; reflexivity|].
           split; [exact Hs'|]. split; [reflexivity|]. split; [reflexivity|].
           rewrite He'. destruct (Hon (alert_id a)) as [Hnil|[Hg _]]; [|done].
           rewrite Hnil. reflexivity.
        -- destruct Hout as (Hg & _). done.
      * exfalso. apply Hnew.
        apply (view_parts _ _ _ (untouched_pass now pd st a Hnd Hin ltac:(intros; done))), Hi.
Qed.

Lemma runPasses_ids ticks : forall st,
  map alert_id (store (runPasses ticks st)) = map alert_id (store st).
Proof.
  induction ticks as [|t ticks IH]; intros st; [reflexivity|].
  cbn [runPasses fold_left]. fold (runPasses ticks (evalPass (fst t) (snd t) st)).
  rewrite IH. apply evalPass_ids.
Qed.

Lemma Once_runPasses ticks : forall st, Once st -> Once (runPasses ticks st).
Proof.
  induction ticks as [|t ticks IH]; intros st Hon; [exact Hon|].
  cbn [runPasses fold_left]. fold (runPasses ticks (evalPass (fst t) (snd t) st)).
  apply IH, Once_evalPass, Hon.
Qed.

Lemma Recorded_runPasses ticks : forall times st,
  NoDup (map alert_id (store st)) -> Once st -> Recorded times st ->
  Recorded (map fst ticks ++ times) (runPasses ticks st).
Proof.
  induction ticks as [|t ticks IH]; intros times st Hnd Hon Hrec; [exact Hrec|].
  cbn [runPasses fold_left]. fold (runPasses ticks (evalPass (fst t) (snd t) st)).
  apply (Recorded_mono (map fst ticks ++ fst t :: times)).
  - intros x Hx. cbn [map app]. apply elem_of_app in Hx as [Hx|Hx].
    + apply elem_of_cons. right. apply elem_of_app. left. exact Hx.
    + apply elem_of_cons in Hx as [->|Hx]; [apply elem_of_cons; left; reflexivity|].
      apply elem_of_cons. right. apply elem_of_app. right. exact Hx.
  - apply IH; [rewrite evalPass_ids; exact Hnd|apply Once_evalPass, Hon|].
    apply Recorded_evalPass; assumption.
Qed.

(** X8.  The trigger guard, the store and the log agree.  After any run of
    passes from the mount over a store with distinct ids, every id in the
    trigger guard is the id of a persisted alert whose status is
    triggered, stamped with the time of one of the passes, and the log
    holds for it exactly the effects of one trigger. *)
Theorem guarded_ids_are_persisted_triggered alerts ticks i :
  NoDup (map alert_id alerts) ->
  i ∈ triggeredIds (runPasses ticks (mount alerts)) ->
  i ∈ map alert_id alerts
  /\ exists b tm,
       tm ∈ map fst ticks
       /\ stored i (runPasses ticks (mount alerts)) = [b]
       /\ status b = triggered /\ triggered_at b = Some tm
       /\ effectsOf i (log (runPasses ticks (mount alerts))) = triggerEffects b.
Proof.
  intros Hnd Hi.
  assert (Hrec : Recorded (map fst ticks ++ []) (runPasses ticks (mount alerts))).
  { apply Recorded_runPasses; [exact Hnd| |].
    - intros j. left. reflexivity.
    - intros j Hj. cbn in Hj. apply elem_of_empty in Hj as []. }
  rewrite app_nil_r in Hrec. destruct (Hrec i Hi) as (b & tm & Htm & Hs & H).
  split; [|exists b, tm; auto].
  pose proof (runPasses_ids ticks (mount alerts)) as Hids.
  change (store (mount alerts)) with alerts in Hids. rewrite <- Hids.
  assert (Hb : In b (stored i (runPasses ticks (mount alerts)))) by (rewrite Hs; left; reflexivity).
  apply filter_In in Hb as [Hb Hid]. apply String.eqb_eq in Hid. rewrite <- Hid.
  apply list_elem_of_In, in_map, Hb.
Qed.

Lemma guarded_ids_are_persisted_triggered_witness :
  "a1" ∈ map alert_id [samplePriceCross]
  /\ exists b tm,
       tm ∈ map fst [(7%Z, tick "BTCUSDT" 100)]
       /\ stored "a1" (runPasses [(7%Z, tick "BTCUSDT" 100)] (mount [samplePriceCross])) = [b]
       /\ status b = triggered /\ triggered_at b = Some tm
       /\ effectsOf "a1" (log (runPasses [(7%Z, tick "BTCUSDT" 100)] (mount [samplePriceCross])))
          = triggerEffects b.
Proof.
  apply (guarded_ids_are_persisted_triggered [samplePriceCross]
           [(7%Z, tick "BTCUSDT" 100)] "a1").
  - apply NoDup_singleton.
  - vm_compute. reflexivity.
Defined.

End EngineFacts.

(** ** The alarm *)

Module AlarmFacts.
Import Alarm.

Ltac open_sound s :=
  destruct s as [li ac aa live ctxs ni nc pl]; unfold Tidy in *; cbn in *.

Ltac tidy_cases :=
  repeat match goal with
  | H : _ /\ _ |- _ => destruct H
  | li : option nat |- _ => destruct li
  end;
  subst; cbn; rewrite ?Nat.eqb_refl; cbn.

Lemma Tidy_playAlarmPattern prefs avail s : Tidy s -> Tidy (playAlarmPattern prefs avail s).
Proof.
  intros H. unfold playAlarmPattern. open_sound s.
  destruct (sound_enabled prefs), avail; tidy_cases; repeat split; tauto.
Qed.

Lemma Tidy_silence s : Tidy s -> Tidy (silence s).
Proof.
  intros H. unfold silence, remove. open_sound s. tidy_cases; repeat split; tauto.
Qed.

Lemma Tidy_startPersistentAlarm prefs avail d i s :
  Tidy s -> Tidy (startPersistentAlarm prefs avail d i s).
Proof.
  intros H. unfold startPersistentAlarm, playAlarmPattern, remove. open_sound s.
  destruct (sound_enabled prefs), avail; tidy_cases;
    repeat split; try tauto; discriminate.
Qed.

Lemma Tidy_step s ev : Tidy s -> Tidy (soundStep s ev).
Proof.
  intros H. destruct ev as [prefs avail d i| |prefs avail h]; cbn.
  - unfold soundOnTrigger. destruct (persistent prefs).
    + apply Tidy_startPersistentAlarm, H.
    + apply Tidy_playAlarmPattern, H.
  - apply Tidy_silence, H.
  - destruct (bool_decide _); [apply Tidy_playAlarmPattern, H|exact H].
Qed.

Lemma Tidy_run evs : forall s, Tidy s -> Tidy (runSound evs s).
Proof.
  induction evs as [|ev evs IH]; intros s H; [exact H|]. cbn. apply IH, Tidy_step, H.
Qed.

(** X9.  The alarm never leaks a timer or an audio context.  Whatever
    alerts trigger, with whatever audio preferences, and whenever the
    user silences the alarm, at most one interval is set and it is the
    one in loopInterval, at most one audio context is open and it is the
    one in audioCtxRef, and the alarm is shown exactly while an interval
    is set; after silence nothing is left running. *)
Theorem alarm_never_leaks evs :
  Tidy (runSound evs initial)
  /\ let s := silence (runSound evs initial) in
     liveIntervals s = [] /\ openContexts s = [] /\ activeAlarm s = None
     /\ loopInterval s = None /\ audioCtxRef s = None.
Proof.
  assert (H : Tidy (runSound evs initial)).
  { apply Tidy_run. repeat split; auto. }
  split; [exact H|]. revert H. generalize (runSound evs initial). intros s H.
  unfold silence, remove. open_sound s. tidy_cases; repeat split; reflexivity.
Qed.

(** X10.  A persistent trigger replaces the alarm that is sounding: the
    interval of the earlier alarm is cleared, one new interval is set,
    and the alarm shown is the latest one. *)
Theorem latest_persistent_alarm_wins prefs avail d i s :
  Tidy s -> persistent prefs = true ->
  let s' := soundOnTrigger prefs avail d i s in
  activeAlarm s' = Some {| alarm_alertId := i; alarm_description := d |}
  /\ liveIntervals s' = [nextInterval s]
  /\ loopInterval s' = Some (nextInterval s).
Proof.
  intros H Hp s'. subst s'. unfold soundOnTrigger. rewrite Hp.
  unfold startPersistentAlarm, playAlarmPattern, remove. open_sound s.
  destruct (sound_enabled prefs), avail; tidy_cases; repeat split; reflexivity.
Qed.

Lemma latest_persistent_alarm_wins_witness :
  let s := runSound [Trigger loudPersistent true "first" "a1";
                     Trigger loudPersistent true "second" "a2"] initial in
  activeAlarm s = Some {| alarm_alertId := "a2"; alarm_description := "second" |}
  /\ liveIntervals s = [2].
Proof.
  intros s. subst s. cbn [runSound fold_left soundStep].
  destruct (latest_persistent_alarm_wins loudPersistent true "second" "a2"
              (soundOnTrigger loudPersistent true "first" "a1" initial))
    as (H1 & H2 & _).
  - vm_compute. repeat split; auto; discriminate.
  - reflexivity.
  - split; [exact H1|exact H2].
Defined.

End AlarmFacts.

(** ** The trailing-alert manager *)

Module TrailingManagerFacts.
Import Alerts AlertStore TrailingManager AlertsFacts.

Lemma find_updateAlert s i j u :
  List.find (fun a => String.eqb (alert_id a) i) (updateAlert s j u)
  = (fun b => if String.eqb (alert_id b) j then applyPatch b u else b)
      <$> List.find (fun a => String.eqb (alert_id a) i) s.
Proof.
  induction s as [|b s IH]; [reflexivity|]. cbn.
  destruct (String.eqb (alert_id b) j) eqn:Hj; cbn;
    destruct (String.eqb (alert_id b) i); cbn; rewrite ?Hj; try reflexivity; exact IH.
Qed.

Lemma find_head_filter {A} (f : A -> bool) (l : list A) :
  List.find f l = head (List.filter f l).
Proof.
  induction l as [|a l IH]; [reflexivity|]. cbn. destruct (f a); [reflexivity|exact IH].
Qed.

Lemma updateAlert_source s j u b :
  b ∈ updateAlert s j u ->
  exists c, c ∈ s /\ alert_id c = alert_id b
            /\ ((alert_id c = j /\ b = applyPatch c u) \/ (alert_id c <> j /\ b = c)).
Proof.
  intros Hb. apply list_elem_of_In, in_map_iff in Hb as (c & Hc & Hin).
  exists c. split; [apply list_elem_of_In, Hin|].
  destruct (String.eqb_spec (alert_id c) j) as [Hj|Hj]; subst b; split; auto.
Qed.

Lemma Armed_updateAlert i s j u : Armed i s -> Armed i (updateAlert s j u).
Proof.
  intros (b & Hb & Hte). unfold Armed. rewrite find_updateAlert, Hb. cbn.
  eexists. split; [reflexivity|]. destruct (String.eqb _ _); exact Hte.
Qed.

Lemma Settled_updateAlert i s j u :
  p_status u = None \/ p_status u = Some triggered ->
  Settled i s -> Settled i (updateAlert s j u).
Proof.
  intros Hu Hs b Hb Hi.
  apply updateAlert_source in Hb as (c & Hc & Hid & [[_ ->]|[_ ->]]).
  - cbn. destruct Hu as [->| ->]; cbn; [|reflexivity]. apply Hs; [exact Hc|congruence].
  - apply Hs; assumption.
Qed.

Lemma manageAlert_cases now p m t :
  manageAlert now p m t = m
  \/ manageAlert now p m t = triggerTrailingAlert now t m
  \/ exists tr h l, manageAlert now p m t = writeTrail t tr h l m.
Proof.
  unfold manageAlert. destruct (ta_triggered t); [auto|].
  destruct (trail_direction t);
    repeat match goal with |- context [if ?c then _ else _] => destruct c end; eauto 10.
Qed.

Lemma manageAlert_keeps now p m t i :
  (Armed i (persisted m) -> Armed i (persisted (manageAlert now p m t)))
  /\ (Settled i (persisted m) -> Settled i (persisted (manageAlert now p m t)))
  /\ exists more, emitted (manageAlert now p m t) = emitted m ++ more.
Proof.
  destruct (manageAlert_cases now p m t) as [->|[->|(tr & h & l & ->)]].
  - repeat split; auto. exists []. rewrite app_nil_r. reflexivity.
  - cbn. split; [apply Armed_updateAlert|]. split; [apply Settled_updateAlert; auto|].
    eexists. reflexivity.
  - cbn. split; [apply Armed_updateAlert|]. split; [apply Settled_updateAlert; auto|].
    exists []. rewrite app_nil_r. reflexivity.
Qed.

Lemma fold_keeps now p l i : forall m,
  (Armed i (persisted m) -> Armed i (persisted (fold_left (manageAlert now p) l m)))
  /\ (Settled i (persisted m) -> Settled i (persisted (fold_left (manageAlert now p) l m)))
  /\ exists more, emitted (fold_left (manageAlert now p) l m) = emitted m ++ more.
Proof.
  induction l as [|t l IH]; intros m.
  - repeat split; auto. exists []. rewrite app_nil_r. reflexivity.
  - cbn [fold_left]. destruct (manageAlert_keeps now p m t i) as (Ha & Hs & more & He).
    destruct (IH (manageAlert now p m t)) as (Ha' & Hs' & more' & He').
    split; [auto|]. split; [auto|]. exists (more ++ more'). rewrite He', He, app_assoc.
    reflexivity.
Qed.

Lemma trigger_emits now t m :
  Armed (ta_id t) (persisted m) ->
  MTradeDispatch (ta_id t) ∈ emitted (triggerTrailingAlert now t m)
  /\ Settled (ta_id t) (persisted (triggerTrailingAlert now t m)).
Proof.
  intros Harmed. split.
  - destruct (Armed_updateAlert _ _ (ta_id t) (triggerPatch now) Harmed) as (b & Hb & Hte).
    unfold triggerTrailingAlert. cbn [emitted]. rewrite Hb, Hte. cbn [default].
    apply elem_of_app. right. apply elem_of_app. right.
    apply list_elem_of_singleton. reflexivity.
  - intros b Hb Hi. cbn in Hb.
    apply updateAlert_source in Hb as (c & Hc & Hid & [[_ ->]|[Hne _]]);
      [reflexivity|congruence].
Qed.

(** When the loop reaches an entry whose price condition holds, the
    trade of its alert is dispatched, and it stays dispatched. *)
Lemma fold_fires now p l : forall m t,
  t ∈ l -> ta_triggered t = false -> trail_direction t = up ->
  Js.le p (trail_trigger_price t) = true ->
  Armed (ta_id t) (persisted m) ->
  MTradeDispatch (ta_id t) ∈ emitted (fold_left (manageAlert now p) l m)
  /\ Settled (ta_id t) (persisted (fold_left (manageAlert now p) l m)).
Proof.
  induction l as [|x l IH]; intros m t Hin Hflag Hdir Hle Harmed;
    [apply elem_of_nil in Hin as []|].
  cbn [fold_left].
  assert (Hcase : x = t \/ t ∈ l).
  { apply elem_of_cons in Hin as [->|Hin]; auto. }
  destruct Hcase as [->|Hin'].
  - assert (Hstep : manageAlert now p m t = triggerTrailingAlert now t m).
    { unfold manageAlert. rewrite Hflag, Hdir, Hle. reflexivity. }
    rewrite Hstep. destruct (trigger_emits now t m Harmed) as [He Hs].
    destruct (fold_keeps now p l (ta_id t) (triggerTrailingAlert now t m))
      as (_ & Hs' & more & Hmore).
    split; [|auto]. rewrite Hmore. apply elem_of_app. left. exact He.
  - apply IH; try assumption.
    apply (manageAlert_keeps now p m x (ta_id t)), Harmed.
Qed.

Lemma loaded a (store : list LocalAlert) :
  a ∈ store -> status a = active -> alert_type a = trailing_stop ->
  mapToTrailingAlert a ∈ loadTrailingAlerts (symbol a) store.
Proof.
  intros Hin Hact Hty. unfold loadTrailingAlerts.
  apply list_elem_of_In, in_map, filter_In. split; [apply list_elem_of_In, Hin|].
  unfold isTrailingOf, isActive. rewrite Hact, Hty, String.eqb_refl. reflexivity.
Qed.

(** X11.  The alert checker and the trailing-alert manager both evaluate a
    trailing stop, and the manager does not consult the trigger guard of
    the checker.  For an upward trailing stop with a trade attached, at a
    price at or below its trigger price: when the checker evaluates
    first, it triggers the alert and dispatches the trade, and the
    manager, whose list was loaded while the alert was active, dispatches
    the trade once more; when the manager evaluates first, it dispatches
    the trade and persists the status triggered, and the checker then
    does nothing for that alert. *)
Theorem two_evaluators_of_a_trailing_stop st a pd data tp now now' :
  NoDup (map alert_id (store st)) -> a ∈ store st -> status a = active ->
  alert_id a ∉ triggeredIds st ->
  alert_type a = trailing_stop -> direction a = above ->
  trade_enabled a = Some true ->
  trailing_percent a = Some tp -> Js.truthy tp = true ->
  pd !! symbol a = Some data -> Js.truthy (price data) = true ->
  Js.gt (price data) (Js.orElse (trailing_high a) (price data)) = false ->
  Js.le (price data) (target_price a) = true ->
  (let st1 := evalPass now pd st in
   let m1 := updateTrailingAlerts now' (Some (price data))
               {| persisted := store st1;
                  alerts := loadTrailingAlerts (symbol a) (store st);
                  emitted := [] |} in
   ETradeDispatch (alert_id a) ∈ effectsOf (alert_id a) (log st1)
   /\ MTradeDispatch (alert_id a) ∈ emitted m1)
  /\ (let m1 := updateTrailingAlerts now (Some (price data))
                   (mountManager (symbol a) (store st)) in
      let st1 := evalPass now' pd (withStore (persisted m1) st) in
      MTradeDispatch (alert_id a) ∈ emitted m1
      /\ effectsOf (alert_id a) (log st1) = effectsOf (alert_id a) (log st)
      /\ alert_id a ∉ triggeredIds st1).
Proof.
  intros Hnd Hin Hact Hfresh Hty Hdir Hte Htp Htpt Hpd Hp Hgt Hle.
  assert (Hfire : decideAction pd a = Fire).
  { unfold decideAction. rewrite Hpd, Hty, Htp, Htpt, Hdir. cbn zeta. rewrite Hgt, Hle.
    reflexivity. }
  assert (Hload : mapToTrailingAlert a ∈ loadTrailingAlerts (symbol a) (store st))
    by (apply loaded; assumption).
  assert (Hflag : ta_triggered (mapToTrailingAlert a) = false) by (cbn; rewrite Hact; reflexivity).
  assert (Hup : trail_direction (mapToTrailingAlert a) = up) by (cbn; rewrite Hdir; reflexivity).
  split.
  - pose proof (pass_outcome now pd st a Hnd Hin Hact Hfresh) as Hout.
    rewrite Hfire in Hout. destruct Hout as (_ & Hs & He).
    split.
    + rewrite He. apply elem_of_app. right. unfold triggerEffects. rewrite Hte.
      apply list_elem_of_In. cbn. auto 10.
    + unfold updateTrailingAlerts. rewrite Hp. cbn [alerts].
      apply (fold_fires now' (price data) _ _ (mapToTrailingAlert a)); try assumption.
      cbn [persisted ta_id mapToTrailingAlert]. unfold Armed.
      rewrite find_head_filter. unfold stored in Hs. rewrite Hs. cbn.
      eexists. split; [reflexivity|exact Hte].
  - assert (Harmed : Armed (alert_id a) (store st)).
    { unfold Armed. rewrite find_head_filter, (stored_unique _ _ Hnd Hin). cbn. eauto. }
    destruct (fold_fires now (price data) (loadTrailingAlerts (symbol a) (store st))
                (mountManager (symbol a) (store st)) (mapToTrailingAlert a)
                Hload Hflag Hup Hle Harmed) as [He Hs].
    cbn zeta. unfold updateTrailingAlerts. rewrite Hp. cbn [alerts mountManager].
    split; [exact He|].
    match goal with |- context [evalPass now' pd ?s] => set (st2 := s) end.
    assert (Hv : view (alert_id a) (evalPass now' pd st2) = view (alert_id a) st2).
    { apply evalPass_view_inactive. intros b Hb Hi. subst st2. cbn [withStore store] in Hb.
      rewrite (Hs b Hb Hi). discriminate. }
    destruct (EngineFacts.view_parts _ _ _ Hv) as (_ & Hg & He').
    split; [exact He'|]. intros Hc. apply Hg in Hc. exact (Hfresh Hc).
Qed.

Lemma two_evaluators_of_a_trailing_stop_witness :
  let st1 := evalPass 1 (tick "BTCUSDT" 94) (mount [sampleStop]) in
  let m1 := updateTrailingAlerts 2 (Some 94%float)
              {| persisted := store st1;
                 alerts := loadTrailingAlerts "BTCUSDT" [sampleStop];
                 emitted := [] |} in
  ETradeDispatch "t9" ∈ effectsOf "t9" (log st1) /\ MTradeDispatch "t9" ∈ emitted m1.
Proof.
  apply (two_evaluators_of_a_trailing_stop (mount [sampleStop]) sampleStop
           (tick "BTCUSDT" 94) {| price := 94; change := 0 |} 5%float 1%Z 2%Z).
  - apply NoDup_singleton.
  - apply list_elem_of_singleton. reflexivity.
  - reflexivity.
  - apply not_elem_of_empty.
  - reflexivity.
  - reflexivity.
  - reflexivity.
  - reflexivity.
  - reflexivity.
  - apply lookup_singleton_eq.
  - reflexivity.
  - reflexivity.
  - reflexivity.
Defined.

(** *** Downward alerts in the manager *)

Lemma Still_step now p a m x :
  (ta_id x = alert_id a -> trail_direction x = down /\ trail_low_watermark x = None) ->
  Still a m -> Still a (manageAlert now p m x).
Proof.
  intros Hx [Hp Hl]. unfold manageAlert. destruct (ta_triggered x); [split; assumption|].
  assert (Htrig : Still a (triggerTrailingAlert now x m)).
  { split; cbn.
    - intros b Hb Hi. apply updateAlert_source in Hb as (c & Hc & Hid & [[_ ->]|[_ ->]]).
      + cbn. apply Hp; [exact Hc|congruence].
      + apply Hp; assumption.
    - intros t Ht Hi. apply list_elem_of_In, filter_In in Ht as [Ht _].
      apply Hl; [apply list_elem_of_In, Ht|exact Hi]. }
  assert (Hwrite : forall tr h l, ta_id x <> alert_id a -> Still a (writeTrail x tr h l m)).
  { intros tr h l Hne. split; cbn.
    - intros b Hb Hi. apply updateAlert_source in Hb as (c & Hc & Hid & [[Hj _]|[_ ->]]).
      + congruence.
      + apply Hp; assumption.
    - intros t Ht Hi. apply list_elem_of_In, in_map_iff in Ht as (c & Hc & Ht).
      destruct (String.eqb_spec (ta_id c) (ta_id x)) as [Heq|_].
      + subst t. cbn in Hi. congruence.
      + subst t. apply Hl; [apply list_elem_of_In, Ht|exact Hi]. }
  destruct (trail_direction x) eqn:Hdir.
  - destruct (Js.le p (trail_trigger_price x)); [exact Htrig|].
    destruct (Js.gt p _); [|split; assumption].
    apply Hwrite. intros Hi. destruct (Hx Hi) as [Hd _]. congruence.
  - destruct (Js.ge p (trail_trigger_price x)); [exact Htrig|].
    destruct (Js.lt p (Js.orElse (trail_low_watermark x) p)) eqn:Hlt; [|split; assumption].
    apply Hwrite. intros Hi. destruct (Hx Hi) as [_ Hlow].
    rewrite Hlow in Hlt. cbn in Hlt. unfold Js.lt in Hlt. rewrite ltb_irrefl in Hlt.
    discriminate.
Qed.

Lemma Still_fold now p a l : forall m,
  (forall x, x ∈ l -> ta_id x = alert_id a ->
     trail_direction x = down /\ trail_low_watermark x = None) ->
  Still a m -> Still a (fold_left (manageAlert now p) l m).
Proof.
  induction l as [|x l IH]; intros m Hl Hs; [exact Hs|]. cbn [fold_left].
  apply IH; [intros y Hy; apply Hl, elem_of_cons; right; exact Hy|].
  apply Still_step; [|exact Hs]. apply Hl, elem_of_cons. left. reflexivity.
Qed.

Lemma Still_run a ticks : forall m, Still a m -> Still a (runManager ticks m).
Proof.
  induction ticks as [|t ticks IH]; intros m Hs; [exact Hs|].
  cbn [runManager fold_left]. fold (runManager ticks (updateTrailingAlerts (fst t) (snd t) m)).
  apply IH. unfold updateTrailingAlerts. destruct (snd t) as [p|]; [|exact Hs].
  destruct (Js.truthy p); [|exact Hs]. apply Still_fold; [apply (proj2 Hs)|exact Hs].
Qed.

(** X12.  The manager never trails an alert of direction below that it has
    loaded from the store.  Its list gives such an alert no low
    watermark, so that the watermark is the current price at every
    evaluation and the update is never written: whatever prices arrive,
    the persisted trigger price and watermark of the alert stay as they
    were (the alert can only trigger, at its fixed trigger price). *)
Theorem manager_never_trails_a_loaded_downward_alert store a sym ticks b :
  NoDup (map alert_id store) -> a ∈ store -> direction a = below ->
  b ∈ persisted (runManager ticks (mountManager sym store)) ->
  alert_id b = alert_id a ->
  target_price b = target_price a /\ trailing_high b = trailing_high a.
Proof.
  intros Hnd Hin Hdir Hb Hi.
  assert (Honly : forall c, c ∈ store -> alert_id c = alert_id a -> c = a).
  { intros c Hc Hid.
    apply (stored_singleton_only (alert_id a) (mount store) a c);
      [apply stored_unique; assumption|exact Hc|exact Hid]. }
  assert (Hs : Still a (mountManager sym store)).
  { split; cbn.
    - intros c Hc Hid. rewrite (Honly c Hc Hid). auto.
    - intros t Ht Hid. unfold loadTrailingAlerts in Ht.
      apply list_elem_of_In, in_map_iff in Ht as (c & <- & Hc).
      apply filter_In in Hc as [Hc _]. cbn in Hid.
      rewrite (Honly c (proj2 (list_elem_of_In _ _) Hc) Hid). cbn. rewrite Hdir. auto. }
  apply (proj1 (Still_run a ticks _ Hs)); assumption.
Qed.

Lemma manager_never_trails_a_loaded_downward_alert_witness :
  let m := runManager [(1%Z, Some 90%float); (2%Z, Some 80%float)]
             (mountManager "BTCUSDT" [sampleDown]) in
  let b := hd sampleDown (persisted m) in
  b ∈ persisted m
  /\ target_price b = target_price sampleDown
  /\ trailing_high b = trailing_high sampleDown.
Proof.
  intros m b.
  assert (Hb : b ∈ persisted m) by (vm_compute; apply list_elem_of_In; left; reflexivity).
  split; [exact Hb|].
  apply (manager_never_trails_a_loaded_downward_alert [sampleDown] sampleDown "BTCUSDT"
           [(1%Z, Some 90%float); (2%Z, Some 80%float)] b).
  - apply NoDup_singleton.
  - apply list_elem_of_singleton. reflexivity.
  - reflexivity.
  - exact Hb.
  - vm_compute. reflexivity.
Defined.

End TrailingManagerFacts.

(** ** The occurrences of a schedule *)

Module OccurrenceFacts.
Import DcaStore DcaCrud ScheduleFacts.
Local Open Scope Z_scope.

Lemma splitColon_no_colon s : hasColon s = false -> splitColon s = [s].
Proof.
  induction s as [|c rest IH]; [reflexivity|]. cbn.
  destruct (Ascii.eqb c ":"%char); [discriminate|]. cbn. intros H.
  rewrite (IH H). reflexivity.
Qed.

(** X13.  A daily schedule, or a weekly one with a day, whose time holds no
    colon is rejected with an exception at every instant, whatever
    [Number] makes of the text; creating a strategy with such a schedule
    throws before anything is stored. *)
Theorem time_without_colon_is_rejected tz toNumber s now :
  hasColon s = false ->
  (forall dow, computeNextExecution tz toNumber daily s dow now = None)
  /\ (forall d, computeNextExecution tz toNumber weekly s (Some d) now = None)
  /\ (forall strategies newId data,
        scheduledTime data = s -> frequency data = daily ->
        createDCAStrategy tz toNumber strategies newId data now = None).
Proof.
  intros H.
  assert (Hp : parseHoursMinutes toNumber s = None).
  { unfold parseHoursMinutes. rewrite splitColon_no_colon by exact H. reflexivity. }
  split; [|split].
  - intros dow. unfold computeNextExecution. rewrite Hp. reflexivity.
  - intros d. unfold computeNextExecution. rewrite Hp. reflexivity.
  - intros strategies newId data Hs Hf. unfold createDCAStrategy.
    rewrite Hs, Hf. unfold computeNextExecution. rewrite Hp. reflexivity.
Qed.

Lemma time_without_colon_is_rejected_witness :
  computeNextExecution 0 decimalNumber weekly "start" (Some 3) 36010000 = None.
Proof.
  apply (time_without_colon_is_rejected 0 decimalNumber "start" 36010000).
  reflexivity.
Defined.



End OccurrenceFacts.

(** ** Sessions of the DCA scheduler *)

Module DcaSessionFacts.
Import DcaStore Dca DcaSession DcaFacts.
Local Open Scope Z_scope.

Lemma setExecuting_round st :
  executing st = false -> setExecuting false (setExecuting true st) = st.
Proof. destruct st. cbn. intros ->. reflexivity. Qed.

Section Facts.

Variable tz : Z.
Variable toNumber : string -> option Z.

Lemma checkLoop_not_due now env l : forall st,
  (forall s, s ∈ l -> enabled s = false \/ now < nextExecuteAt s) ->
  checkLoop tz toNumber now env l st = Fulfilled st.
Proof.
  induction l as [|s l IH]; intros st H; [reflexivity|]. cbn [checkLoop].
  assert (Hl : forall x, x ∈ l -> enabled x = false \/ now < nextExecuteAt x)
    by (intros x Hx; apply H, elem_of_cons; right; exact Hx).
  destruct (H s ltac:(apply elem_of_cons; left; reflexivity)) as [Hd|Hd].
  - rewrite Hd. cbn [negb]. apply IH, Hl.
  - destruct (negb (enabled s)); [apply IH, Hl|].
    assert (Hge : (now >=? nextExecuteAt s) = false)
      by (rewrite Z.geb_leb; apply Z.leb_gt; lia).
    rewrite Hge. apply IH, Hl.
Qed.

End Facts.

(** X15.  A tick at which no enabled strategy is due changes nothing: no
    trade, no write to the store, no key recorded. *)
Theorem check_before_due_does_nothing tz toNumber now env st :
  (forall s, s ∈ strategies st -> enabled s = false \/ now < nextExecuteAt s) ->
  check tz toNumber now env st = st.
Proof.
  intros H. unfold check. destruct (executing st) eqn:Hex; [reflexivity|].
  rewrite checkLoop_not_due by exact H. apply setExecuting_round, Hex.
Qed.

Lemma check_before_due_does_nothing_witness :
  check 0 decimalNumber 3000000 (fun _ => (Dispatch.sampleWorld, 3000001))
    (mount [sampleStrategy; samplePaused])
  = mount [sampleStrategy; samplePaused].
Proof.
  apply check_before_due_does_nothing. intros s Hs.
  apply elem_of_cons in Hs as [->|Hs]; [right; cbn; lia|].
  apply list_elem_of_singleton in Hs. subst s. left. reflexivity.
Defined.

Lemma tradesOf_app i l1 l2 : tradesOf i (l1 ++ l2) = tradesOf i l1 ++ tradesOf i l2.
Proof. unfold tradesOf. apply List.filter_app. Qed.

Lemma updateDCAStrategy_ids l i u :
  map strategy_id (updateDCAStrategy l i u) = map strategy_id l.
Proof.
  unfold updateDCAStrategy. rewrite map_map. apply map_ext. intros x.
  destruct (String.eqb _ _); reflexivity.
Qed.

Lemma filter_updateDCAStrategy_ne l i j u :
  i <> j ->
  List.filter (fun x => String.eqb (strategy_id x) i) (updateDCAStrategy l j u)
  = List.filter (fun x => String.eqb (strategy_id x) i) l.
Proof.
  intros Hne. induction l as [|x l IH]; [reflexivity|]. cbn.
  destruct (String.eqb_spec (strategy_id x) j) as [Hj|Hj].
  - cbn. destruct (String.eqb_spec (strategy_id x) i) as [Hi|Hi]; [congruence|]. exact IH.
  - destruct (String.eqb (strategy_id x) i); [f_equal|]; exact IH.
Qed.


Lemma storedStrategy_unique (l : list DCAStrategy) s :
  NoDup (map strategy_id l) -> s ∈ l ->
  List.filter (fun x => String.eqb (strategy_id x) (strategy_id s)) l = [s].
Proof.
  induction l as [|x l IH]; intros Hnd Hin; [apply elem_of_nil in Hin as []|].
  cbn in Hnd. apply NoDup_cons in Hnd as [Hx Hnd]. cbn.
  apply elem_of_cons in Hin as [->|Hin].
  - rewrite String.eqb_refl. f_equal.
    clear IH Hnd. induction l as [|y l IHl]; [reflexivity|]. cbn in *.
    apply not_elem_of_cons in Hx as [Hy Hx].
    destruct (String.eqb_spec (strategy_id y) (strategy_id x)); [congruence|]. auto.
  - destruct (String.eqb_spec (strategy_id x) (strategy_id s)) as [Heq|Hne]; [|auto].
    exfalso. apply Hx. rewrite Heq. apply list_elem_of_In, in_map, list_elem_of_In, Hin.
Qed.

Section Session.

Variable tz : Z.
Variable toNumber : string -> option Z.

(** The execution of a strategy leaves alone what the scheduler keeps of
    any other id, and forgets no key. *)
Lemma executeStrategy_other w now x st i :
  strategy_id x <> i ->
  let st' := stateOf (executeStrategy tz toNumber w now x st) in
  viewOf i st' = viewOf i st /\ executedKeys st ⊆ executedKeys st'.
Proof.
  intros Hne.
  destruct (decide ((strategy_id x, nextExecuteAt x) ∈ executedKeys st)) as [Hin|Hfresh].
  { rewrite executeStrategy_guarded by assumption. cbn. split; reflexivity. }
  destruct (executeStrategy_fresh tz toNumber w now x st Hfresh) as (r & h' & _ & ->).
  assert (Ht : tradesOf i [ETrade (strategy_id x) (nextExecuteAt x)] = []).
  { cbn. destruct (String.eqb_spec (strategy_id x) i); [done|reflexivity]. }
  destruct (computeNextExecution _ _ _ _ _ _) as [next|]; cbn [stateOf];
    unfold viewOf, storedStrategy; cbn [strategies log executedKeys].
  - rewrite filter_updateDCAStrategy_ne by congruence.
    rewrite !tradesOf_app, Ht, app_nil_r.
    split; [|apply union_subseteq_r].
    f_equal. destruct (Dispatch.success r); cbn; rewrite app_nil_r; reflexivity.
  - rewrite tradesOf_app, Ht, app_nil_r. split; [reflexivity|apply union_subseteq_r].
Qed.

Lemma Idle_mono st st' s : executedKeys st ⊆ executedKeys st' -> Idle st s -> Idle st' s.
Proof. intros Hsub [H|H]; [left; exact H|right; apply Hsub, H]. Qed.

Lemma checkLoop_idle now env i l : forall st,
  (forall x, x ∈ l -> strategy_id x = i -> Idle st x) ->
  let st' := stateOf (checkLoop tz toNumber now env l st) in
  viewOf i st' = viewOf i st /\ executedKeys st ⊆ executedKeys st'.
Proof.
  induction l as [|x l IH]; intros st H; [split; reflexivity|]. cbn [checkLoop].
  assert (Hl : forall st', executedKeys st ⊆ executedKeys st' ->
            forall y, y ∈ l -> strategy_id y = i -> Idle st' y).
  { intros st' Hsub y Hy Hi. apply (Idle_mono st); [exact Hsub|].
    apply H; [apply elem_of_cons; right; exact Hy|exact Hi]. }
  destruct (enabled x) eqn:Hen; cbn [negb]; [|apply IH, Hl; reflexivity].
  destruct (now >=? nextExecuteAt x); [|apply IH, Hl; reflexivity].
  destruct (String.eqb_spec (strategy_id x) i) as [Hi|Hi].
  - destruct (H x ltac:(apply elem_of_cons; left; reflexivity) Hi) as [Hoff|Hkey];
      [congruence|].
    rewrite executeStrategy_guarded by exact Hkey. apply IH, Hl. reflexivity.
  - pose proof (executeStrategy_other (fst (env x)) (snd (env x)) x st i Hi) as [Hv Hsub].
    destruct (executeStrategy _ _ _ _ _ _) as [st1|st1]; cbn [stateOf] in Hv, Hsub.
    + destruct (IH st1 (Hl st1 Hsub)) as [Hv' Hsub'].
      split; [rewrite Hv'; exact Hv|]. etrans; eassumption.
    + cbn [stateOf]. split; assumption.
Qed.

Lemma check_idle now env i st :
  (forall x, x ∈ storedStrategy i st -> Idle st x) ->
  viewOf i (check tz toNumber now env st) = viewOf i st
  /\ executedKeys st ⊆ executedKeys (check tz toNumber now env st).
Proof.
  intros H. unfold check. destruct (executing st); [split; reflexivity|].
  destruct (checkLoop_idle now env i (strategies (setExecuting true st))
              (setExecuting true st)) as [Hv Hsub].
  { intros x Hx Hi. cbn [setExecuting strategies] in Hx.
    assert (Hs : x ∈ storedStrategy i st).
    { apply list_elem_of_In, filter_In. split; [apply list_elem_of_In, Hx|].
      apply String.eqb_eq, Hi. }
    destruct (H x Hs) as [Hoff|Hkey]; [left; exact Hoff|right; exact Hkey]. }
  destruct (checkLoop _ _ _ _ _ _) as [st'|st']; cbn [stateOf] in Hv, Hsub;
    split; [exact Hv|exact Hsub|exact Hv|exact Hsub].
Qed.

Lemma runTicks_idle i ticks : forall st,
  (forall x, x ∈ storedStrategy i st -> Idle st x) ->
  viewOf i (runTicks tz toNumber ticks st) = viewOf i st.
Proof.
  induction ticks as [|t ticks IH]; intros st H; [reflexivity|].
  cbn [runTicks fold_left].
  fold (runTicks tz toNumber ticks (check tz toNumber (fst t) (snd t) st)).
  destruct (check_idle (fst t) (snd t) i st H) as [Hv Hsub].
  rewrite IH; [exact Hv|]. intros x Hx.
  apply (Idle_mono st); [exact Hsub|]. apply H.
  unfold viewOf in Hv. injection Hv as Hs _. rewrite <- Hs. exact Hx.
Qed.

End Session.

(** X16.  A paused strategy is never traded and never modified: as long as
    nothing else writes the store, every timer tick passes over a
    strategy whose enabled flag is false, however long overdue it is. *)
Theorem paused_strategy_never_trades tz toNumber st s ticks :
  NoDup (map strategy_id (strategies st)) -> s ∈ strategies st -> enabled s = false ->
  storedStrategy (strategy_id s) (runTicks tz toNumber ticks st) = [s]
  /\ tradesOf (strategy_id s) (log (runTicks tz toNumber ticks st))
     = tradesOf (strategy_id s) (log st).
Proof.
  intros Hnd Hin Hoff.
  assert (Hs : storedStrategy (strategy_id s) st = [s])
    by (apply storedStrategy_unique; assumption).
  assert (Hv : viewOf (strategy_id s) (runTicks tz toNumber ticks st)
               = viewOf (strategy_id s) st).
  { apply runTicks_idle. intros x Hx. rewrite Hs in Hx.
    apply list_elem_of_singleton in Hx. subst x. left. exact Hoff. }
  unfold viewOf in Hv. injection Hv as Hs' Ht. rewrite Hs', Ht. auto.
Qed.

Lemma paused_strategy_never_trades_witness :
  storedStrategy "s3"
    (runTicks 0 decimalNumber [(3310000, fun _ => (Dispatch.sampleWorld, 3311000))]
       (mount [sampleStrategy; samplePaused]))
  = [samplePaused].
Proof.
  apply (paused_strategy_never_trades 0 decimalNumber (mount [sampleStrategy; samplePaused])
           samplePaused [(3310000, fun _ => (Dispatch.sampleWorld, 3311000))]).
  - cbn. apply NoDup_cons. split; [|apply NoDup_singleton].
    intros H. apply list_elem_of_singleton in H. discriminate.
  - apply elem_of_cons. right. apply list_elem_of_singleton. reflexivity.
  - reflexivity.
Defined.



Section Due.

Variable tz : Z.
Variable toNumber : string -> option Z.

Lemma executeStrategy_trades w now' x st i due :
  ETrade i due ∈ log (stateOf (executeStrategy tz toNumber w now' x st)) ->
  ETrade i due ∈ log st \/ (i = strategy_id x /\ due = nextExecuteAt x).
Proof.
  destruct (decide ((strategy_id x, nextExecuteAt x) ∈ executedKeys st)) as [Hin|Hfresh].
  { rewrite executeStrategy_guarded by assumption. auto. }
  destruct (executeStrategy_fresh tz toNumber w now' x st Hfresh) as (r & h' & _ & ->).
  destruct (computeNextExecution _ _ _ _ _ _) as [next|]; cbn [stateOf log]; intros H.
  - apply elem_of_app in H as [H|H].
    + apply elem_of_app in H as [H|H]; [auto|].
      apply list_elem_of_singleton in H. injection H as -> ->. auto.
    + apply list_elem_of_singleton in H. destruct (Dispatch.success r); discriminate.
  - apply elem_of_app in H as [H|H]; [auto|].
    apply list_elem_of_singleton in H. injection H as -> ->. auto.
Qed.

Lemma checkLoop_trades now env i due l : forall st,
  ETrade i due ∈ log (stateOf (checkLoop tz toNumber now env l st)) ->
  ETrade i due ∈ log st \/ due <= now.
Proof.
  induction l as [|x l IH]; intros st; [auto|]. cbn [checkLoop].
  destruct (negb (enabled x)); [apply IH|].
  destruct (now >=? nextExecuteAt x) eqn:Hge; [|apply IH].
  rewrite Z.geb_leb in Hge. apply Z.leb_le in Hge.
  pose proof (executeStrategy_trades (fst (env x)) (snd (env x)) x st i due) as Hx.
  destruct (executeStrategy _ _ _ _ _ _) as [st1|st1]; cbn [stateOf] in Hx |- *.
  - intros H. destruct (IH st1 H) as [H1|H1]; [|auto].
    destruct (Hx H1) as [H0|[_ ->]]; auto.
  - intros H. destruct (Hx H) as [H0|[_ ->]]; auto.
Qed.

Lemma check_trades now env st i due :
  ETrade i due ∈ log (check tz toNumber now env st) ->
  ETrade i due ∈ log st \/ due <= now.
Proof.
  unfold check. destruct (executing st); [auto|].
  pose proof (checkLoop_trades now env i due (strategies (setExecuting true st))
                (setExecuting true st)) as H.
  destruct (checkLoop _ _ _ _ _ _) as [st'|st']; exact H.
Qed.

Lemma runSession_trades i due evs : forall st,
  ETrade i due ∈ log (runSession tz toNumber evs st) ->
  ETrade i due ∈ log st \/ exists now env, Tick now env ∈ evs /\ due <= now.
Proof.
  induction evs as [|ev evs IH]; intros st H; [auto|].
  cbn [runSession fold_left] in H. fold (runSession tz toNumber evs) in H.
  destruct (IH _ H) as [H1|(now & env & Hin & Hle)].
  - destruct ev as [now env|saved]; cbn [sessionStep] in H1.
    + destruct (check_trades now env st i due H1) as [H0|Hle]; [auto|].
      right. exists now, env. split; [apply elem_of_cons; left; reflexivity|exact Hle].
    + auto.
  - right. exists now, env. split; [apply elem_of_cons; right; exact Hin|exact Hle].
Qed.

Lemma checkLoop_skip now env pre l : forall st,
  (forall x, x ∈ pre -> enabled x = false \/ now < nextExecuteAt x) ->
  checkLoop tz toNumber now env (pre ++ l) st = checkLoop tz toNumber now env l st.
Proof.
  induction pre as [|x pre IH]; intros st H; [reflexivity|]. cbn [app checkLoop].
  assert (Hl : forall y, y ∈ pre -> enabled y = false \/ now < nextExecuteAt y)
    by (intros y Hy; apply H, elem_of_cons; right; exact Hy).
  destruct (H x ltac:(apply elem_of_cons; left; reflexivity)) as [Hd|Hd].
  - rewrite Hd. cbn [negb]. apply IH, Hl.
  - destruct (negb (enabled x)); [apply IH, Hl|].
    assert (Hge : (now >=? nextExecuteAt x) = false)
      by (rewrite Z.geb_leb; apply Z.leb_gt; lia).
    rewrite Hge. apply IH, Hl.
Qed.

End Due.

(** X18.  No trade is dispatched before it is due: in any session, every
    trade in the log was dispatched by a tick whose clock had reached the
    nextExecuteAt of the strategy. *)
Theorem no_trade_before_due tz toNumber saved evs i due :
  ETrade i due ∈ log (runSession tz toNumber evs (mount saved)) ->
  exists now env, Tick now env ∈ evs /\ due <= now.
Proof.
  intros H. destruct (runSession_trades tz toNumber i due evs _ H) as [H0|H1]; [|exact H1].
  cbn in H0. apply elem_of_nil in H0 as [].
Qed.

Lemma no_trade_before_due_witness :
  exists now env,
    Tick now env ∈ take 1 (sampleTicks Dispatch.sampleWorld) /\ 3300000 <= now.
Proof.
  apply (no_trade_before_due 0 decimalNumber [sampleStrategy]
           (take 1 (sampleTicks Dispatch.sampleWorld)) "s1" 3300000).
  vm_compute. apply list_elem_of_In. cbn. auto.
Defined.

(** X19.  When the next execution of a due strategy cannot be computed, the
    exception leaves the cycle after the trade was dispatched: the books
    of the strategy are not written, the strategies after it in the
    store are not looked at in this cycle, its key stays recorded (so
    that the trade is not repeated in the session), and the latch is
    released. *)
Theorem schedule_exception_aborts_the_cycle tz toNumber now env st pre s post :
  executing st = false ->
  strategies st = pre ++ s :: post ->
  (forall x, x ∈ pre -> enabled x = false \/ now < nextExecuteAt x) ->
  enabled s = true -> nextExecuteAt s <= now ->
  (strategy_id s, nextExecuteAt s) ∉ executedKeys st ->
  computeNextExecution tz toNumber (frequency s) (scheduledTime s) (dayOfWeek s)
    (snd (env s)) = None ->
  let st' := check tz toNumber now env st in
  strategies st' = strategies st
  /\ log st' = log st ++ [ETrade (strategy_id s) (nextExecuteAt s)]
  /\ executedKeys st' = {[ (strategy_id s, nextExecuteAt s) ]} ∪ executedKeys st
  /\ executing st' = false
  /\ forall w' now', executeStrategy tz toNumber w' now' s st' = Fulfilled st'.
Proof.
  intros Hex Hstore Hpre Hen Hdue Hfresh Hnone st'. subst st'. unfold check. rewrite Hex.
  cbn [setExecuting strategies]. rewrite Hstore, checkLoop_skip by exact Hpre.
  cbn [checkLoop]. rewrite Hen. cbn [negb].
  assert (Hge : (now >=? nextExecuteAt s) = true)
    by (rewrite Z.geb_leb; apply Z.leb_le; lia).
  rewrite Hge.
  destruct (executeStrategy_fresh tz toNumber (fst (env s)) (snd (env s)) s
              (setExecuting true st) Hfresh) as (r & h' & _ & ->).
  rewrite Hnone. cbn. rewrite Hstore. repeat split.
  intros w' now'. apply executeStrategy_guarded. cbn.
  apply elem_of_union. left. apply elem_of_singleton. reflexivity.
Qed.

Lemma schedule_exception_aborts_the_cycle_witness :
  let st' := check 0 decimalNumber 3310000 (fun _ => (Dispatch.sampleWorld, 3311000))
               (mount [sampleBroken; sampleStrategy]) in
  strategies st' = [sampleBroken; sampleStrategy]
  /\ log st' = [ETrade "s4" 0].
Proof.
  destruct (schedule_exception_aborts_the_cycle 0 decimalNumber 3310000
              (fun _ => (Dispatch.sampleWorld, 3311000))
              (mount [sampleBroken; sampleStrategy]) [] sampleBroken [sampleStrategy])
    as (H1 & H2 & _).
  - reflexivity.
  - reflexivity.
  - intros x Hx. apply elem_of_nil in Hx as [].
  - reflexivity.
  - cbn. lia.
  - apply not_elem_of_empty.
  - reflexivity.
  - split; [exact H1|exact H2].
Defined.

(** X20.  Once a strategy is deleted, no tick trades it any more and no
    record with its id reappears. *)
Theorem deleted_strategy_never_trades tz toNumber st i ticks :
  let st' :=
    {| strategies := DcaCrud.deleteDCAStrategy (strategies st) i;
       executedKeys := executedKeys st; executing := executing st;
       history := history st; log := log st |} in
  storedStrategy i (runTicks tz toNumber ticks st') = []
  /\ tradesOf i (log (runTicks tz toNumber ticks st')) = tradesOf i (log st).
Proof.
  intros st'.
  assert (Hs : storedStrategy i st' = []).
  { subst st'. unfold storedStrategy, DcaCrud.deleteDCAStrategy. cbn [strategies].
    induction (strategies st) as [|x l IH]; [reflexivity|]. cbn.
    destruct (String.eqb_spec (strategy_id x) i) as [Heq|Hne]; cbn; [exact IH|].
    destruct (String.eqb_spec (strategy_id x) i); [done|exact IH]. }
  assert (Hv : viewOf i (runTicks tz toNumber ticks st') = viewOf i st').
  { apply runTicks_idle. intros x Hx. rewrite Hs in Hx. apply elem_of_nil in Hx as []. }
  unfold viewOf in Hv. injection Hv as Hs' Ht. rewrite Hs', Ht. split; [exact Hs|reflexivity].
Qed.

End DcaSessionFacts.

(** ** The order history and the keys *)

Module OrderStoreFacts.
Import Dispatch OrderStore DispatchFacts.
Local Open Scope Z_scope.

Lemma addOrderToHistory_cases w response acct alertId h :
  let order :=
    {| so_id := newOrderId w; so_orderId := orderId response;
       so_symbol := or_symbol response; so_side := or_side response;
       so_price := or_price response; so_quantity := origQty response;
       so_status := or_status response; so_accountType := acct;
       so_alertId := alertId; so_createdAt := clock w |} in
  addOrderToHistory w response acct alertId h
  = if storageWritable w then (Returns order, order :: take 99 h)
    else (Throws {| err_name := "QuotaExceededError";
                    err_message := "The quota has been exceeded." |}, h).
Proof. unfold addOrderToHistory. destruct (storageWritable w); reflexivity. Qed.

(** X21.  The order history changes only when a dispatch succeeds.  A
    dispatch that reports success has put exactly one order at the head
    of the history, carrying the number the exchange gave and the id of
    the alert (for a DCA trade, the id of the strategy behind the prefix
    "dca-"), and has dropped the order beyond the hundredth; any other
    dispatch leaves the history as it was. *)
Theorem history_changes_only_on_success w signer h :
  (forall alert,
     let r := fst (executeAlertTrade w alert signer h) in
     let h' := snd (executeAlertTrade w alert signer h) in
     (exists resp o,
         r = Returns (Some {| success := true; order := Some resp; error := None |})
         /\ h' = o :: take 99 h
         /\ so_orderId o = orderId resp
         /\ so_alertId o = Some (Alerts.alert_id alert)
         /\ so_accountType o = default SPOT (Alerts.trade_account_type alert))
     \/ (h' = h /\ forall res, r = Returns (Some res) -> success res = false))
  /\ (forall strategy,
        let r := fst (executeDCATrade w strategy signer h) in
        let h' := snd (executeDCATrade w strategy signer h) in
        (exists resp o,
            r = Returns {| success := true; order := Some resp; error := None |}
            /\ h' = o :: take 99 h
            /\ so_orderId o = orderId resp
            /\ so_alertId o = Some ("dca-" ++ DcaStore.strategy_id strategy)%string
            /\ so_accountType o = DcaStore.accountType strategy)
        \/ (h' = h /\ forall res, r = Returns res -> success res = false)).
Proof.
  split.
  - intros alert. cbn zeta. unfold executeAlertTrade.
    destruct (default false (Alerts.trade_enabled alert)); cbn [negb];
      [|right; split; [reflexivity|discriminate]].
    destruct (getStoredKeys (keysItem w)) as [keys|];
      [|right; split; [reflexivity|intros res [= <-]; reflexivity]].
    unfold tryCatch, bind, await, ret.
    destruct (syncTime _) as [[]|e];
      [|right; split; [reflexivity|intros res [= <-]; reflexivity]].
    destruct (placeLimitOrder _ _) as [resp|e];
      [|right; split; [reflexivity|intros res [= <-]; reflexivity]].
    rewrite addOrderToHistory_cases. destruct (storageWritable w).
    + left. eexists resp, _. cbn. repeat split.
    + right. split; [reflexivity|intros res [= <-]; reflexivity].
  - intros strategy. cbn zeta. unfold executeDCATrade.
    destruct (getStoredKeys (keysItem w)) as [keys|];
      [|right; split; [reflexivity|intros res [= <-]; reflexivity]].
    unfold tryCatch, bind, await, ret.
    destruct (syncTime _) as [[]|e];
      [|right; split; [reflexivity|intros res [= <-]; reflexivity]].
    destruct (placeMarketOrder _ _) as [resp|e];
      [|right; split; [reflexivity|intros res [= <-]; reflexivity]].
    rewrite addOrderToHistory_cases. destruct (storageWritable w).
    + left. eexists resp, _. cbn. repeat split.
    + right. split; [reflexivity|intros res [= <-]; reflexivity].
Qed.



Lemma markFirst_none n s h :
  (forall o, o ∈ h -> so_orderId o <> n) -> markFirst n s h = None.
Proof.
  induction h as [|o h IH]; intros H; [reflexivity|]. cbn.
  destruct (Z.eqb_spec (so_orderId o) n) as [Heq|_].
  - exfalso. apply (H o); [apply elem_of_cons; left; reflexivity|exact Heq].
  - rewrite IH; [reflexivity|]. intros o' Ho'. apply H, elem_of_cons. right. exact Ho'.
Qed.

Lemma markFirst_first n s pre o post :
  (forall x, x ∈ pre -> so_orderId x <> n) -> so_orderId o = n ->
  markFirst n s (pre ++ o :: post) = Some (pre ++ withStatus o s :: post).
Proof.
  intros Hpre Ho. induction pre as [|x pre IH]; cbn.
  - rewrite Ho, Z.eqb_refl. reflexivity.
  - destruct (Z.eqb_spec (so_orderId x) n) as [Heq|_].
    + exfalso. apply (Hpre x); [apply elem_of_cons; left; reflexivity|exact Heq].
    + rewrite IH; [reflexivity|]. intros y Hy. apply Hpre, elem_of_cons. right. exact Hy.
Qed.

Lemma find_split n (h : list StoredOrder) :
  (forall o, o ∈ h -> so_orderId o <> n)
  \/ exists pre o post,
       h = pre ++ o :: post /\ (forall x, x ∈ pre -> so_orderId x <> n) /\ so_orderId o = n.
Proof.
  induction h as [|x h IH]; [left; intros o Ho; apply elem_of_nil in Ho as []|].
  destruct (Z.eq_dec (so_orderId x) n) as [Heq|Hne].
  - right. exists [], x, h. split; [reflexivity|]. split; [|exact Heq].
    intros y Hy. apply elem_of_nil in Hy as [].
  - destruct IH as [Hnone|(pre & o & post & -> & Hpre & Ho)].
    + left. intros o Ho. apply elem_of_cons in Ho as [->|Ho]; [exact Hne|apply Hnone, Ho].
    + right. exists (x :: pre), o, post. split; [reflexivity|]. split; [|exact Ho].
      intros y Hy. apply elem_of_cons in Hy as [->|Hy]; [exact Hne|apply Hpre, Hy].
Qed.

(** X23.  UpdateOrderStatus changes the status of the first order with the
    given number and nothing else: the orders before and after it, and
    any later order with the same number, stay as they are.  For a number
    that no order of the history carries it returns without writing: the
    history is as it was, and no exception is raised even when local
    storage is full. *)
Theorem updateOrderStatus_marks_the_first_match w n s h :
  ((forall o, o ∈ h -> so_orderId o <> n)
   /\ updateOrderStatus w n s h = (Returns tt, h))
  \/ exists pre o post,
       h = pre ++ o :: post
       /\ (forall x, x ∈ pre -> so_orderId x <> n) /\ so_orderId o = n
       /\ (storageWritable w = true ->
           updateOrderStatus w n s h = (Returns tt, pre ++ withStatus o s :: post))
       /\ (storageWritable w = false ->
           exists e, updateOrderStatus w n s h = (Throws e, h)).
Proof.
  destruct (find_split n h) as [Hnone|(pre & o & post & -> & Hpre & Ho)].
  - left. split; [exact Hnone|]. unfold updateOrderStatus.
    rewrite markFirst_none by exact Hnone. reflexivity.
  - right. exists pre, o, post. split; [reflexivity|]. split; [exact Hpre|].
    split; [exact Ho|]. unfold updateOrderStatus.
    rewrite markFirst_first by assumption. split; intros ->; [reflexivity|eauto].
Qed.

(** X24.  Keys that are saved are read back as saved when both are
    non-empty; after clearKeys, or when a saved key is empty, there are
    no keys, and both dispatchers then answer that no keys are
    configured, whatever the trading client would do, and leave the
    history as it was. *)
Theorem keys_round_trip keys :
  getStoredKeys (saveKeys keys)
  = (if nonEmpty (apiKey keys) && nonEmpty (apiSecret keys) then Some keys else None)
  /\ getStoredKeys clearKeys = None
  /\ forall w item alert strategy signer h,
       getStoredKeys item = None ->
       Alerts.trade_enabled alert = Some true ->
       executeAlertTrade (withKeys item w) alert signer h = (Returns (Some noKeys), h)
       /\ executeDCATrade (withKeys item w) strategy signer h = (Returns noKeys, h).
Proof.
  split; [|split].
  - destruct keys as [k s]. cbn. destruct (nonEmpty k && nonEmpty s); reflexivity.
  - reflexivity.
  - intros w item alert strategy signer h Hnone Hen.
    unfold executeAlertTrade, executeDCATrade. cbn [withKeys keysItem].
    rewrite Hnone, Hen. split; reflexivity.
Qed.

End OrderStoreFacts.

(** ** The clock of the trading client *)

Module ClockSyncFacts.
Import ClockSync.
Local Open Scope Z_scope.

(** X25.  The clock of the trading client is off by at most half the round
    trip.  When the server reads its clock at some instant between the
    two local readings, and its clock is the local one plus a constant
    skew, the offset that syncTime stores differs from the skew by at
    most half the round trip (rounded up); a request stamped with
    getServerTime after a synchronisation that took less than twenty
    seconds is within the recvWindow of the server's clock. *)
Theorem synchronised_clock_is_within_half_a_round_trip before after t skew :
  before <= t <= after ->
  let offset := timeOffset before after (t + skew) in
  - ((after - before) / 2) <= offset - skew <= (after - before + 1) / 2
  /\ (forall now,
        Z.abs (getServerTime now offset - (now + skew)) <= (after - before + 1) / 2)
  /\ (after - before < 2 * recvWindow ->
      forall now, Z.abs (getServerTime now offset - (now + skew)) <= recvWindow).
Proof.
  intros Ht offset. subst offset. unfold timeOffset, getServerTime, recvWindow.
  split; [|split].
  - Z.div_mod_to_equations. lia.
  - intros now. Z.div_mod_to_equations. lia.
  - intros Hrt now. Z.div_mod_to_equations. lia.
Qed.

Lemma synchronised_clock_is_within_half_a_round_trip_witness :
  Z.abs (getServerTime 5000 (timeOffset 1000 1301 (1100 + 250)) - (5000 + 250)) <= 151.
Proof.
  destruct (synchronised_clock_is_within_half_a_round_trip 1000 1301 1100 250) as (_ & H & _).
  - lia.
  - apply (H 5000).
Defined.

End ClockSyncFacts.

(** ** Every run of the transport *)

Module RunFacts.
Import Transport TransportFacts.
Local Open Scope Z_scope.

Section Loop.

Variable config : RetryConfig.
Variable input : string.
Variable fetch : Z -> FetchOutcome.
Variable random : Z -> Q.

Lemma schedule_cons n first :
  schedule config random (S (S n)) first
  = Fetch first
      :: Sleep (addJitter (backoffDelay config first) (jitterPercent config) (random first))
      :: schedule config random (S n) (first + 1).
Proof. reflexivity. Qed.

(** With enough turns left, the loop adds to the trace the schedule of
    the attempts it makes. *)
Lemma retryLoop_schedule turns : forall attempt lastError trace,
  maxAttempts config - attempt + 1 < Z.of_nat turns ->
  exists n,
    (attempt <= maxAttempts config -> (1 <= n)%nat)
    /\ Z.of_nat n <= Z.max 0 (maxAttempts config - attempt + 1)
    /\ snd (retryLoop config input fetch random turns attempt lastError trace)
       = trace ++ schedule config random n attempt.
Proof.
  induction turns as [|turns IH]; intros attempt lastError trace Hfuel.
  - exists 0%nat. cbn. rewrite app_nil_r. repeat split; lia.
  - cbn [retryLoop]. destruct (Z.leb_spec attempt (maxAttempts config)) as [Hle|Hgt].
    + destruct (attemptOnce input attempt (fetch attempt)) as [d|e|e].
      * exists 1%nat. cbn. repeat split; lia.
      * exists 1%nat. cbn. repeat split; lia.
      * destruct (Z.ltb_spec attempt (maxAttempts config)) as [Hlt|Hge].
        -- destruct (IH (attempt + 1) (Some e)
                       ((trace ++ [Fetch attempt])
                          ++ [Sleep (addJitter (backoffDelay config attempt)
                                       (jitterPercent config) (random attempt))]))
             as (n & Hn1 & Hn2 & ->); [lia|].
           destruct n as [|n]; [specialize (Hn1 ltac:(lia)); lia|].
           exists (S (S n)). rewrite schedule_cons, <- !app_assoc. cbn [app].
           repeat split; lia.
        -- destruct (IH (attempt + 1) (Some e) (trace ++ [Fetch attempt]))
             as (n & _ & Hn2 & ->); [lia|].
           assert (n = 0%nat) by lia. subst n. exists 1%nat. cbn. rewrite app_nil_r.
           repeat split; lia.
    + exists 0%nat. cbn. rewrite app_nil_r. repeat split; lia.
Qed.

Lemma count_fetches n : forall first,
  length (List.filter Run.isFetch (schedule config random n first)) = n.
Proof.
  induction n as [|n IH]; intros first; [reflexivity|].
  destruct n as [|n]; [reflexivity|]. rewrite schedule_cons. cbn [List.filter Run.isFetch length].
  rewrite IH. reflexivity.
Qed.


(** After a retryable failure of an attempt that is not the last one
    allowed, the next attempt is made. *)
Lemma continue_makes_next_attempt k e :
  1 <= k < maxAttempts config ->
  (forall i, 1 <= i < k -> exists e', attemptOnce input i (fetch i) = Continue e') ->
  attemptOnce input k (fetch k) = Continue e ->
  In (Fetch (k + 1)) (snd (fetchJsonWithRetry config input fetch random)).
Proof.
  intros Hk Hcont He.
  rewrite (run_through config input fetch random k ltac:(lia) Hcont), He.
  replace (S (Z.to_nat (maxAttempts config)) - Z.to_nat k)%nat
    with (S (Z.to_nat (maxAttempts config) - Z.to_nat k)) by lia.
  cbn [retryLoop].
  replace (k + 1 <=? maxAttempts config) with true by (symmetry; apply Z.leb_le; lia).
  destruct (attemptOnce input (k + 1) (fetch (k + 1))) as [d|e'|e']; cbn [snd].
  - apply in_or_app. right. left. reflexivity.
  - apply in_or_app. right. left. reflexivity.
  - match goal with |- In _ (snd (retryLoop _ _ _ _ ?t ?a ?l ?tr)) =>
      destruct (retryLoop_extends config input fetch random t a l tr) as [more ->]
    end.
    apply in_or_app. left.
    destruct (k + 1 <? maxAttempts config); rewrite ?in_app_iff; cbn; auto.
Qed.

Lemma run_is_schedule :
  exists n,
    Z.of_nat n <= Z.max 0 (maxAttempts config)
    /\ snd (fetchJsonWithRetry config input fetch random) = schedule config random n 1.
Proof.
  unfold fetchJsonWithRetry.
  destruct (retryLoop_schedule (S (Z.to_nat (maxAttempts config))) 1 None [])
    as (n & _ & Hn & ->); [lia|].
  exists n. cbn [app]. split; [lia|reflexivity].
Qed.

End Loop.

(** X26.  Whatever the network answers, a run never makes more than
    maxAttempts requests and its trace is a schedule: the requests are
    numbered from 1 without a gap, exactly one wait separates two
    consecutive requests, and no wait follows the last request. *)
Theorem every_run_follows_the_schedule config input fetch random :
  let trace := snd (fetchJsonWithRetry config input fetch random) in
  exists n,
    Z.of_nat n <= Z.max 0 (maxAttempts config)
    /\ trace = schedule config random n 1
    /\ length (List.filter Run.isFetch trace) = n.
Proof.
  intros trace. subst trace.
  destruct (run_is_schedule config input fetch random) as (n & Hn & ->).
  exists n. split; [exact Hn|]. split; [reflexivity|]. apply count_fetches.
Qed.

(** X27.  When every attempt fails retryably the run ends, after
    maxAttempts requests, with an error of code RETRY_EXHAUSTED that
    carries the number of attempts and the message of the last failure,
    and neither a status nor a retry-after delay; with maxAttempts below
    1 the run fails at once, without any request. *)
Theorem exhausted_run config input fetch random :
  (1 <= maxAttempts config ->
   (forall i, 1 <= i <= maxAttempts config ->
      exists e, attemptOnce input i (fetch i) = Continue e) ->
   exists e,
     attemptOnce input (maxAttempts config) (fetch (maxAttempts config)) = Continue e
     /\ fetchJsonWithRetry config input fetch random
        = (Rejects (exhausted config input (Some e)),
           schedule config random (Z.to_nat (maxAttempts config)) 1))
  /\ (maxAttempts config <= 0 ->
      fetchJsonWithRetry config input fetch random
      = (Rejects (exhausted config input None), []))
  /\ (forall lastError,
        code (exhausted config input lastError) = RETRY_EXHAUSTED
        /\ attempt (exhausted config input lastError) = maxAttempts config
        /\ status (exhausted config input lastError) = None
        /\ retryAfterSec (exhausted config input lastError) = None).
Proof.
  split; [|split].
  - intros Hmax Hall.
    destruct (Hall (maxAttempts config) ltac:(lia)) as [e He]. exists e. split; [exact He|].
    rewrite (run_through config input fetch random (maxAttempts config) ltac:(lia))
      by (intros i Hi; apply Hall; lia).
    rewrite He.
    replace (S (Z.to_nat (maxAttempts config)) - Z.to_nat (maxAttempts config))%nat
      with 1%nat by lia.
    cbn [retryLoop].
    replace (maxAttempts config + 1 <=? maxAttempts config) with false
      by (symmetry; apply Z.leb_gt; lia).
    unfold sleepAfter. rewrite Z.ltb_irrefl, app_nil_r. reflexivity.
  - intros Hmax. unfold fetchJsonWithRetry. cbn [retryLoop].
    replace (1 <=? maxAttempts config) with false by (symmetry; apply Z.leb_gt; lia).
    reflexivity.
  - intros lastError. repeat split.
Qed.

Lemma exhausted_run_witness :
  exists e,
    attemptOnce "u" 3 (always (Resolved unavailable) 3) = Continue e
    /\ fetchJsonWithRetry DEFAULT_CONFIG "u" (always (Resolved unavailable)) (fun _ => 1 # 2)%Q
       = (Rejects (exhausted DEFAULT_CONFIG "u" (Some e)),
          schedule DEFAULT_CONFIG (fun _ => 1 # 2)%Q 3 1).
Proof.
  apply (proj1 (exhausted_run DEFAULT_CONFIG "u" (always (Resolved unavailable))
                  (fun _ => 1 # 2)%Q)).
  - cbn. lia.
  - intros i Hi. eexists. apply attemptOnce_5xx. reflexivity.
Defined.

(** X28.  A request that fails before any response arrives is retried when
    the failure is a timeout (AbortError) or a network error (TypeError);
    any other exception, and any value thrown that is not an Error, ends
    the run at once with the code NETWORK_ERROR. *)
Theorem network_failure_classification config input fetch random k err :
  1 <= k <= maxAttempts config ->
  (forall i, 1 <= i < k -> exists e, attemptOnce input i (fetch i) = Continue e) ->
  fetch k = Failed err ->
  let run := fetchJsonWithRetry config input fetch random in
  (forall msg, err = ThrownError "AbortError" msg ->
     attemptOnce input k (fetch k)
     = Continue (mkApiError "Request timeout" ABORT_TIMEOUT input k None None)
     /\ (k < maxAttempts config -> In (Fetch (k + 1)) (snd run)))
  /\ (forall msg, err = ThrownError "TypeError" msg ->
        attemptOnce input k (fetch k)
        = Continue (mkApiError msg NETWORK_ERROR input k None None)
        /\ (k < maxAttempts config -> In (Fetch (k + 1)) (snd run)))
  /\ (forall name msg, err = ThrownError name msg ->
        name <> "AbortError" -> name <> "TypeError" ->
        run = (Rejects (mkApiError msg NETWORK_ERROR input k None None),
               schedule config random (Z.to_nat k) 1))
  /\ (err = ThrownValue ->
      run = (Rejects (mkApiError "Unknown error" NETWORK_ERROR input k None None),
             schedule config random (Z.to_nat k) 1)).
Proof.
  intros Hk Hcont Hf run. subst run. split; [|split; [|split]].
  - intros msg ->.
    assert (He : attemptOnce input k (fetch k)
                 = Continue (mkApiError "Request timeout" ABORT_TIMEOUT input k None None))
      by (rewrite Hf; reflexivity).
    split; [exact He|]. intros Hlt.
    apply (continue_makes_next_attempt config input fetch random k _ ltac:(lia) Hcont He).
  - intros msg ->.
    assert (He : attemptOnce input k (fetch k)
                 = Continue (mkApiError msg NETWORK_ERROR input k None None))
      by (rewrite Hf; reflexivity).
    split; [exact He|]. intros Hlt.
    apply (continue_makes_next_attempt config input fetch random k _ ltac:(lia) Hcont He).
  - intros name msg -> Ha Ht.
    rewrite (run_through config input fetch random k Hk Hcont), Hf.
    unfold attemptOnce, catchBlock, isRetryableError.
    destruct (String.eqb_spec name "AbortError"); [done|].
    destruct (String.eqb_spec name "TypeError"); [done|]. reflexivity.
  - intros ->. rewrite (run_through config input fetch random k Hk Hcont), Hf. reflexivity.
Qed.

Lemma network_failure_classification_witness :
  In (Fetch 2) (snd (fetchJsonWithRetry DEFAULT_CONFIG "u" Run.timesOut (fun _ => 0%Q))).
Proof.
  destruct (network_failure_classification DEFAULT_CONFIG "u" Run.timesOut (fun _ => 0%Q) 1
              (ThrownError "AbortError" "The operation was aborted.")) as (H & _).
  - cbn. lia.
  - intros i Hi. lia.
  - reflexivity.
  - destruct (H _ eq_refl) as [_ Hnext]. apply Hnext. cbn. lia.
Defined.



End RunFacts.

(** ** The error store *)

Module AppStoreFacts.
Import AppStore.
Local Open Scope Z_scope.

Lemma token_step (dev : bool) s a :
  retryToken (state s) <= retryToken (state (act dev s a))
  /\ retryToken (state (act dev s a))
     <= retryToken (state s) + (if isRequestRetry a then 1 else 0).
Proof.
  destruct a as [e| | |b]; cbn; try lia.
  unfold requestRetry. destruct (inFlight (state s)); cbn; lia.
Qed.

Lemma token_run (dev : bool) actions : forall s,
  retryToken (state s) <= retryToken (state (run dev actions s))
  /\ retryToken (state (run dev actions s))
     <= retryToken (state s) + Z.of_nat (length (List.filter isRequestRetry actions)).
Proof.
  induction actions as [|a actions IH]; intros s; [cbn; lia|].
  cbn [run fold_left]. fold (run dev actions (act dev s a)).
  destruct (IH (act dev s a)) as [H1 H2]. destruct (token_step dev s a) as [H3 H4].
  cbn [List.filter]. destruct (isRequestRetry a); cbn [length]; lia.
Qed.

(** X30.  Retries are single-flight.  A retry requested while one is in
    flight is ignored altogether (the state is untouched and nobody is
    notified), so that asking twice is asking once; a retry that is
    accepted advances the token by one and sets the in-flight flag; over
    any sequence of actions the token never decreases, and it advances
    by at most the number of retries requested. *)
Theorem retries_are_single_flight (dev : bool) :
  (forall s, inFlight (state s) = true -> requestRetry s = s)
  /\ (forall s, requestRetry (requestRetry s) = requestRetry s)
  /\ (forall s, inFlight (state s) = false ->
        retryToken (state (requestRetry s)) = retryToken (state s) + 1
        /\ inFlight (state (requestRetry s)) = true
        /\ notified (requestRetry s) = S (notified s))
  /\ (forall actions s,
        retryToken (state s) <= retryToken (state (run dev actions s))
        /\ retryToken (state (run dev actions s))
           <= retryToken (state s) + Z.of_nat (length (List.filter isRequestRetry actions))).
Proof.
  split; [|split; [|split]].
  - intros s H. unfold requestRetry. rewrite H. reflexivity.
  - intros s. destruct (inFlight (state s)) eqn:H.
    + assert (Hsame : requestRetry s = s) by (unfold requestRetry; rewrite H; reflexivity).
      rewrite !Hsame. reflexivity.
    + unfold requestRetry. rewrite H. cbn. reflexivity.
  - intros s H. unfold requestRetry. rewrite H. cbn. auto.
  - intros actions s. apply token_run.
Qed.

End AppStoreFacts.
